(** * slixon.js: the currency-name codec, the Token algebra and the Wallet
      read side, embedded in Rocq.

    Sources embedded here:
    - [packages/sdk-core/src/converter.ts]  (names, dex-share codec, force* conversions)
    - [packages/sdk-core/src/token.ts]      (class Token)
    - the error classes, the price-provider types and the Wallet class.

    JavaScript strings are sequences of UTF-16 code units, JavaScript
    exceptions are the [Throw] branch of the [Result] monad, the built-ins the
    code calls ([encodeURIComponent], [decodeURIComponent], [RegExp.prototype.exec],
    [Array.prototype.sort], [Object.fromEntries]/[Object.keys], the rxjs
    operators) follow ECMA-262 and the rxjs documentation. *)

From Stdlib Require Import QArith Qminmax.
From Stdlib Require Import ZArith List Lia Bool String Ascii Permutation Sorted.
Import ListNotations.
Local Open Scope Z_scope.

(* ================================================================== *)
(** * Part I: definitions *)
(* ================================================================== *)

(** ** JavaScript strings *)

(** A string value is a finite sequence of 16-bit code units. *)
Definition JSString := list Z.

Definition is_code_unit (u : Z) : bool := (0 <=? u) && (u <? 65536).

Definition char (a : ascii) : Z := Z.of_nat (nat_of_ascii a).

(** The string value of an ASCII literal of the source. *)
Definition str (s : string) : JSString := map char (list_ascii_of_string s).

Definition in_range (lo hi c : Z) : bool := (lo <=? c) && (c <=? hi).

Definition is_leading_surrogate (c : Z) : bool := in_range 0xD800 0xDBFF c.
Definition is_trailing_surrogate (c : Z) : bool := in_range 0xDC00 0xDFFF c.
Definition is_surrogate (c : Z) : bool := in_range 0xD800 0xDFFF c.

(** A well-formed string: every code unit is in range and every surrogate is
    half of a leading/trailing pair (what [String.prototype.isWellFormed]
    tests). *)
Fixpoint isWellFormed (s : JSString) : bool :=
  match s with
  | [] => true
  | c :: rest =>
      if negb (is_surrogate c) then is_code_unit c && isWellFormed rest
      else if is_leading_surrogate c then
        match rest with
        | d :: rest' => is_trailing_surrogate d && isWellFormed rest'
        | [] => false
        end
      else false
  end.

Fixpoint string_eqb (a b : JSString) : bool :=
  match a, b with
  | [], [] => true
  | x :: a', y :: b' => (x =? y) && string_eqb a' b'
  | _, _ => false
  end.

(** [String.prototype.startsWith]. *)
Fixpoint startsWith (s prefix : JSString) {struct prefix} : bool :=
  match prefix, s with
  | [], _ => true
  | p :: prefix', c :: s' => (c =? p) && startsWith s' prefix'
  | _ :: _, [] => false
  end.

(** ** FixedPointNumber *)

(** Modelled from the spec: the class [FixedPointNumber] of sdk-core, whose
    file is not among the sources.  The spec's Decimal is an unbounded integer
    mantissa with a scale (number of fractional digits); [fromInner] takes the
    ledger's raw integer and the token's decimals; subtraction and [max] are
    exact; [ZERO] is the canonical zero. *)
Record FixedPointNumber := mkFN { inner : Z; precision : N }.

Definition FN_ZERO : FixedPointNumber := mkFN 0 0.

Definition FN_fromInner (raw : Z) (decimals : N) : FixedPointNumber :=
  mkFN raw decimals.

(** The mantissa of [a] at the finer scale [p]. *)
Definition FN_align (a : FixedPointNumber) (p : N) : Z :=
  inner a * 10 ^ Z.of_N (p - precision a).

Definition FN_sub (a b : FixedPointNumber) : FixedPointNumber :=
  let p := N.max (precision a) (precision b) in
  mkFN (FN_align a p - FN_align b p) p.

Definition FN_max (a b : FixedPointNumber) : FixedPointNumber :=
  let p := N.max (precision a) (precision b) in
  if FN_align a p <? FN_align b p then b else a.


(** ** Token data *)

(** Modelled from the spec: the enum [TokenType] of sdk-core's types file,
    which is not among the sources; the spec lists the kinds Basic, DexShare,
    Erc20.  Like [PriceProviderType] below it is taken to be a numeric enum,
    BASIC being 0 and so the one falsy kind; only the test [!type] of
    [subscribeTokens] depends on that. *)
Inductive TokenType := BASIC | DEX_SHARE | ERC20.

Definition TokenType_eqb (a b : TokenType) : bool :=
  match a, b with
  | BASIC, BASIC | DEX_SHARE, DEX_SHARE | ERC20, ERC20 => true
  | _, _ => false
  end.

(** [interface Configs]: every field is optional.  Decimals are counts of
    digits, natural numbers as in the data model of the spec. *)
Record Configs := mkConfigs {
  cfg_display : option JSString;
  cfg_decimals : option N;
  cfg_decimal : option N;
  cfg_type : option TokenType;
  cfg_chain : option JSString;
  cfg_symbol : option JSString;
  cfg_detail : option N;
  cfg_ed : option FixedPointNumber
}.

(** The fields of [class Token] ([pair] is declared and never assigned). *)
Record Token := mkToken {
  name : JSString;
  symbol : JSString;
  decimals : N;
  decimal : N;
  ed : FixedPointNumber;
  chain : option JSString;
  type : TokenType;
  display : JSString
}.

(** The chain's [CurrencyId] enum, as far as [forceToCurrencyName] looks at
    it: [isToken]/[asToken], [isDexShare]/[asDexShare], [isErc20]/[asErc20],
    and [toString] of any other variant. *)
Inductive CurrencyId :=
| CurrencyId_Token (tokenSymbol : JSString)
| CurrencyId_DexShare (c0 c1 : CurrencyId)
| CurrencyId_Erc20 (address : JSString)
| CurrencyId_Other (toString : JSString).

(** [type MaybeCurrency]: a name, a pair of names, a Token or a CurrencyId. *)
Inductive MaybeCurrency :=
| MC_string (s : JSString)
| MC_pair (n0 n1 : JSString)
| MC_Token (t : Token)
| MC_CurrencyId (c : CurrencyId).

(** ** Exceptions *)

(** The exceptions the embedded code can raise: the built-in ones and the
    error classes of sdk-core and sdk, each with its constructor argument. *)
Inductive Error :=
| URIError
| TypeError
| ReferenceError (identifier : JSString)
| NotDexShareName (origin : JSString)
| ConvertToCurrencyNameFailed (origin : MaybeCurrency)
| ConvertToCurrencyIdFailed (origin : MaybeCurrency)
| CurrencyNotFound (name : JSString)
| SDKNotReady (name : JSString)
| CreateTypeError.

Inductive Result (A : Type) :=
| Ok (a : A)
| Throw (e : Error).
Arguments Ok {A} a.
Arguments Throw {A} e.

Definition bind {A B} (r : Result A) (k : A -> Result B) : Result B :=
  match r with
  | Ok a => k a
  | Throw e => Throw e
  end.

Notation "x <- r ;; k" := (bind r (fun x => k))
  (at level 61, r at next level, right associativity).

(** [try { body } catch (e) { handler }]. *)
Definition try_catch {A} (body : Result A) (handler : Error -> Result A) : Result A :=
  match body with
  | Ok a => Ok a
  | Throw e => handler e
  end.

(** ** encodeURIComponent and decodeURIComponent (ECMA-262, 19.2.6) *)

(** The unescaped set of [encodeURIComponent]: letters, digits and
    [- _ . ! ~ * ' ( )]. *)
Definition uriUnescaped (c : Z) : bool :=
  in_range (char "A") (char "Z") c || in_range (char "a") (char "z") c
  || in_range (char "0") (char "9") c
  || existsb (Z.eqb c) (str "-_.!~*'()").

(** The UTF-8 transformation of a code point. *)
Definition UTF8_octets (cp : Z) : list Z :=
  if cp <? 0x80 then [cp]
  else if cp <? 0x800 then [0xC0 + cp / 0x40; 0x80 + cp mod 0x40]
  else if cp <? 0x10000 then
    [0xE0 + cp / 0x1000; 0x80 + (cp / 0x40) mod 0x40; 0x80 + cp mod 0x40]
  else
    [0xF0 + cp / 0x40000; 0x80 + (cp / 0x1000) mod 0x40;
     0x80 + (cp / 0x40) mod 0x40; 0x80 + cp mod 0x40].

Definition hexDigit (d : Z) : Z :=
  if d <? 10 then char "0" + d else char "A" + (d - 10).

(** One octet as ["%XX"], upper-case and padded to two digits. *)
Definition escape_octet (b : Z) : JSString :=
  [char "%"; hexDigit (b / 16); hexDigit (b mod 16)].

Definition escape_octets (bs : list Z) : JSString :=
  flat_map escape_octet bs.

Definition UTF16SurrogatePairToCodePoint (lead trail : Z) : Z :=
  (lead - 0xD800) * 0x400 + (trail - 0xDC00) + 0x10000.

(** [Encode(string, uriUnescaped)]: an unescaped unit is copied; otherwise the
    code point at the position is taken ([CodePointAt]), an unpaired surrogate
    raises URIError, and the UTF-8 octets of the code point are escaped. *)
Fixpoint encodeURIComponent (s : JSString) : Result JSString :=
  match s with
  | [] => Ok []
  | c :: rest =>
      if uriUnescaped c then
        R <- encodeURIComponent rest ;; Ok (c :: R)
      else if negb (is_surrogate c) then
        R <- encodeURIComponent rest ;; Ok (escape_octets (UTF8_octets c) ++ R)
      else if is_trailing_surrogate c then Throw URIError
      else
        match rest with
        | [] => Throw URIError
        | d :: rest' =>
            if is_trailing_surrogate d then
              R <- encodeURIComponent rest' ;;
              Ok (escape_octets (UTF8_octets (UTF16SurrogatePairToCodePoint c d)) ++ R)
            else Throw URIError
        end
  end.

Definition hexValue (c : Z) : option Z :=
  if in_range (char "0") (char "9") c then Some (c - char "0")
  else if in_range (char "a") (char "f") c then Some (c - char "a" + 10)
  else if in_range (char "A") (char "F") c then Some (c - char "A" + 10)
  else None.

Definition ParseHexOctet (h1 h2 : Z) : option Z :=
  match hexValue h1, hexValue h2 with
  | Some a, Some b => Some (16 * a + b)
  | _, _ => None
  end.

(** The number of leading 1 bits of an octet (5 stands for "more than 4"). *)
Definition leading_ones (B : Z) : Z :=
  if B <? 0x80 then 0
  else if B <? 0xC0 then 1
  else if B <? 0xE0 then 2
  else if B <? 0xF0 then 3
  else if B <? 0xF8 then 4
  else 5.

(** Reads [j] further escapes ["%XX"]; [None] when the input is too short,
    a unit is not ["%"] or the digits are not hexadecimal. *)
Fixpoint continuation_octets (j : nat) (s : JSString) : option (list Z * JSString) :=
  match j with
  | O => Some ([], s)
  | S j' =>
      match s with
      | p :: h1 :: h2 :: rest =>
          if p =? char "%" then
            match ParseHexOctet h1 h2 with
            | Some b =>
                match continuation_octets j' rest with
                | Some (bs, r) => Some (b :: bs, r)
                | None => None
                end
            | None => None
            end
          else None
      | _ => None
      end
  end.

Definition is_continuation (b : Z) : bool := in_range 0x80 0xBF b.

(** The code point of a multi-octet sequence when it is a valid UTF-8
    encoding (Unicode, table 3-7: no overlong form, no surrogate, at most
    U+10FFFF). *)
Definition UTF8_decode (octets : list Z) : option Z :=
  match octets with
  | [b1; b2] =>
      if in_range 0xC2 0xDF b1 && is_continuation b2
      then Some ((b1 - 0xC0) * 0x40 + (b2 - 0x80))
      else None
  | [b1; b2; b3] =>
      if (((b1 =? 0xE0) && in_range 0xA0 0xBF b2)
          || (in_range 0xE1 0xEC b1 && is_continuation b2)
          || ((b1 =? 0xED) && in_range 0x80 0x9F b2)
          || (in_range 0xEE 0xEF b1 && is_continuation b2))
         && is_continuation b3
      then Some ((b1 - 0xE0) * 0x1000 + (b2 - 0x80) * 0x40 + (b3 - 0x80))
      else None
  | [b1; b2; b3; b4] =>
      if (((b1 =? 0xF0) && in_range 0x90 0xBF b2)
          || (in_range 0xF1 0xF3 b1 && is_continuation b2)
          || ((b1 =? 0xF4) && in_range 0x80 0x8F b2))
         && is_continuation b3 && is_continuation b4
      then Some ((b1 - 0xF0) * 0x40000 + (b2 - 0x80) * 0x1000
                 + (b3 - 0x80) * 0x40 + (b4 - 0x80))
      else None
  | _ => None
  end.

Definition UTF16EncodeCodePoint (cp : Z) : JSString :=
  if cp <=? 0xFFFF then [cp]
  else [(cp - 0x10000) / 0x400 + 0xD800; (cp - 0x10000) mod 0x400 + 0xDC00].

(** [Decode(string, "")]: a unit other than ["%"] is copied; an escape gives
    an octet [B]; with no leading 1 bit it is the unit [B]; with [n] leading
    1 bits ([2 <= n <= 4]) the next [n-1] escapes are read and the [n] octets
    must be valid UTF-8.  Every other case raises URIError.  Each step
    consumes at least one unit, so [length s] steps suffice. *)
Fixpoint Decode (fuel : nat) (s : JSString) : Result JSString :=
  match s with
  | [] => Ok []
  | c :: rest =>
      match fuel with
      | O => Throw URIError
      | S fuel' =>
          if negb (c =? char "%") then
            R <- Decode fuel' rest ;; Ok (c :: R)
          else
            match rest with
            | h1 :: h2 :: rest2 =>
                match ParseHexOctet h1 h2 with
                | None => Throw URIError
                | Some B =>
                    let n := leading_ones B in
                    if n =? 0 then R <- Decode fuel' rest2 ;; Ok (B :: R)
                    else if (n =? 1) || (4 <? n) then Throw URIError
                    else
                      match continuation_octets (Z.to_nat (n - 1)) rest2 with
                      | None => Throw URIError
                      | Some (bs, rest3) =>
                          match UTF8_decode (B :: bs) with
                          | None => Throw URIError
                          | Some V =>
                              R <- Decode fuel' rest3 ;;
                              Ok (UTF16EncodeCodePoint V ++ R)
                          end
                      end
                end
            | _ => Throw URIError
            end
      end
  end.

Definition decodeURIComponent (s : JSString) : Result JSString :=
  Decode (List.length s) s.

(** ** Regular expressions (ECMA-262, 22.2.2) *)

(** The pattern syntax the source uses: pattern characters, a negated
    character class, sequencing, greedy quantifiers, capturing groups and the
    two line assertions (no flag is set: [^] and [$] are the ends of the
    input, and the input is matched code unit by code unit). *)
Inductive Pattern :=
| Empty
| Char (c : Z)
| NotChars (cs : list Z)
| Seq (r1 r2 : Pattern)
| Repeat (min : nat) (max : option nat) (r : Pattern)
| Group (i : nat) (r : Pattern)
| AssertStart
| AssertEnd.

Record MatchState := mkState {
  endIndex : nat;
  captures : list (option JSString)
}.

Definition MatcherContinuation := MatchState -> option MatchState.

(** [l] with position [i] set to [v]. *)
Fixpoint update {A} (i : nat) (v : A) (l : list A) : list A :=
  match l, i with
  | [], _ => []
  | _ :: l', O => v :: l'
  | a :: l', S i' => a :: update i' v l'
  end.

Definition substring (s : JSString) (from to : nat) : JSString :=
  firstn (to - from) (skipn from s).

(** The capturing groups inside a pattern. *)
Fixpoint group_indices (r : Pattern) : list nat :=
  match r with
  | Seq r1 r2 => group_indices r1 ++ group_indices r2
  | Repeat _ _ r' => group_indices r'
  | Group i r' => i :: group_indices r'
  | _ => []
  end.

Definition clear_captures (groups : list nat) (cap : list (option JSString)) :=
  fold_right (fun i c => update (i - 1) None c) cap groups.

(** [RepeatMatcher(m, min, max, greedy = true, x, c, ...)].  The continuation
    [d] starts with the test on [endIndex] of the standard: once [min] is
    met, an iteration that matched the empty sequence is a failure.  [xr] is
    [x] with the captures of the groups inside the atom set to undefined.  An
    iteration lowers [min] or moves [endIndex] forward, which bounds the
    number of iterations by [fuel]. *)
Fixpoint RepeatMatcher (m : MatchState -> MatcherContinuation -> option MatchState)
    (fuel : nat) (min : nat) (max : option nat) (groups : list nat)
    (x : MatchState) (c : MatcherContinuation) : option MatchState :=
  match fuel with
  | O => None
  | S fuel' =>
      match max with
      | Some O => c x
      | _ =>
          let d := fun y : MatchState =>
            if ((min =? 0) && (endIndex y =? endIndex x))%nat then None
            else RepeatMatcher m fuel' (pred min) (option_map pred max) groups y c in
          let xr := mkState (endIndex x) (clear_captures groups (captures x)) in
          if negb (min =? 0)%nat then m xr d
          else
            match m xr d with
            | Some z => Some z
            | None => c x
            end
      end
  end.

(** The matcher of a pattern on [input], in continuation-passing style as in
    the standard: [None] is [failure]. *)
Fixpoint matcher (input : JSString) (r : Pattern) (x : MatchState)
    (c : MatcherContinuation) : option MatchState :=
  match r with
  | Empty => c x
  | Char ch =>
      match nth_error input (endIndex x) with
      | Some u => if u =? ch then c (mkState (S (endIndex x)) (captures x)) else None
      | None => None
      end
  | NotChars cs =>
      match nth_error input (endIndex x) with
      | Some u =>
          if existsb (Z.eqb u) cs then None
          else c (mkState (S (endIndex x)) (captures x))
      | None => None
      end
  | Seq r1 r2 => matcher input r1 x (fun y => matcher input r2 y c)
  | Repeat min max r' =>
      RepeatMatcher (matcher input r') (S (min + List.length input)) min max
        (group_indices r') x c
  | Group i r' =>
      matcher input r' x (fun y =>
        c (mkState (endIndex y)
             (update (i - 1) (Some (substring input (endIndex x) (endIndex y)))
                (captures y))))
  | AssertStart => if (endIndex x =? 0)%nat then c x else None
  | AssertEnd => if (endIndex x =? List.length input)%nat then c x else None
  end.

(** [RegExpBuiltinExec] without the global and sticky flags: the match is
    tried at index 0, then 1, and so on up to the length of the input.  The
    result array holds the matched substring and then one entry per group,
    [None] for a group that did not take part in the match ([undefined]). *)
Fixpoint exec_from (input : JSString) (r : Pattern) (ncap : nat)
    (fuel lastIndex : nat) : option (list (option JSString)) :=
  match matcher input r (mkState lastIndex (repeat None ncap)) Some with
  | Some y => Some (Some (substring input lastIndex (endIndex y)) :: captures y)
  | None =>
      match fuel with
      | O => None
      | S fuel' => exec_from input r ncap fuel' (S lastIndex)
      end
  end.

Definition RegExp_exec (r : Pattern) (ncap : nat) (input : JSString) :
    option (list (option JSString)) :=
  exec_from input r ncap (List.length input) 0.

Fixpoint literal (s : JSString) : Pattern :=
  match s with
  | [] => Empty
  | c :: s' => Seq (Char c) (literal s')
  end.

(** [ToString] of an entry of a result array: [undefined] reads "undefined". *)
Definition ToString_entry (v : option JSString) : JSString :=
  match v with
  | Some s => s
  | None => str "undefined"
  end.

(** ** converter.ts *)

Definition createDexShareName (name1 name2 : JSString) : Result JSString :=
  e1 <- encodeURIComponent name1 ;;
  e2 <- encodeURIComponent name2 ;;
  Ok (str "lp://" ++ e1 ++ str "/" ++ e2).

Definition isDexShareName (name : JSString) : bool :=
  startsWith name (str "lp://").

(** The regular expression literal of [unzipDexShareName]: the start of the
    input, [lp://], optionally group 1 (any number of units other than a
    slash), a slash, group 2 (any number of units other than a slash), the
    end of the input. *)
Definition reg : Pattern :=
  Seq AssertStart
    (Seq (literal (str "lp://"))
       (Seq (Repeat 0 (Some 1%nat) (Group 1 (Repeat 0 None (NotChars [char "/"]))))
          (Seq (Char (char "/"))
             (Seq (Group 2 (Repeat 0 None (NotChars [char "/"])))
                AssertEnd)))).

Definition unzipDexShareName (name : JSString) : Result (JSString * JSString) :=
  if negb (isDexShareName name) then Throw (NotDexShareName name)
  else
    match RegExp_exec reg 2 name with
    | None => Throw (NotDexShareName name)
    | Some result =>
        n0 <- decodeURIComponent (ToString_entry (nth 1 result None)) ;;
        n1 <- decodeURIComponent (ToString_entry (nth 2 result None)) ;;
        Ok (n0, n1)
    end.

(** [type CurrencyObject]: [{ Token: name }] or [{ DexShare: [a, b] }]. *)
Inductive CurrencyObject :=
| CO_Token (name : JSString)
| CO_DexShare (a b : CurrencyObject).

Definition getBasicCurrencyObject (name : JSString) : CurrencyObject :=
  CO_Token name.

(** The local function [inner] of [getDexShareCurrencyObject].  A leg that is
    again a dex-share name is shorter than the name it was taken from, so the
    depth of the recursion is below the length of the name; [fuel] counts the
    calls left. *)
Fixpoint getDexShareCurrencyObject_inner (fuel : nat) (name : JSString) :
    Result CurrencyObject :=
  if isDexShareName name then
    match fuel with
    | O => Throw TypeError
    | S fuel' =>
        p <- unzipDexShareName name ;;
        a <- getDexShareCurrencyObject_inner fuel' (fst p) ;;
        b <- getDexShareCurrencyObject_inner fuel' (snd p) ;;
        Ok (CO_DexShare a b)
    end
  else Ok (getBasicCurrencyObject name).

Definition getDexShareCurrencyObject (name : JSString) : Result CurrencyObject :=
  getDexShareCurrencyObject_inner (List.length name) name.

Definition getCurrencyObject (name : JSString) : Result CurrencyObject :=
  if isDexShareName name then getDexShareCurrencyObject name
  else Ok (getBasicCurrencyObject name).

Definition Token_toString (t : Token) : JSString := name t.

(** [forceToCurrencyName] on a CurrencyId; every level of the recursion has
    its own [try]/[catch]. *)
Fixpoint forceToCurrencyName_CurrencyId (c : CurrencyId) : Result JSString :=
  try_catch
    match c with
    | CurrencyId_Token tokenSymbol => Ok tokenSymbol
    | CurrencyId_DexShare c0 c1 =>
        n0 <- forceToCurrencyName_CurrencyId c0 ;;
        n1 <- forceToCurrencyName_CurrencyId c1 ;;
        createDexShareName n0 n1
    | CurrencyId_Erc20 address => Ok address
    | CurrencyId_Other s => Ok s
    end
    (fun _ => Throw (ConvertToCurrencyNameFailed (MC_CurrencyId c))).

Definition forceToCurrencyName (target : MaybeCurrency) : Result JSString :=
  match target with
  | MC_CurrencyId c => forceToCurrencyName_CurrencyId c
  | _ =>
      try_catch
        match target with
        | MC_string s => Ok s
        | MC_pair n0 n1 => createDexShareName n0 n1
        | MC_Token t => Ok (Token_toString t)
        | MC_CurrencyId c => forceToCurrencyName_CurrencyId c
        end
        (fun _ => Throw (ConvertToCurrencyNameFailed target))
  end.

(** The part of the chain api the converter uses: [createType] for the
    currency-id type, which raises when the value does not fit the type. *)
Record AnyApi := mkApi {
  createType_CurrencyId : CurrencyObject -> Result CurrencyId
}.

(** The global scope, as far as the converter reads it.  The [catch] block of
    [forceToCurrencyId] names [origin], which neither the function nor the
    module binds: it is the global of that name (the origin string of the
    page where there is a DOM), and a ReferenceError where there is none. *)
Record GlobalScope := mkGlobal {
  global_origin : option JSString
}.

Definition forceToCurrencyId (g : GlobalScope) (api : AnyApi)
    (target : MaybeCurrency) : Result CurrencyId :=
  try_catch
    (name <- forceToCurrencyName target ;;
     obj <- getCurrencyObject name ;;
     createType_CurrencyId api obj)
    (fun _ =>
       match global_origin g with
       | Some origin => Throw (ConvertToCurrencyIdFailed (MC_string origin))
       | None => Throw (ReferenceError (str "origin"))
       end).

(** ** Objects used as maps, and Array.prototype.sort *)

(** An ordinary object with string keys: its properties in creation order. *)
Definition JSObject (V : Type) := list (JSString * V).

(** [CreateDataProperty]: an existing key keeps its place and takes the new
    value, a new key is added at the end. *)
Fixpoint Object_set {V} (k : JSString) (v : V) (o : JSObject V) : JSObject V :=
  match o with
  | [] => [(k, v)]
  | (k', v') :: o' =>
      if string_eqb k' k then (k', v) :: o' else (k', v') :: Object_set k v o'
  end.

Definition Object_fromEntries {V} (entries : list (JSString * V)) : JSObject V :=
  fold_left (fun o e => Object_set (fst e) (snd e) o) entries [].

(** The own property [k] of [o], if there is one: what [o[k]] is for a key
    that [Object.keys(o)] lists. *)
Fixpoint Object_get {V} (o : JSObject V) (k : JSString) : option V :=
  match o with
  | [] => None
  | (k', v) :: o' => if string_eqb k' k then Some v else Object_get o' k
  end.

(** The value of a property access [o[k]] for any key.  The object is a
    plain one, made by an object literal or by [Object.fromEntries]: a key
    that is no own property is looked up in [Object.prototype], whose
    properties are the built-in methods (and, under [__proto__], the
    prototype itself), and the access is [undefined] when the key is not
    there either. *)
Inductive PropertyValue (V : Type) :=
| Own (v : V)
| Inherited (k : JSString)
| Undefined.
Arguments Own {V} v.
Arguments Inherited {V} k.
Arguments Undefined {V}.

(** The property names of [Object.prototype] (ECMA-262, the properties of
    the Object prototype object, the legacy accessor methods included). *)
Definition Object_prototype_keys : list JSString :=
  [str "constructor"; str "hasOwnProperty"; str "isPrototypeOf";
   str "propertyIsEnumerable"; str "toLocaleString"; str "toString"; str "valueOf";
   str "__proto__"; str "__defineGetter__"; str "__defineSetter__";
   str "__lookupGetter__"; str "__lookupSetter__"].

Definition Object_lookup {V} (o : JSObject V) (k : JSString) : PropertyValue V :=
  match Object_get o k with
  | Some v => Own v
  | None =>
      if existsb (string_eqb k) Object_prototype_keys then Inherited k else Undefined
  end.

Definition is_digit (c : Z) : bool := in_range (char "0") (char "9") c.

Definition digits_value (ds : JSString) : Z :=
  fold_left (fun acc d => 10 * acc + (d - char "0")) ds 0.

(** The array index a key stands for: the canonical decimal numeral of an
    integer from 0 to 2^32 - 2. *)
Definition array_index (k : JSString) : option Z :=
  match k with
  | [] => None
  | d :: ds =>
      if forallb is_digit k
         && ((d =? char "0") && (List.length ds =? 0)%nat || negb (d =? char "0"))
         && (List.length k <=? 10)%nat
         && (digits_value k <? 2 ^ 32 - 1)
      then Some (digits_value k)
      else None
  end.

Fixpoint insert_by {A} (le : A -> A -> bool) (x : A) (l : list A) : list A :=
  match l with
  | [] => [x]
  | y :: l' => if le x y then x :: l else y :: insert_by le x l'
  end.

(** [OrdinaryOwnPropertyKeys]: the array-index keys in ascending numeric
    order, then the other keys in creation order. *)
Definition Object_keys {V} (o : JSObject V) : list JSString :=
  let ks := map fst o in
  let indexed :=
    flat_map (fun k => match array_index k with
                       | Some i => [(i, k)]
                       | None => []
                       end) ks in
  let others :=
    filter (fun k => match array_index k with
                     | Some _ => false
                     | None => true
                     end) ks in
  map snd (fold_right (insert_by (fun a b => fst a <=? fst b)) [] indexed)
  ++ others.

(** A comparison function of Array.prototype.sort: the sign of the number it
    returns orders its arguments. *)
Definition Comparator := JSString -> JSString -> Z.

(** [Array.prototype.sort(comparefn)].  The standard asks for a stable sort
    and fixes its result for a consistent comparison function: the elements
    in ascending order, equal ones in their original order; that is what the
    insertion sort computes. *)
Definition Array_sort (comparefn : Comparator) (l : list JSString) : list JSString :=
  fold_right (insert_by (fun a b => comparefn a b <=? 0)) [] l.

(** [keys.map((name) => nameMap[name])] for keys of [nameMap]: each key is an
    own property (lemma [Object_get_keys]), no entry is [undefined]. *)
Definition values_at {V} (o : JSObject V) (ks : list JSString) : list V :=
  flat_map (fun k => match Object_get o k with
                     | Some v => [v]
                     | None => []
                     end) ks.

(** ** token.ts *)

Definition optional {A B} (configs : option A) (field : A -> option B) : option B :=
  match configs with
  | Some c => field c
  | None => None
  end.

(** [a || b] on values that may be [undefined], for each type of field:
    0 is the falsy number, the empty string the falsy string, BASIC (0) the
    falsy kind, and an object is never falsy. *)
Definition or_number (a : option N) (b : N) : N :=
  match a with
  | Some n => if (n =? 0)%N then b else n
  | None => b
  end.

Definition or_string (a : option JSString) (b : JSString) : JSString :=
  match a with
  | Some [] => b
  | Some s => s
  | None => b
  end.

Definition or_type (a : option TokenType) (b : TokenType) : TokenType :=
  match a with
  | Some BASIC => b
  | Some t => t
  | None => b
  end.

Definition or_object {A} (a : option A) (b : A) : A :=
  match a with
  | Some x => x
  | None => b
  end.

(** [new Token(name, configs)]. *)
Definition Token_new (name : JSString) (configs : option Configs) : Token :=
  let decimals :=
    or_number (optional configs cfg_decimals)
      (or_number (optional configs cfg_decimal) 18%N) in
  mkToken name
    (or_string (optional configs cfg_symbol) name)
    decimals
    decimals
    (or_object (optional configs cfg_ed) FN_ZERO)
    (optional configs cfg_chain)
    (or_type (optional configs cfg_type) BASIC)
    (or_string (optional configs cfg_display) name).

Definition Token_sortTokenNames (sortTokenByName : Comparator)
    (names : list JSString) : list JSString :=
  let result := names in
  Array_sort sortTokenByName result.

Definition Token_sort (sortTokenByName : Comparator) (tokens : list Token) :
    list Token :=
  let result := tokens in
  let nameMap := Object_fromEntries (map (fun item => (name item, item)) result) in
  values_at nameMap (Array_sort sortTokenByName (Object_keys nameMap)).

Fixpoint mapM {A B} (f : A -> Result B) (l : list A) : Result (list B) :=
  match l with
  | [] => Ok []
  | a :: l' => b <- f a ;; bs <- mapM f l' ;; Ok (b :: bs)
  end.

Definition Token_sortCurrencies (sortTokenByName : Comparator)
    (currencies : list CurrencyId) : Result (list CurrencyId) :=
  let result := currencies in
  entries <- mapM (fun item =>
                     n <- forceToCurrencyName (MC_CurrencyId item) ;;
                     Ok (n, item)) result ;;
  let nameMap := Object_fromEntries entries in
  Ok (values_at nameMap (Array_sort sortTokenByName (Object_keys nameMap))).

(** [Token.fromTokens].  The array pattern takes the first two entries of the
    sorted array; an entry that is missing is [undefined], and reading a
    property of it raises TypeError. *)
Definition Token_fromTokens (sortTokenByName : Comparator)
    (token1 token2 : Token) : Result Token :=
  match Token_sort sortTokenByName [token1; token2] with
  | _token1 :: _token2 :: _ =>
      let decimals := decimals _token1 in
      let ed := ed _token1 in
      n <- createDexShareName (name _token1) (name _token2) ;;
      Ok (Token_new n
            (Some (mkConfigs None (Some decimals) None (Some DEX_SHARE)
                     None None None (Some ed))))
  | _ => Throw TypeError
  end.

(** ** rxjs, as far as the Wallet uses it *)

Inductive Notification (A : Type) :=
| Next (a : A)
| Error_ (e : Error).
Arguments Next {A} a.
Arguments Error_ {A} e.

(** What one subscriber receives, in order, each notification with its
    instant.  Instants are numbered; every push and every call has its own. *)
Definition Stream (A : Type) := list (nat * Notification A).

(** An observable gives, for the instant of a subscription, the stream of
    that subscriber.  None of the streams below completes without a value. *)
Definition Observable (A : Type) := nat -> Stream A.

(** An error notification ends a stream. *)
Fixpoint until_error {A} (s : Stream A) : Stream A :=
  match s with
  | [] => []
  | (t, Next a) :: s' => (t, Next a) :: until_error s'
  | (t, Error_ e) :: _ => [(t, Error_ e)]
  end.

(** [new BehaviorSubject(initial)] with the values later handed to [next],
    in the order of the calls. *)
Record BehaviorSubject (A : Type) := mkSubject {
  initial : A;
  pushed : list (nat * A)
}.
Arguments mkSubject {A} initial pushed.
Arguments initial {A} b.
Arguments pushed {A} b.

(** [subject.value] at instant [t]. *)
Definition Subject_value {A} (s : BehaviorSubject A) (t : nat) : A :=
  fold_left (fun v e => if (fst e <=? t)%nat then snd e else v) (pushed s) (initial s).

(** A subscriber of a BehaviorSubject receives the current value at once and
    then every later value. *)
Definition asObservable {A} (s : BehaviorSubject A) : Observable A :=
  fun t =>
    (t, Next (Subject_value s t))
    :: map (fun e => (fst e, Next (snd e)))
         (filter (fun e => (t <? fst e)%nat) (pushed s)).

Definition rx_of {A} (v : A) : Observable A := fun t => [(t, Next v)].

Definition rx_filter {A} (p : A -> bool) (o : Observable A) : Observable A :=
  fun t =>
    filter (fun n => match snd n with
                     | Next a => p a
                     | Error_ _ => true
                     end) (o t).

(** [map(project)]: an exception of [project] becomes the error notification
    of the stream. *)
Definition rx_map {A B} (project : A -> Result B) (o : Observable A) : Observable B :=
  fun t =>
    until_error
      (map (fun n => (fst n,
                      match snd n with
                      | Next a =>
                          match project a with
                          | Ok b => Next b
                          | Throw e => Error_ e
                          end
                      | Error_ e => Error_ e
                      end)) (o t)).

(** [switchMap(project)] on the stream of the outer observable: each outer
    value subscribes to its inner observable at that instant, and the inner
    subscription ends at the next outer notification. *)
Fixpoint switch_streams {A B} (project : A -> Observable B) (outer : Stream A) :
    Stream B :=
  match outer with
  | [] => []
  | (t, Error_ e) :: _ => [(t, Error_ e)]
  | (t, Next a) :: rest =>
      match rest with
      | [] => project a t
      | (t', _) :: _ =>
          filter (fun n => (fst n <? t')%nat) (project a t)
          ++ switch_streams project rest
      end
  end.

Definition switchMap {A B} (project : A -> Observable B) (o : Observable A) :
    Observable B :=
  fun t => until_error (switch_streams project (o t)).

(** [shareReplay(1)] and [memoize] share one computation between callers and
    replay its last value; a subscriber receives what it would receive from
    the source. *)
Definition shareReplay {A} (o : Observable A) : Observable A := o.
Definition memoize {A} (f : A) : A := f.

Inductive Promise (A : Type) :=
| Pending
| Fulfilled (a : A)
| Rejected (e : Error).
Arguments Pending {A}.
Arguments Fulfilled {A} a.
Arguments Rejected {A} e.

(** [firstValueFrom(o)], called at instant [t]: settled by the first
    notification, pending when there is none. *)
Definition firstValueFrom {A} (o : Observable A) (t : nat) : Promise A :=
  match o t with
  | [] => Pending
  | (_, Next a) :: _ => Fulfilled a
  | (_, Error_ e) :: _ => Rejected e
  end.

(** ** The Wallet *)

Definition TokenRecord := JSObject Token.

Record WalletConsts := mkConsts {
  runtimeChain : JSString;
  nativeCurrency : JSString
}.

(** [enum PriceProviderType { 'MARKET', 'ORACLE' }]: MARKET is 0. *)
Inductive PriceProviderType := MARKET | ORACLE.

(** [interface PriceProvider]; the Wallet only subscribes. *)
Record PriceProvider := mkProvider {
  subscribe : JSString -> Observable FixedPointNumber
}.

(** [const enum ChainType]. *)
Inductive ChainType := SETHEUM.

(** Chain storage records: [AccountInfo] of the system pallet and
    [OrmlAccountData] of the tokens pallet, balances as integers. *)
Record AccountData := mkAccountData {
  ad_free : Z;
  ad_reserved : Z;
  ad_miscFrozen : Z;
  ad_feeFrozen : Z
}.

Record AccountInfo := mkAccountInfo {
  ai_providers : Z;
  ai_consumers : Z;
  ai_data : AccountData
}.

Record OrmlAccountData := mkOrml {
  orml_free : Z;
  orml_reserved : Z;
  orml_frozen : Z
}.

Record BalanceData := mkBalance {
  available : FixedPointNumber;
  token : Token;
  free : FixedPointNumber;
  locked : FixedPointNumber;
  reserved : FixedPointNumber
}.

(** [PresetTokens]: each field holds what the property access on the token
    list gave. *)
Record PresetTokens := mkPreset {
  nativeToken : PropertyValue Token;
  stableToken : PropertyValue Token
}.

(** [api.consts.serpTreasury], each constant present or not. *)
Record SerpTreasuryConsts := mkSerpTreasury {
  getSerpCurrencyId : option CurrencyId;
  getDinarCurrencyId : option CurrencyId;
  getHelpCurrencyId : option CurrencyId;
  setterCurrencyId : option CurrencyId;
  getSetUSDId : option CurrencyId
}.

Record ApiConsts := mkApiConsts {
  serpTreasury : option SerpTreasuryConsts
}.

(** What is imported from files that are not among the sources: the storage
    observables, [getChainType], [subscribeDexShareTokenPrice] and the pool
    detail of [Liquidity]. *)
Record Collaborators (PoolDetail : Type) := mkCollaborators {
  nativeBalance : JSString -> Observable AccountInfo;
  nonNativeBalance : Token -> JSString -> Observable OrmlAccountData;
  getChainType : JSString -> option ChainType;
  subscribeDexShareTokenPrice :
    Observable FixedPointNumber -> Observable FixedPointNumber ->
    Observable PoolDetail -> Observable FixedPointNumber;
  subscribePoolDetail : JSString -> Observable PoolDetail
}.
Arguments nativeBalance {PoolDetail} c.
Arguments nonNativeBalance {PoolDetail} c.
Arguments getChainType {PoolDetail} c.
Arguments subscribeDexShareTokenPrice {PoolDetail} c.
Arguments subscribePoolDetail {PoolDetail} c.

(** The fields of [class Wallet]. *)
Record Wallet := mkWallet {
  api_consts : option ApiConsts;
  priceProviders : PriceProviderType -> option PriceProvider;
  tokens_ : BehaviorSubject TokenRecord;
  tokenPriceFetchSource : option (ChainType -> option (JSString -> option PriceProviderType));
  isReady_ : BehaviorSubject bool;
  consts : WalletConsts
}.

Definition Object_entries {V} (o : JSObject V) : list (JSString * V) :=
  flat_map (fun k => match Object_get o k with
                     | Some v => [(k, v)]
                     | None => []
                     end) (Object_keys o).

Definition Object_values {V} (o : JSObject V) : list V :=
  map snd (Object_entries o).

(** The projection inside [subscribeTokens]: [!type] holds for [undefined]
    and for BASIC. *)
Definition filter_tokens (type_ : option TokenType) (data : TokenRecord) : TokenRecord :=
  match type_ with
  | None | Some BASIC => data
  | Some ty =>
      Object_fromEntries
        (filter (fun e => TokenType_eqb (type (snd e)) ty) (Object_entries data))
  end.

Definition Wallet_subscribeTokens (w : Wallet) (type_ : option TokenType) :
    Observable TokenRecord :=
  memoize
    (switchMap
       (fun _ =>
          shareReplay
            (rx_map (fun data => Ok (filter_tokens type_ data))
               (asObservable (tokens_ w))))
       (rx_filter (fun i => i) (asObservable (isReady_ w)))).

Definition Wallet_getTokens (w : Wallet) (type_ : option TokenType) (now : nat) :
    Promise TokenRecord :=
  firstValueFrom (Wallet_subscribeTokens w type_) now.

Definition Wallet_subscribeToken (w : Wallet) (target : MaybeCurrency) :
    Result (Observable Token) :=
  memoize
    (name_ <- forceToCurrencyName target ;;
     Ok (rx_map
           (fun all =>
              match find (fun item => string_eqb (name item) name_) (Object_values all) with
              | Some result => Ok result
              | None => Throw (CurrencyNotFound name_)
              end)
           (Wallet_subscribeTokens w None))).

Definition handleNative (data : AccountInfo) (token : Token) : BalanceData :=
  let free := FN_fromInner (ad_free (ai_data data)) (decimals token) in
  let locked :=
    FN_max (FN_fromInner (ad_miscFrozen (ai_data data)) (decimals token))
      (FN_fromInner (ad_feeFrozen (ai_data data)) (decimals token)) in
  let reserved := FN_fromInner (ad_reserved (ai_data data)) (decimals token) in
  let available := FN_max (FN_sub free locked) FN_ZERO in
  mkBalance available token free locked reserved.

Definition handleNonNative (data : OrmlAccountData) (token : Token) : BalanceData :=
  let free := FN_fromInner (orml_free data) (decimals token) in
  let locked := FN_fromInner (orml_frozen data) (decimals token) in
  let reserved := FN_fromInner (orml_reserved data) (decimals token) in
  let available := FN_max (FN_sub free locked) FN_ZERO in
  mkBalance available token free locked reserved.

Definition Wallet_subscribeBalance {PoolDetail} (ext : Collaborators PoolDetail)
    (w : Wallet) (token : MaybeCurrency) (address : JSString) :
    Result (Observable BalanceData) :=
  memoize
    (token_ <- Wallet_subscribeToken w token ;;
     Ok (switchMap
           (fun token =>
              let isNativeToken := string_eqb (nativeCurrency (consts w)) (name token) in
              if isNativeToken then
                rx_map (fun data => Ok (handleNative data token))
                  (nativeBalance ext address)
              else
                rx_map (fun data => Ok (handleNonNative data token))
                  (nonNativeBalance ext token address))
           token_)).

(** [tokens[forceToCurrencyName(id)]]: a property access on the token list,
    a plain object (the first value of [tokens$] is an object literal). *)
Definition preset_lookup (tokens : TokenRecord) (target : MaybeCurrency) :
    Result (PropertyValue Token) :=
  n <- forceToCurrencyName target ;; Ok (Object_lookup tokens n).

(** One of the five [if (this.api.consts?.serpTreasury.X) data.stableToken = ...]
    statements: nothing when [api.consts] is undefined, TypeError when
    [serpTreasury] is. *)
Definition preset_step (w : Wallet) (tokens : TokenRecord)
    (field : SerpTreasuryConsts -> option CurrencyId) (data : PresetTokens) :
    Result PresetTokens :=
  match api_consts w with
  | None => Ok data
  | Some c =>
      match serpTreasury c with
      | None => Throw TypeError
      | Some st =>
          match field st with
          | None => Ok data
          | Some id =>
              tk <- preset_lookup tokens (MC_CurrencyId id) ;;
              Ok (mkPreset (nativeToken data) tk)
          end
      end
  end.

Definition Wallet_getPresetTokens (w : Wallet) (now : nat) : Result PresetTokens :=
  if Bool.eqb (Subject_value (isReady_ w) now) false then
    Throw (SDKNotReady (str "wallet"))
  else
    let tokens := Subject_value (tokens_ w) now in
    native <- preset_lookup tokens (MC_string (nativeCurrency (consts w))) ;;
    let data := mkPreset native Undefined in
    data <- preset_step w tokens getSerpCurrencyId data ;;
    data <- preset_step w tokens getDinarCurrencyId data ;;
    data <- preset_step w tokens getHelpCurrencyId data ;;
    data <- preset_step w tokens setterCurrencyId data ;;
    data <- preset_step w tokens getSetUSDId data ;;
    Ok data.

(** [a || b] on provider types: MARKET (0) is falsy. *)
Definition or_provider (a : option PriceProviderType) (b : PriceProviderType) :
    PriceProviderType :=
  match a with
  | Some ORACLE => ORACLE
  | _ => b
  end.

(** The constant [_type] of [subscribePrice]. *)
Definition resolved_price_type {PoolDetail} (ext : Collaborators PoolDetail)
    (w : Wallet) (name_ : JSString) (type_ : option PriceProviderType) :
    PriceProviderType :=
  or_provider type_
    (or_provider
       (match tokenPriceFetchSource w, getChainType ext (runtimeChain (consts w)) with
        | Some src, Some ct =>
            match src ct with
            | Some per_name => per_name name_
            | None => None
            end
        | _, _ => None
        end)
       MARKET).

(** [subscribePrice]; [fuel] counts the nested calls left for the legs of a
    dex-share name. *)
Fixpoint subscribePrice_rec {PoolDetail} (fuel : nat) (ext : Collaborators PoolDetail)
    (w : Wallet) (token : MaybeCurrency) (type_ : option PriceProviderType) :
    Result (Observable FixedPointNumber) :=
  name_ <- forceToCurrencyName token ;;
  let isDexShare := isDexShareName name_ in
  let _type := resolved_price_type ext w name_ type_ in
  let priceProvider :=
    match _type with
    | MARKET => priceProviders w MARKET
    | ORACLE => priceProviders w ORACLE
    end in
  match priceProvider with
  | None => Ok (rx_of FN_ZERO)
  | Some provider =>
      if isDexShare then
        match fuel with
        | O => Throw TypeError
        | S fuel' =>
            legs <- unzipDexShareName name_ ;;
            price0 <- subscribePrice_rec fuel' ext w (MC_string (fst legs)) None ;;
            price1 <- subscribePrice_rec fuel' ext w (MC_string (snd legs)) None ;;
            Ok (subscribeDexShareTokenPrice ext price0 price1
                  (subscribePoolDetail ext name_))
        end
      else
        token_ <- Wallet_subscribeToken w token ;;
        Ok (switchMap (fun token => subscribe provider (name token)) token_)
  end.

Definition name_length (token : MaybeCurrency) : nat :=
  match forceToCurrencyName token with
  | Ok n => List.length n
  | Throw _ => O
  end.

Definition Wallet_subscribePrice {PoolDetail} (ext : Collaborators PoolDetail)
    (w : Wallet) (token : MaybeCurrency) (type_ : option PriceProviderType) :
    Result (Observable FixedPointNumber) :=
  memoize (subscribePrice_rec (S (name_length token)) ext w token type_).

(** ** The canonical ordering *)

(** Modelled from the spec: the comparison function [sortTokenByName] of
    sort-token.ts, which is not among the sources, is a parameter of the
    sorting functions above.  The spec asks for a total order over name
    strings, two names being comparable whatever their kind; [a] comes
    before or with [b] when the number returned is not positive. *)
Record total_order (sortTokenByName : Comparator) : Prop := mkTotalOrder {
  order_total : forall a b, sortTokenByName a b <= 0 \/ sortTokenByName b a <= 0;
  order_antisym : forall a b,
    sortTokenByName a b <= 0 -> sortTokenByName b a <= 0 -> a = b;
  order_trans : forall a b c,
    sortTokenByName a b <= 0 -> sortTokenByName b c <= 0 -> sortTokenByName a c <= 0
}.

(** The collation the spec gives as an example: code unit by code unit. *)
Fixpoint compare_code_units (a b : JSString) : Z :=
  match a, b with
  | [], [] => 0
  | [], _ :: _ => -1
  | _ :: _, [] => 1
  | x :: a', y :: b' =>
      if x <? y then -1 else if y <? x then 1 else compare_code_units a' b'
  end.

(** The same collation, descending. *)
Definition compare_descending (a b : JSString) : Z := compare_code_units b a.

(** A name of the data model: a well-formed string, the strings on which
    [encodeURIComponent] is defined. *)
Definition valid_name (n : JSString) : Prop := isWellFormed n = true.

(** The shape [lp://A/B] with no slash in [A] and none in [B]. *)
Definition no_slash (s : JSString) : Prop := ~ In (char "/") s.

Definition dex_share_shape (s : JSString) : Prop :=
  exists A B, no_slash A /\ no_slash B /\ s = str "lp://" ++ A ++ str "/" ++ B.

(** A number that is [undefined] or 0 is falsy. *)
Definition falsy_number (a : option N) : Prop := a = None \/ a = Some 0%N.


(** The entries [[item.name, item]] that [Token.sort] hands to
    [Object.fromEntries]. *)
Definition name_entries (tokens : list Token) : JSObject Token :=
  map (fun item => (name item, item)) tokens.

(** ** What a pattern can match *)

(** [lang input r i j]: the units of [input] from [i] to [j] are in the
    language of [r], a quantifier being read as any number of repetitions
    (the bounds and the captures are left out).  Every successful run of
    [matcher] stays inside this relation. *)
Inductive lang (input : JSString) : Pattern -> nat -> nat -> Prop :=
| lang_Empty i : lang input Empty i i
| lang_Char c i : nth_error input i = Some c -> lang input (Char c) i (S i)
| lang_NotChars cs u i :
    nth_error input i = Some u -> existsb (Z.eqb u) cs = false ->
    lang input (NotChars cs) i (S i)
| lang_Seq r1 r2 i j k :
    lang input r1 i j -> lang input r2 j k -> lang input (Seq r1 r2) i k
| lang_Repeat_done min max r i : lang input (Repeat min max r) i i
| lang_Repeat_more min max min' max' r i j k :
    lang input r i j -> lang input (Repeat min' max' r) j k ->
    lang input (Repeat min max r) i k
| lang_Group g r i j : lang input r i j -> lang input (Group g r) i j
| lang_AssertStart : lang input AssertStart O O
| lang_AssertEnd : lang input AssertEnd (List.length input) (List.length input).

(** The longest prefix of units other than [c], and what follows it. *)
Fixpoint span_not (c : Z) (s : JSString) : JSString * JSString :=
  match s with
  | [] => ([], [])
  | u :: s' =>
      if u =? c then ([], s)
      else let (a, b) := span_not c s' in (u :: a, b)
  end.

(** A decision procedure for [dex_share_shape]: the two legs when the string
    has the shape. *)
Definition split_dex_share (s : JSString) : option (JSString * JSString) :=
  if startsWith s (str "lp://") then
    let (A, rest) := span_not (char "/") (skipn 5 s) in
    match rest with
    | u :: B =>
        if existsb (Z.eqb (char "/")) B then None else Some (A, B)
    | [] => None
    end
  else None.

(** The units of [input] from [i] to [j] exist and none of them is [c]. *)
Definition free_of (c : Z) (input : JSString) (i j : nat) : Prop :=
  (i <= j)%nat /\
  forall k, (i <= k < j)%nat -> exists u, nth_error input k = Some u /\ u <> c.

(** Group 1 of the dex-share pattern after a match whose first leg is [A]:
    the group does not take part in the match when the leg is empty. *)
Definition group_entry (A : JSString) : option JSString :=
  match A with
  | [] => None
  | _ :: _ => Some A
  end.

(** A Unicode scalar value: a code point that is not a surrogate. *)
Definition is_scalar (cp : Z) : Prop :=
  0 <= cp < 0x110000 /\ is_surrogate cp = false.

Definition is_octet (b : Z) : Prop := 0 <= b < 256.

(** ** Sample values *)

(** A wallet whose token list holds SETM (the native currency, 12 decimals)
    and SERP, ready from the start, and with no price provider configured. *)
Definition sample_tokens : TokenRecord :=
  [(str "SETM",
    Token_new (str "SETM")
      (Some (mkConfigs None (Some 12%N) None None None None None None)));
   (str "SERP", Token_new (str "SERP") None)].

Definition sample_wallet : Wallet :=
  mkWallet None (fun _ => None) (mkSubject sample_tokens []) None
    (mkSubject true []) (mkConsts (str "Setheum") (str "SETM")).

(** A wallet just constructed: not ready, no chain data has arrived. *)
Definition fresh_wallet : Wallet :=
  mkWallet None (fun _ => None) (mkSubject [] []) None
    (mkSubject false []) (mkConsts (str "Setheum") (str "SETM")).

(** The same wallet when the first chain data arrives: [initTokens] hands the
    token list to [tokens$] (instant 3) and then [true] to [isReady$]
    (instant 4). *)
Definition started_wallet : Wallet :=
  mkWallet None (fun _ => None) (mkSubject [] [(3%nat, sample_tokens)]) None
    (mkSubject false [(4%nat, true)]) (mkConsts (str "Setheum") (str "SETM")).

(** Storage in which the account has 5 units free, 7 frozen for
    miscellaneous reasons and 3 for fees. *)
Definition sample_collaborators : Collaborators unit :=
  mkCollaborators unit
    (fun _ => rx_of (mkAccountInfo 1 0 (mkAccountData 5 0 7 3)))
    (fun _ _ => rx_of (mkOrml 9 0 2))
    (fun _ => Some SETHEUM)
    (fun _ _ _ => rx_of FN_ZERO)
    (fun _ => rx_of tt).

(** A stream without an error notification. *)
Definition no_error {A} (s : Stream A) : Prop :=
  forall t e, ~ In (t, Error_ e) s.

(** Two continuations that agree on the states from index [e] on. *)
Definition agree_from (input : JSString) (e : nat) (c1 c2 : MatcherContinuation) : Prop :=
  forall y, (e <= endIndex y <= List.length input)%nat -> c1 y = c2 y.

(* ================================================================== *)
(** * Part I, continued: the rest of converter.ts, of class Token and of
      the Wallet *)
(* ================================================================== *)

(** ** String.prototype.search *)

(** [RegExp.prototype[@@search]]: the match is tried at index 0, then 1, and
    so on up to the length of the string; the result is the index of the
    first match. *)
Fixpoint search_from (input : JSString) (r : Pattern) (ncap fuel lastIndex : nat) :
    option nat :=
  match matcher input r (mkState lastIndex (repeat None ncap)) Some with
  | Some _ => Some lastIndex
  | None =>
      match fuel with
      | O => None
      | S fuel' => search_from input r ncap fuel' (S lastIndex)
      end
  end.

(** [s.search(r)]: the index of the first match, or -1. *)
Definition String_search (s : JSString) (r : Pattern) (ncap : nat) : Z :=
  match search_from s r ncap (List.length s) 0 with
  | Some index => Z.of_nat index
  | None => -1
  end.

(** ** converter.ts, the remaining functions *)

(** [name.search('//') < 0]: the string argument is compiled as a pattern,
    here the two pattern characters slash, slash. *)
Definition isBasicToken (name : JSString) : bool :=
  String_search name (literal (str "//")) 0 <? 0.

Definition getCurrencyTypeByName (name : JSString) : TokenType :=
  if isDexShareName name then DEX_SHARE
  else if isDexShareName name then DEX_SHARE
  else BASIC.

(** [forceToDexShareCurrencyId]: the target is a pair of names or a
    CurrencyId; the pair is encoded outside any [try]. *)
Definition forceToDexShareCurrencyId (g : GlobalScope) (api : AnyApi)
    (target : (JSString * JSString) + CurrencyId) : Result CurrencyId :=
  name <- match target with
          | inl (n0, n1) => createDexShareName n0 n1
          | inr c => forceToCurrencyName (MC_CurrencyId c)
          end ;;
  forceToCurrencyId g api (MC_string name).

(** ** token.ts, the remaining members *)

Definition Token_isTokenSymbol (t : Token) : bool := TokenType_eqb (type t) BASIC.
Definition Token_isDexShare (t : Token) : bool := TokenType_eqb (type t) DEX_SHARE.
Definition Token_isERC20 (t : Token) : bool := TokenType_eqb (type t) ERC20.

(** The object literal that spreads [configs] and then sets [type]; the
    spread of [undefined] adds nothing. *)
Definition spread_with_type (configs : option Configs) (type : TokenType) : Configs :=
  match configs with
  | Some c =>
      mkConfigs (cfg_display c) (cfg_decimals c) (cfg_decimal c) (Some type)
        (cfg_chain c) (cfg_symbol c) (cfg_detail c) (cfg_ed c)
  | None => mkConfigs None None None (Some type) None None None None
  end.

Definition Token_fromCurrencyName (name : JSString) (configs : option Configs) : Token :=
  let type := getCurrencyTypeByName name in
  Token_new name (Some (spread_with_type configs type)).

Definition Token_fromCurrencyId (currency : CurrencyId) (configs : option Configs) :
    Result Token :=
  n <- forceToCurrencyName (MC_CurrencyId currency) ;;
  Ok (Token_fromCurrencyName n configs).

(** The argument [decimals] of [fromCurrencies]: a number or an array of two
    numbers. *)
Inductive DecimalsArg :=
| Decimals_number (d : N)
| Decimals_pair (d0 d1 : N).

(** [Array.isArray(decimals) ? decimals[i] : decimals]. *)
Definition decimals_at (decimals : option DecimalsArg) (i : bool) : option N :=
  match decimals with
  | Some (Decimals_pair d0 d1) => Some (if i then d1 else d0)
  | Some (Decimals_number d) => Some d
  | None => None
  end.

Definition decimals_config (d : option N) : option Configs :=
  Some (mkConfigs None d None None None None None None).

Definition Token_fromCurrencies (sortTokenByName : Comparator)
    (currency1 currency2 : CurrencyId) (decimals : option DecimalsArg) : Result Token :=
  let decimals1 := decimals_at decimals false in
  let decimals2 := decimals_at decimals true in
  token1 <- Token_fromCurrencyId currency1 (decimals_config decimals1) ;;
  token2 <- Token_fromCurrencyId currency2 (decimals_config decimals2) ;;
  Token_fromTokens sortTokenByName token1 token2.

Definition Token_toChainData (t : Token) : Result CurrencyObject :=
  getCurrencyObject (name t).

(** The spread of a Token: its own properties, the ones the constructor
    assigns ([chain] may hold [undefined]; [pair] is never assigned and
    [detail] is no field of a Token). *)
Definition Token_spread (t : Token) : Configs :=
  mkConfigs (Some (display t)) (Some (decimals t)) (Some (decimal t)) (Some (type t))
    (chain t) (Some (symbol t)) None (Some (ed t)).

Definition Token_clone (t : Token) : Token :=
  Token_new (name t) (Some (Token_spread t)).

(** What a method of Token raises: an exception of the converter or of the
    api, or a plain [new Error(message)], which is also what [assert] of
    @polkadot/util raises with its message when the condition is false. *)
Inductive Thrown :=
| Raised (e : Error)
| PlainError (message : JSString).

Inductive Outcome (A : Type) :=
| Returns (a : A)
| Throws (t : Thrown).
Arguments Returns {A} a.
Arguments Throws {A} t.

(** The value handed to [api.createType]: a currency object, an array of
    them, or a string. *)
Inductive CreateArg :=
| Arg_object (o : CurrencyObject)
| Arg_array (l : list CurrencyObject)
| Arg_string (s : JSString).

(** [api.createType(typeName, value)], as the methods of Token call it. *)
Record TypeRegistry (Codec : Type) := mkRegistry {
  createType : JSString -> CreateArg -> Result Codec
}.
Arguments createType {Codec} t.

(** The [catch] blocks of the four conversions: the template literal calls
    [this.toChainData()] again, so an exception of that call leaves the
    block in place of the new Error; a currency object in a template reads
    [object Object]. *)
Definition cannot_convert (t : Token) (what : JSString) : Thrown :=
  match Token_toChainData t with
  | Ok _ => PlainError (str "can't convert [object Object] to " ++ what)
  | Throw e => Raised e
  end.

Definition Token_toCurrencyId {Codec} (api : TypeRegistry Codec) (t : Token) :
    Outcome Codec :=
  match (data <- Token_toChainData t ;;
         createType api (str "SetheumPrimitivesCurrencyCombinedCurrencyId")
           (Arg_object data)) with
  | Ok c => Returns c
  | Throw _ => Throws (cannot_convert t (str "Currency Id"))
  end.

(** [toTradingPair]: the [assert] stands before the [try]. *)
Definition Token_toTradingPair {Codec} (api : TypeRegistry Codec) (t : Token) :
    Outcome Codec :=
  if negb (Token_isDexShare t) then
    Throws (PlainError (str "the currency is not a dex share"))
  else
    match (legs <- unzipDexShareName (name t) ;;
           objects <- mapM getCurrencyObject [fst legs; snd legs] ;;
           createType api (str "SetheumPrimitivesTradingPair") (Arg_array objects)) with
    | Ok c => Returns c
    | Throw _ => Throws (cannot_convert t (str "Trading Pair"))
    end.

(** [toDexShare] and [toTokenSymbol]: the [assert] stands inside the [try],
    its Error is caught like any other. *)
Definition Token_toDexShare {Codec} (api : TypeRegistry Codec) (t : Token) :
    Outcome Codec :=
  match (if negb (Token_isDexShare t) then None
         else
           match (data <- Token_toChainData t ;;
                  createType api (str "DexShare") (Arg_object data)) with
           | Ok c => Some c
           | Throw _ => None
           end) with
  | Some c => Returns c
  | None => Throws (cannot_convert t (str "DexShare"))
  end.

Definition Token_toTokenSymbol {Codec} (api : TypeRegistry Codec) (t : Token) :
    Outcome Codec :=
  match (if negb (Token_isTokenSymbol t) then None
         else
           match createType api (str "TokenSymbol") (Arg_string (name t)) with
           | Ok c => Some c
           | Throw _ => None
           end) with
  | Some c => Returns c
  | None => Throws (cannot_convert t (str "Token Symbol"))
  end.

(** ** The Wallet, the remaining members *)

(** [get isReady()]. *)
Definition Wallet_isReady (w : Wallet) (now : nat) : Promise bool :=
  firstValueFrom (rx_filter (fun i => i) (asObservable (isReady_ w))) now.

(** An [async] method: an exception of its body rejects the promise that the
    method returns. *)
Definition async {A} (body : Result (Promise A)) : Promise A :=
  match body with
  | Ok p => p
  | Throw e => Rejected e
  end.

Definition Wallet_getToken (w : Wallet) (target : MaybeCurrency) (now : nat) :
    Promise Token :=
  async (token_ <- Wallet_subscribeToken w target ;; Ok (firstValueFrom token_ now)).

Definition Wallet_getBalance {PoolDetail} (ext : Collaborators PoolDetail)
    (w : Wallet) (token : MaybeCurrency) (address : JSString) (now : nat) :
    Promise BalanceData :=
  async (balance_ <- Wallet_subscribeBalance ext w token address ;;
         Ok (firstValueFrom balance_ now)).

(** [getPrice] is not declared [async]: an exception of [subscribePrice]
    leaves the call. *)
Definition Wallet_getPrice {PoolDetail} (ext : Collaborators PoolDetail)
    (w : Wallet) (token : MaybeCurrency) (type_ : option PriceProviderType)
    (now : nat) : Result (Promise FixedPointNumber) :=
  price_ <- Wallet_subscribePrice ext w token type_ ;;
  Ok (firstValueFrom price_ now).

(** [subscribeIssuance]; [issuance] is the storage observable of the total
    issuance of a token, from a file that is not among the sources. *)
Definition Wallet_subscribeIssuance (issuance : Token -> Observable Z) (w : Wallet)
    (token : MaybeCurrency) : Result (Observable FixedPointNumber) :=
  memoize
    (token_ <- Wallet_subscribeToken w token ;;
     Ok (switchMap
           (fun token =>
              let handleIssuance := fun (data : Z) (token : Token) =>
                FN_fromInner data (decimals token) in
              rx_map (fun data => Ok (handleIssuance data token)) (issuance token))
           token_)).

Definition Wallet_getIssuance (issuance : Token -> Observable Z) (w : Wallet)
    (token : MaybeCurrency) (now : nat) : Promise FixedPointNumber :=
  async (issuance_ <- Wallet_subscribeIssuance issuance w token ;;
         Ok (firstValueFrom issuance_ now)).

(** ** Notions used by the properties *)

(** [s] has the two units slash, slash somewhere. *)
Definition has_double_slash (s : JSString) : Prop :=
  exists pre post, s = pre ++ str "//" ++ post.

(** A CurrencyId made of token symbols and dex shares, every symbol a
    well-formed, non-empty string that does not start with [lp://]. *)
Inductive plain_currency : CurrencyId -> Prop :=
| plain_Token tokenSymbol :
    valid_name tokenSymbol -> tokenSymbol <> [] ->
    isDexShareName tokenSymbol = false ->
    plain_currency (CurrencyId_Token tokenSymbol)
| plain_DexShare c0 c1 :
    plain_currency c0 -> plain_currency c1 ->
    plain_currency (CurrencyId_DexShare c0 c1).

(** The currency object with the structure of a CurrencyId. *)
Fixpoint object_of (c : CurrencyId) : CurrencyObject :=
  match c with
  | CurrencyId_Token s => CO_Token s
  | CurrencyId_DexShare c0 c1 => CO_DexShare (object_of c0) (object_of c1)
  | CurrencyId_Erc20 address => CO_Token address
  | CurrencyId_Other s => CO_Token s
  end.

(** The CurrencyId with the structure of a currency object: what
    [createType] of the chain does with a well-typed object. *)
Fixpoint currency_of (o : CurrencyObject) : CurrencyId :=
  match o with
  | CO_Token s => CurrencyId_Token s
  | CO_DexShare a b => CurrencyId_DexShare (currency_of a) (currency_of b)
  end.

(** The token given last among those of name [n]. *)
Definition last_named (tokens : list Token) (n : JSString) : option Token :=
  find (fun t => string_eqb (name t) n) (rev tokens).

(** The constant of [serpTreasury] that decides [stableToken]: each of the
    five statements of [getPresetTokens] overwrites the field, so the last
    constant that is present counts. *)
Definition last_stable_constant (st : SerpTreasuryConsts) : option CurrencyId :=
  match getSetUSDId st, setterCurrencyId st, getHelpCurrencyId st,
        getDinarCurrencyId st, getSerpCurrencyId st with
  | Some id, _, _, _, _ => Some id
  | None, Some id, _, _, _ => Some id
  | None, None, Some id, _, _ => Some id
  | None, None, None, Some id, _ => Some id
  | None, None, None, None, id => id
  end.

(** A string of ASCII units. *)
Definition all_ascii (s : JSString) : Prop := Forall (fun c => 0 <= c < 128) s.
(* ================================================================== *)
(** * Part II: properties *)
(* ================================================================== *)

(** ** Strings *)

Lemma string_eqb_eq (a b : JSString) : string_eqb a b = true <-> a = b.
Proof.
  revert b; induction a as [|x a IH]; intros [|y b]; simpl; split; intro H;
    try reflexivity; try discriminate.
  - apply andb_true_iff in H as [Hxy Hab].
    apply Z.eqb_eq in Hxy. apply IH in Hab. congruence.
  - injection H as -> ->. rewrite Z.eqb_refl. simpl. apply IH. reflexivity.
Qed.

Lemma string_eqb_refl (a : JSString) : string_eqb a a = true.
Proof. apply string_eqb_eq. reflexivity. Qed.

Lemma string_eqb_neq (a b : JSString) : a <> b -> string_eqb a b = false.
Proof.
  intro H. destruct (string_eqb a b) eqn:E; [|reflexivity].
  apply string_eqb_eq in E. contradiction.
Qed.

(** ** The Token constructor *)

Lemma or_number_nonzero (a : option N) (b : N) : b <> 0%N -> or_number a b <> 0%N.
Proof.
  intro Hb. destruct a as [n|]; simpl; [|exact Hb].
  destruct (N.eqb_spec n 0); assumption.
Qed.

Lemma Token_new_decimals_nonzero (n : JSString) (configs : option Configs) :
  decimals (Token_new n configs) <> 0%N.
Proof.
  unfold Token_new; simpl. apply or_number_nonzero, or_number_nonzero. discriminate.
Qed.

Lemma or_number_self (d b : N) : d <> 0%N -> or_number (Some d) b = d.
Proof. intro H. simpl. destruct (N.eqb_spec d 0); [contradiction|reflexivity]. Qed.

(** C9.  [new Token(name, configs)] takes 18 decimals whenever
    [configs.decimals] and [configs.decimal] are both falsy (undefined or 0):
    the default is chosen by [||], so that a token constructed with
    [decimals: 0] has 18 decimals and not 0. *)
Theorem Token_constructor_decimals_default (n : JSString) (configs : option Configs) :
  falsy_number (optional configs cfg_decimals) ->
  falsy_number (optional configs cfg_decimal) ->
  decimals (Token_new n configs) = 18%N /\ decimal (Token_new n configs) = 18%N.
Proof.
  intros [H1|H1] [H2|H2]; unfold Token_new; simpl; rewrite H1, H2; split; reflexivity.
Qed.

Lemma Token_constructor_decimals_zero :
  let configs := Some (mkConfigs None (Some 0%N) None None None None None None) in
  falsy_number (optional configs cfg_decimals) /\
  falsy_number (optional configs cfg_decimal) /\
  decimals (Token_new (str "SETM") configs) = 18%N /\
  decimal (Token_new (str "SETM") configs) = 18%N.
Proof.
  split; [right; reflexivity|].
  split; [left; reflexivity|].
  apply Token_constructor_decimals_default; [right|left]; reflexivity.
Defined.

(** ** Insertion sort *)

Section Sorting.
Context {A : Type} (le : A -> A -> bool).

Let sort := fold_right (insert_by le) [].
Let R := fun a b => le a b = true.

Lemma insert_by_perm (x : A) (l : list A) : Permutation (insert_by le x l) (x :: l).
Proof.
  induction l as [|y l IH]; simpl; [reflexivity|].
  destruct (le x y); [reflexivity|].
  rewrite IH. apply perm_swap.
Qed.

Lemma sort_perm (l : list A) : Permutation (sort l) l.
Proof.
  induction l as [|x l IH]; simpl; [reflexivity|].
  rewrite insert_by_perm. auto.
Qed.

Lemma sort_of_sorted (l : list A) : StronglySorted R l -> sort l = l.
Proof.
  induction 1 as [|x l Hs IH Hall]; simpl; [reflexivity|].
  subst sort; simpl in *. rewrite IH.
  destruct l as [|y l]; simpl; [reflexivity|].
  inversion Hall as [|? ? Hxy _]; subst. unfold R in Hxy. rewrite Hxy. reflexivity.
Qed.

Hypothesis le_total : forall a b, le a b = true \/ le b a = true.
Hypothesis le_trans : forall a b c, le a b = true -> le b c = true -> le a c = true.

Lemma insert_by_sorted (x : A) (l : list A) :
  StronglySorted R l -> StronglySorted R (insert_by le x l).
Proof.
  induction 1 as [|y l Hs IH Hall]; simpl.
  - constructor; constructor.
  - destruct (le x y) eqn:E.
    + constructor; [constructor; assumption|].
      constructor; [exact E|].
      eapply Forall_impl; [|exact Hall]. intros a Ha. eapply le_trans; eauto.
    + constructor; [exact IH|].
      eapply Permutation_Forall; [symmetry; apply insert_by_perm|].
      constructor; [|exact Hall].
      destruct (le_total x y) as [H|H]; [congruence|exact H].
Qed.

Lemma sort_sorted (l : list A) : StronglySorted R (sort l).
Proof.
  induction l as [|x l IH]; simpl; [constructor|].
  apply insert_by_sorted, IH.
Qed.

Lemma sort_idempotent (l : list A) : sort (sort l) = sort l.
Proof. apply sort_of_sorted, sort_sorted. Qed.

Hypothesis le_antisym : forall a b, le a b = true -> le b a = true -> a = b.

Lemma sorted_perm_unique (l1 l2 : list A) :
  StronglySorted R l1 -> StronglySorted R l2 -> Permutation l1 l2 -> l1 = l2.
Proof.
  intros H1; revert l2; induction H1 as [|x l1 Hs1 IH Hall1]; intros l2 H2 HP.
  - apply Permutation_nil in HP. subst. reflexivity.
  - destruct H2 as [|y l2 Hs2 Hall2].
    + symmetry in HP. apply Permutation_nil in HP. discriminate.
    + assert (x = y) as ->.
      { assert (Hx : In x (y :: l2)) by (eapply Permutation_in; [exact HP|left; reflexivity]).
        assert (Hy : In y (x :: l1))
          by (eapply Permutation_in; [symmetry; exact HP|left; reflexivity]).
        destruct Hx as [->|Hx]; [reflexivity|].
        destruct Hy as [->|Hy]; [reflexivity|].
        rewrite Forall_forall in Hall1, Hall2.
        apply le_antisym; [apply Hall1|apply Hall2]; assumption. }
      f_equal. apply IH; [assumption|]. eapply Permutation_cons_inv; exact HP.
Qed.

Lemma sort_perm_eq (l1 l2 : list A) : Permutation l1 l2 -> sort l1 = sort l2.
Proof.
  intro HP. apply sorted_perm_unique; try apply sort_sorted.
  rewrite !sort_perm. exact HP.
Qed.
End Sorting.

(** The order a comparison function induces, for a total order. *)
Section Comparator.
Variable sortTokenByName : Comparator.
Hypothesis Horder : total_order sortTokenByName.

Let le := fun a b => sortTokenByName a b <=? 0.

Lemma cmp_le_total (a b : JSString) : le a b = true \/ le b a = true.
Proof.
  unfold le. destruct (order_total _ Horder a b); [left|right]; apply Z.leb_le; assumption.
Qed.

Lemma cmp_le_trans (a b c : JSString) : le a b = true -> le b c = true -> le a c = true.
Proof.
  unfold le. rewrite !Z.leb_le. apply (order_trans _ Horder).
Qed.

Lemma cmp_le_antisym (a b : JSString) : le a b = true -> le b a = true -> a = b.
Proof.
  unfold le. rewrite !Z.leb_le. apply (order_antisym _ Horder).
Qed.

Lemma Array_sort_perm (l : list JSString) : Permutation (Array_sort sortTokenByName l) l.
Proof. apply sort_perm. Qed.

Lemma Array_sort_idempotent (l : list JSString) :
  Array_sort sortTokenByName (Array_sort sortTokenByName l) = Array_sort sortTokenByName l.
Proof. apply sort_idempotent; [apply cmp_le_total|apply cmp_le_trans]. Qed.

Lemma Array_sort_perm_eq (l1 l2 : list JSString) :
  Permutation l1 l2 -> Array_sort sortTokenByName l1 = Array_sort sortTokenByName l2.
Proof.
  apply sort_perm_eq; [apply cmp_le_total|apply cmp_le_trans|apply cmp_le_antisym].
Qed.

Lemma Array_sort_two (a b : JSString) :
  Array_sort sortTokenByName [a; b]
  = if sortTokenByName a b <=? 0 then [a; b] else [b; a].
Proof. reflexivity. Qed.
End Comparator.

(** ** Objects *)

Lemma Object_set_fresh {V} (k : JSString) (v : V) (o : JSObject V) :
  ~ In k (map fst o) -> Object_set k v o = o ++ [(k, v)].
Proof.
  induction o as [|[k' v'] o IH]; simpl; intro H; [reflexivity|].
  rewrite string_eqb_neq by (intro; subst; apply H; left; reflexivity).
  rewrite IH by (intro; apply H; right; assumption). reflexivity.
Qed.

Lemma Object_fromEntries_app {V} (es o : JSObject V) :
  NoDup (map fst (o ++ es)) ->
  fold_left (fun o e => Object_set (fst e) (snd e) o) es o = o ++ es.
Proof.
  revert o; induction es as [|[k v] es IH]; intros o H; simpl.
  - rewrite app_nil_r. reflexivity.
  - rewrite Object_set_fresh.
    + rewrite IH; rewrite <- app_assoc; simpl; [reflexivity|exact H].
    + rewrite map_app in H. simpl in H. apply NoDup_remove_2 in H.
      intro Hin. apply H. apply in_or_app. left. exact Hin.
Qed.

Lemma Object_fromEntries_NoDup {V} (es : JSObject V) :
  NoDup (map fst es) -> Object_fromEntries es = es.
Proof. intro H. unfold Object_fromEntries. rewrite Object_fromEntries_app; auto. Qed.

Lemma Object_get_In {V} (o : JSObject V) (k : JSString) (v : V) :
  NoDup (map fst o) -> In (k, v) o -> Object_get o k = Some v.
Proof.
  induction o as [|[k' v'] o IH]; simpl; intros Hnd Hin; [contradiction|].
  inversion Hnd as [|? ? Hk' Hnd']; subst.
  destruct Hin as [E|Hin].
  - injection E as -> ->. rewrite string_eqb_refl. reflexivity.
  - rewrite string_eqb_neq; [apply IH; assumption|].
    intros ->. apply Hk'. apply (in_map fst) in Hin. exact Hin.
Qed.

Lemma Object_get_Some {V} (o : JSObject V) (k : JSString) (v : V) :
  Object_get o k = Some v -> In (k, v) o.
Proof.
  induction o as [|[k' v'] o IH]; simpl; [discriminate|].
  destruct (string_eqb k' k) eqn:E.
  - apply string_eqb_eq in E. subst. intros [= ->]. left. reflexivity.
  - intro H. right. apply IH, H.
Qed.

Lemma Object_keys_perm {V} (o : JSObject V) : Permutation (Object_keys o) (map fst o).
Proof.
  unfold Object_keys. generalize (map fst o) as ks. intro ks.
  rewrite (sort_perm (A := Z * JSString)).
  induction ks as [|k ks IH]; simpl; [reflexivity|].
  destruct (array_index k) as [i|]; simpl.
  - constructor. exact IH.
  - rewrite <- Permutation_middle. constructor. exact IH.
Qed.

(** Every key of [Object.keys(o)] is an own property of [o]. *)
Lemma Object_get_keys {V} (o : JSObject V) (k : JSString) :
  In k (Object_keys o) -> exists v, Object_get o k = Some v.
Proof.
  intro H. apply (Permutation_in _ (Object_keys_perm o)) in H.
  induction o as [|[k' v'] o IH]; simpl in *; [contradiction|].
  destruct (string_eqb k' k) eqn:E; [eauto|].
  destruct H as [->|H]; [rewrite string_eqb_refl in E; discriminate|auto].
Qed.

Lemma values_at_keys {V K} (f : V -> K) (g : JSString -> K) (o : JSObject V)
    (ks : list JSString) :
  (forall k v, In (k, v) o -> f v = g k) ->
  (forall k, In k ks -> In k (map fst o)) ->
  map f (values_at o ks) = map g ks.
Proof.
  intros Hf. induction ks as [|k ks IH]; intro Hks; simpl; [reflexivity|].
  destruct (Object_get o k) as [v|] eqn:E.
  - simpl. apply Object_get_Some in E. rewrite (Hf _ _ E).
    rewrite <- IH; [reflexivity|]. intros; apply Hks; right; assumption.
  - exfalso. assert (Hk : In k (map fst o)) by (apply Hks; left; reflexivity).
    clear - Hk E. induction o as [|[k' v'] o IHo]; simpl in *; [contradiction|].
    destruct (string_eqb k' k) eqn:E'; [discriminate|].
    destruct Hk as [->|Hk]; [rewrite string_eqb_refl in E'; discriminate|auto].
Qed.

(** ** The example collation is a total order *)

Lemma compare_code_units_refl (a : JSString) : compare_code_units a a = 0.
Proof. induction a as [|x a IH]; simpl; [reflexivity|]. rewrite Z.ltb_irrefl. exact IH. Qed.

Lemma compare_code_units_range (a b : JSString) :
  compare_code_units a b = -1 \/ compare_code_units a b = 0 \/ compare_code_units a b = 1.
Proof.
  revert b; induction a as [|x a IH]; intros [|y b]; simpl; auto.
  destruct (x <? y); [auto|]. destruct (y <? x); auto.
Qed.

Lemma compare_code_units_swap (a b : JSString) :
  compare_code_units b a = - compare_code_units a b.
Proof.
  revert b; induction a as [|x a IH]; intros [|y b]; simpl; try reflexivity.
  destruct (Z.ltb_spec x y), (Z.ltb_spec y x); try reflexivity; try lia. apply IH.
Qed.

Lemma compare_code_units_eq (a b : JSString) : compare_code_units a b = 0 -> a = b.
Proof.
  revert b; induction a as [|x a IH]; intros [|y b]; simpl; try discriminate; auto.
  destruct (Z.ltb_spec x y); [discriminate|].
  destruct (Z.ltb_spec y x); [discriminate|].
  intro Hc. f_equal; [lia|apply IH, Hc].
Qed.

Lemma compare_code_units_trans (a b c : JSString) :
  compare_code_units a b <= 0 -> compare_code_units b c <= 0 ->
  compare_code_units a c <= 0.
Proof.
  revert b c; induction a as [|x a IH]; intros [|y b] [|z c]; simpl; try lia.
  destruct (Z.ltb_spec x y), (Z.ltb_spec y z), (Z.ltb_spec x z);
    try lia;
    destruct (Z.ltb_spec y x), (Z.ltb_spec z y), (Z.ltb_spec z x); try lia.
  apply IH.
Qed.

Lemma compare_code_units_total_order : total_order compare_code_units.
Proof.
  constructor.
  - intros a b. rewrite (compare_code_units_swap a b).
    destruct (compare_code_units_range a b) as [H|[H|H]]; rewrite H; lia.
  - intros a b H1 H2. rewrite compare_code_units_swap in H2.
    apply compare_code_units_eq. lia.
  - apply compare_code_units_trans.
Qed.

Lemma compare_descending_total_order : total_order compare_descending.
Proof.
  destruct compare_code_units_total_order as [T A R].
  constructor; unfold compare_descending.
  - intros a b. destruct (T a b); auto.
  - intros a b H1 H2. apply A; assumption.
  - intros a b c H1 H2. eapply R; eassumption.
Qed.

(** ** Token.sort *)

Lemma values_at_self {V} (o : JSObject V) :
  NoDup (map fst o) -> values_at o (map fst o) = map snd o.
Proof.
  intro Hnd. unfold values_at.
  assert (H : forall l, incl l o ->
            flat_map (fun k => match Object_get o k with Some v => [v] | None => [] end)
              (map fst l) = map snd l).
  { induction l as [|[k v] l IH]; intro Hl; simpl; [reflexivity|].
    rewrite (Object_get_In o k v Hnd) by (apply Hl; left; reflexivity).
    simpl. f_equal. apply IH. intros x Hx. apply Hl. right. exact Hx. }
  apply H. apply incl_refl.
Qed.

Lemma values_at_perm {V} (o : JSObject V) (ks ks' : list JSString) :
  Permutation ks ks' -> Permutation (values_at o ks) (values_at o ks').
Proof. intro H. unfold values_at. apply Permutation_flat_map. exact H. Qed.

Section TokenSort.
Variable sortTokenByName : Comparator.
Hypothesis Horder : total_order sortTokenByName.

Lemma name_entries_keys (tokens : list Token) :
  map fst (name_entries tokens) = map name tokens.
Proof. unfold name_entries. rewrite map_map. reflexivity. Qed.

Lemma Token_sort_by_names (tokens : list Token) :
  NoDup (map name tokens) ->
  Token_sort sortTokenByName tokens
  = values_at (name_entries tokens) (Array_sort sortTokenByName (map name tokens)).
Proof.
  intro Hnd. unfold Token_sort. fold (name_entries tokens).
  rewrite Object_fromEntries_NoDup by (rewrite name_entries_keys; exact Hnd).
  f_equal. apply (Array_sort_perm_eq _ Horder).
  rewrite Object_keys_perm, name_entries_keys. reflexivity.
Qed.

Lemma Token_sort_names (tokens : list Token) :
  NoDup (map name tokens) ->
  map name (Token_sort sortTokenByName tokens)
  = Token_sortTokenNames sortTokenByName (map name tokens).
Proof.
  intro Hnd. rewrite Token_sort_by_names by exact Hnd.
  unfold Token_sortTokenNames.
  rewrite (values_at_keys name (fun k => k)).
  - apply map_id.
  - unfold name_entries. intros k v Hin. apply in_map_iff in Hin as [t [E _]].
    injection E as <- <-. reflexivity.
  - intros k Hk. rewrite name_entries_keys.
    eapply Permutation_in; [apply Array_sort_perm|exact Hk].
Qed.

Lemma Token_sort_permutation (tokens : list Token) :
  NoDup (map name tokens) -> Permutation (Token_sort sortTokenByName tokens) tokens.
Proof.
  intro Hnd. rewrite Token_sort_by_names by exact Hnd.
  rewrite (values_at_perm _ _ (map name tokens)) by apply Array_sort_perm.
  rewrite <- name_entries_keys, values_at_self by (rewrite name_entries_keys; exact Hnd).
  unfold name_entries. rewrite map_map. simpl. rewrite map_id. reflexivity.
Qed.

(** The two tokens in the canonical order of their names. *)
Lemma Token_sort_two (token1 token2 : Token) :
  name token1 <> name token2 ->
  Token_sort sortTokenByName [token1; token2]
  = if sortTokenByName (name token1) (name token2) <=? 0
    then [token1; token2] else [token2; token1].
Proof.
  intro Hne. rewrite Token_sort_by_names.
  - simpl map. rewrite Array_sort_two.
    destruct (sortTokenByName (name token1) (name token2) <=? 0);
      unfold values_at, name_entries; simpl;
      rewrite !string_eqb_refl; try rewrite (string_eqb_neq _ _ Hne); reflexivity.
  - simpl. constructor; [|constructor; [|constructor]]; simpl; intuition.
Qed.
End TokenSort.

(** With one name for both tokens the name map has one property, which holds
    the second token. *)
Lemma Token_sort_same_name (sortTokenByName : Comparator) (token1 token2 : Token) :
  name token1 = name token2 ->
  Token_sort sortTokenByName [token1; token2] = [token2].
Proof.
  intro E. unfold Token_sort, Object_fromEntries. simpl. rewrite E.
  rewrite string_eqb_refl. unfold Object_keys. simpl.
  destruct (array_index (name token2)); simpl; unfold values_at; simpl;
    rewrite string_eqb_refl; reflexivity.
Qed.

(** ** encodeURIComponent is defined on well-formed strings *)

Ltac bool_to_prop :=
  repeat match goal with
  | H : _ && _ = true |- _ => apply andb_true_iff in H; destruct H
  | H : _ || _ = true |- _ => apply orb_true_iff in H; destruct H
  | H : _ || _ = false |- _ => apply orb_false_iff in H; destruct H
  | H : negb _ = true |- _ => apply negb_true_iff in H
  | H : negb _ = false |- _ => apply negb_false_iff in H
  | H : (_ <=? _) = true |- _ => apply Z.leb_le in H
  | H : (_ <=? _) = false |- _ => apply Z.leb_gt in H
  | H : (_ <? _) = true |- _ => apply Z.ltb_lt in H
  | H : (_ <? _) = false |- _ => apply Z.ltb_ge in H
  | H : (_ =? _) = true |- _ => apply Z.eqb_eq in H
  | H : (_ =? _) = false |- _ => apply Z.eqb_neq in H
  end.

(** Replaces the code units of character literals by their numbers. *)
Ltac eval_chars :=
  repeat match goal with
  | |- context [char ?a] =>
      let v := eval vm_compute in (char a) in change (char a) with v
  | H : context [char ?a] |- _ =>
      let v := eval vm_compute in (char a) in change (char a) with v in H
  end.

Lemma uriUnescaped_ascii (c : Z) : uriUnescaped c = true -> 0 <= c < 128.
Proof.
  unfold uriUnescaped, in_range. cbn. eval_chars. intro H.
  bool_to_prop; try lia; discriminate.
Qed.

Lemma uriUnescaped_not_surrogate (c : Z) : uriUnescaped c = true -> is_surrogate c = false.
Proof.
  intro H. apply uriUnescaped_ascii in H.
  unfold is_surrogate, in_range. apply andb_false_iff. left. apply Z.leb_gt. lia.
Qed.

Lemma encodeURIComponent_defined (s : JSString) :
  isWellFormed s = true -> exists r, encodeURIComponent s = Ok r.
Proof.
  remember (List.length s) as n eqn:Hn.
  revert s Hn. induction n as [n IH] using lt_wf_ind. intros s Hn Hwf.
  destruct s as [|c rest]; [eexists; reflexivity|].
  simpl in Hwf |- *.
  destruct (uriUnescaped c) eqn:Hu.
  - rewrite (uriUnescaped_not_surrogate c Hu) in Hwf. simpl in Hwf.
    apply andb_true_iff in Hwf as [_ Hwf].
    destruct (IH (List.length rest)) with (s := rest) as [r Hr];
      [subst; simpl; lia|reflexivity|exact Hwf|].
    rewrite Hr. eexists; reflexivity.
  - destruct (is_surrogate c) eqn:Hs; simpl in Hwf |- *.
    + destruct (is_leading_surrogate c) eqn:Hl; [|discriminate].
      assert (Ht : is_trailing_surrogate c = false).
      { unfold is_leading_surrogate, is_trailing_surrogate, in_range in *.
        bool_to_prop. apply andb_false_iff. left. apply Z.leb_gt. lia. }
      rewrite Ht. destruct rest as [|d rest']; [discriminate|].
      apply andb_true_iff in Hwf as [Hd Hwf]. rewrite Hd.
      destruct (IH (List.length rest')) with (s := rest') as [r Hr];
        [subst; simpl; lia|reflexivity|exact Hwf|].
      rewrite Hr. eexists; reflexivity.
    + apply andb_true_iff in Hwf as [_ Hwf].
      destruct (IH (List.length rest)) with (s := rest) as [r Hr];
        [subst; simpl; lia|reflexivity|exact Hwf|].
      rewrite Hr. eexists; reflexivity.
Qed.

Lemma createDexShareName_defined (name1 name2 : JSString) :
  valid_name name1 -> valid_name name2 ->
  exists n, createDexShareName name1 name2 = Ok n.
Proof.
  intros H1 H2. unfold createDexShareName.
  destruct (encodeURIComponent_defined _ H1) as [e1 ->].
  destruct (encodeURIComponent_defined _ H2) as [e2 ->].
  eexists; reflexivity.
Qed.

(** Outside the well-formed strings [encodeURIComponent] raises URIError, and
    so does [createDexShareName]. *)
Lemma createDexShareName_unpaired_surrogate :
  createDexShareName [0xD800] (str "SERP") = Throw URIError.
Proof. reflexivity. Qed.

(** ** Token.fromTokens *)

(** C10, as the code has it.  [Token.fromTokens] is total only on tokens
    with distinct names.  When the two names are equal, [Token.sort] keeps
    one token of the pair (the name map has one property), the second element
    of the sorted array is absent and [fromTokens] raises TypeError instead
    of returning a token.  When the names differ and are well-formed strings
    (the strings that [encodeURIComponent] accepts) [fromTokens] returns a
    token, of type DEX_SHARE. *)
Theorem Token_fromTokens_total_iff_distinct_names (sortTokenByName : Comparator)
    (token1 token2 : Token) :
  (name token1 = name token2 ->
     Token_sort sortTokenByName [token1; token2] = [token2] /\
     Token_fromTokens sortTokenByName token1 token2 = Throw TypeError) /\
  (name token1 <> name token2 ->
   valid_name (name token1) -> valid_name (name token2) ->
     exists t, Token_fromTokens sortTokenByName token1 token2 = Ok t /\
               type t = DEX_SHARE).
Proof.
  split.
  - intro E. pose proof (Token_sort_same_name sortTokenByName _ _ E) as Hs.
    split; [exact Hs|]. unfold Token_fromTokens. rewrite Hs. reflexivity.
  - intros Hne H1 H2. unfold Token_fromTokens, Token_sort.
    fold (name_entries [token1; token2]).
    rewrite Object_fromEntries_NoDup
      by (simpl; constructor; [|constructor; [|constructor]]; simpl; intuition).
    set (ks := Array_sort sortTokenByName (Object_keys (name_entries [token1; token2]))).
    assert (HP : Permutation ks [name token1; name token2]).
    { subst ks. unfold Array_sort. rewrite sort_perm, Object_keys_perm. reflexivity. }
    assert (Hcases : ks = [name token1; name token2] \/ ks = [name token2; name token1]).
    { apply Permutation_sym, Permutation_length_2_inv in HP. exact HP. }
    assert (Hne' : name token2 <> name token1) by congruence.
    destruct Hcases as [-> | ->]; unfold values_at, name_entries; simpl;
      rewrite !string_eqb_refl;
      try rewrite (string_eqb_neq _ _ Hne); try rewrite (string_eqb_neq _ _ Hne'); simpl.
    + destruct (createDexShareName_defined _ _ H1 H2) as [n ->].
      eexists; split; reflexivity.
    + destruct (createDexShareName_defined _ _ H2 H1) as [n ->].
      eexists; split; reflexivity.
Qed.

Lemma Token_fromTokens_total_iff_distinct_names_witness :
  let SETM := Token_new (str "SETM") None in
  let SETM12 := Token_new (str "SETM")
                  (Some (mkConfigs None (Some 12%N) None None None None None None)) in
  let SERP := Token_new (str "SERP") None in
  (name SETM = name SETM12 /\
   Token_sort compare_code_units [SETM; SETM12] = [SETM12] /\
   Token_fromTokens compare_code_units SETM SETM12 = Throw TypeError) /\
  (name SETM <> name SERP /\ valid_name (name SETM) /\ valid_name (name SERP) /\
   exists t, Token_fromTokens compare_code_units SETM SERP = Ok t /\ type t = DEX_SHARE).
Proof.
  intros SETM SETM12 SERP. split.
  - split; [reflexivity|].
    apply (proj1 (Token_fromTokens_total_iff_distinct_names compare_code_units SETM SETM12)).
    reflexivity.
  - split; [discriminate|]. split; [reflexivity|]. split; [reflexivity|].
    apply (proj2 (Token_fromTokens_total_iff_distinct_names compare_code_units SETM SERP));
      [discriminate|reflexivity|reflexivity].
Defined.

(** C10 as stated fails on two tokens with distinct names of which one has
    an unpaired surrogate: [encodeURIComponent] raises URIError and no token
    is returned. *)
Lemma Token_fromTokens_unpaired_surrogate_throws :
  name (Token_new [0xD800] None) <> name (Token_new (str "SERP") None) /\
  Token_fromTokens compare_code_units
    (Token_new [0xD800] None) (Token_new (str "SERP") None)
  = Throw URIError.
Proof. split; [discriminate|reflexivity]. Qed.

(** C2, as the code has it.  For two tokens (values of [new Token], whose
    decimals are never 0) with distinct, well-formed names,
    [Token.fromTokens] sorts the pair by the canonical ordering of the names
    and returns a new token: its name is [createDexShareName] of the sorted
    names, its type is DEX_SHARE, its decimals and existential deposit are
    those of the first token of the sorted pair (symbol and display are the
    name, the chain is undefined). *)
Theorem Token_fromTokens_sorted_pair (sortTokenByName : Comparator)
    (name1 name2 : JSString) (configs1 configs2 : option Configs) :
  let tokenA := Token_new name1 configs1 in
  let tokenB := Token_new name2 configs2 in
  let first := if sortTokenByName name1 name2 <=? 0 then tokenA else tokenB in
  let second := if sortTokenByName name1 name2 <=? 0 then tokenB else tokenA in
  total_order sortTokenByName ->
  name1 <> name2 -> valid_name name1 -> valid_name name2 ->
  Token_sort sortTokenByName [tokenA; tokenB] = [first; second] /\
  exists n,
    createDexShareName (name first) (name second) = Ok n /\
    Token_fromTokens sortTokenByName tokenA tokenB
    = Ok (mkToken n n (decimals first) (decimals first) (ed first) None DEX_SHARE n).
Proof.
  intros tokenA tokenB first second Horder Hne H1 H2.
  assert (Hs : Token_sort sortTokenByName [tokenA; tokenB] = [first; second]).
  { rewrite (Token_sort_two _ Horder) by exact Hne. subst first second. simpl.
    destruct (sortTokenByName name1 name2 <=? 0); reflexivity. }
  split; [exact Hs|].
  assert (Hd : decimals first <> 0%N).
  { subst first. destruct (sortTokenByName name1 name2 <=? 0);
      apply Token_new_decimals_nonzero. }
  assert (Hn : exists n, createDexShareName (name first) (name second) = Ok n).
  { subst first second. destruct (sortTokenByName name1 name2 <=? 0);
      apply createDexShareName_defined; assumption. }
  destruct Hn as [n Hn]. exists n. split; [exact Hn|].
  unfold Token_fromTokens. rewrite Hs, Hn. simpl.
  unfold Token_new. simpl optional.
  rewrite (or_number_self _ _ Hd). reflexivity.
Qed.

(** The example of the spec: SETM with 18 decimals and SERP with 12, under a
    collation that puts SETM first, give [lp://SETM/SERP] with 18 decimals
    and the existential deposit of SETM, in either order of the arguments. *)
Lemma Token_fromTokens_SETM_SERP :
  let ed_SETM := FN_fromInner 100000000000000 18 in
  let ed_SERP := FN_fromInner 1000000000 12 in
  let SETM := Some (mkConfigs None (Some 18%N) None None None None None (Some ed_SETM)) in
  let SERP := Some (mkConfigs None (Some 12%N) None None None None None (Some ed_SERP)) in
  let lp := str "lp://SETM/SERP" in
  total_order compare_descending /\
  str "SETM" <> str "SERP" /\ valid_name (str "SETM") /\ valid_name (str "SERP") /\
  Token_fromTokens compare_descending
    (Token_new (str "SETM") SETM) (Token_new (str "SERP") SERP)
  = Ok (mkToken lp lp 18 18 ed_SETM None DEX_SHARE lp).
Proof.
  intros ed_SETM ed_SERP SETM SERP lp.
  split; [exact compare_descending_total_order|].
  split; [discriminate|]. split; [reflexivity|]. split; [reflexivity|].
  destruct (Token_fromTokens_sorted_pair compare_descending
              (str "SETM") (str "SERP") SETM SERP
              compare_descending_total_order)
    as [_ [n [Hn Hf]]]; [discriminate|reflexivity|reflexivity|].
  rewrite Hf. vm_compute in Hn. injection Hn as <-. reflexivity.
Defined.

(** C2 as stated fails on two tokens of one name, and on a name with an
    unpaired surrogate: no token is returned. *)
Lemma Token_fromTokens_same_name_throws :
  Token_fromTokens compare_code_units
    (Token_new (str "SETM") None) (Token_new (str "SETM") None)
  = Throw TypeError
  /\ Token_fromTokens compare_code_units
       (Token_new (str "SETM") None) (Token_new [0xDC00] None)
     = Throw URIError.
Proof. split; reflexivity. Qed.

(** ** Token.sortCurrencies *)

Lemma mapM_entries {A} (g : A -> Result JSString) (l : list A) (names : list JSString) :
  mapM g l = Ok names ->
  mapM (fun item => n <- g item ;; Ok (n, item)) l = Ok (combine names l)
  /\ List.length names = List.length l.
Proof.
  revert names; induction l as [|a l IH]; simpl; intros names H.
  - injection H as <-. split; reflexivity.
  - destruct (g a) as [n|e]; simpl in *; [|discriminate].
    destruct (mapM g l) as [ns|e]; simpl in *; [|discriminate].
    injection H as <-. destruct (IH ns eq_refl) as [-> Hlen]. simpl.
    split; [reflexivity|congruence].
Qed.

Lemma mapM_combine_In {A} (g : A -> Result JSString) (l : list A) (names : list JSString) :
  mapM g l = Ok names -> forall k v, In (k, v) (combine names l) -> g v = Ok k.
Proof.
  revert names; induction l as [|a l IH]; simpl; intros names H k v Hin.
  - injection H as <-. contradiction.
  - destruct (g a) as [n|e] eqn:Ea; simpl in *; [|discriminate].
    destruct (mapM g l) as [ns|e]; simpl in *; [|discriminate].
    injection H as <-. destruct Hin as [E|Hin].
    + injection E as <- <-. exact Ea.
    + eapply IH; [reflexivity|exact Hin].
Qed.

Lemma values_at_mapM {V} (g : V -> Result JSString) (o : JSObject V)
    (ks : list JSString) :
  (forall k v, In (k, v) o -> g v = Ok k) ->
  (forall k, In k ks -> In k (map fst o)) ->
  mapM g (values_at o ks) = Ok ks.
Proof.
  intros Hg. induction ks as [|k ks IH]; intro Hks; simpl; [reflexivity|].
  assert (Hk : In k (map fst o)) by (apply Hks; left; reflexivity).
  apply in_map_iff in Hk as [[k' v] [E Hin]]. simpl in E. subst k'.
  assert (Hget : exists v', Object_get o k = Some v').
  { clear - Hin. induction o as [|[k' v'] o IHo]; simpl in *; [contradiction|].
    destruct (string_eqb k' k) eqn:E'; [eauto|].
    destruct Hin as [E|Hin]; [|auto].
    injection E as -> ->. rewrite string_eqb_refl in E'. discriminate. }
  destruct Hget as [v' Hget]. rewrite Hget. simpl.
  rewrite (Hg k v') by (apply Object_get_Some; exact Hget). simpl.
  rewrite IH by (intros; apply Hks; right; assumption). reflexivity.
Qed.

(** C5.  Under a total order on names, and for pairwise distinct names:
    [Token.sortTokenNames] is idempotent; the names of the tokens that
    [Token.sort] returns are [Token.sortTokenNames] of the tokens' names; and
    [Token.sortCurrencies] returns currency ids whose names (by
    [forceToCurrencyName]) are [Token.sortTokenNames] of the names of its
    arguments. *)
Theorem sorting_consistent (sortTokenByName : Comparator) (tokens : list Token)
    (currencies : list CurrencyId) (names : list JSString) :
  total_order sortTokenByName ->
  NoDup names ->
  map name tokens = names ->
  mapM (fun c => forceToCurrencyName (MC_CurrencyId c)) currencies = Ok names ->
  Token_sortTokenNames sortTokenByName (Token_sortTokenNames sortTokenByName names)
  = Token_sortTokenNames sortTokenByName names
  /\ map name (Token_sort sortTokenByName tokens)
     = Token_sortTokenNames sortTokenByName names
  /\ exists sorted,
       Token_sortCurrencies sortTokenByName currencies = Ok sorted /\
       mapM (fun c => forceToCurrencyName (MC_CurrencyId c)) sorted
       = Ok (Token_sortTokenNames sortTokenByName names).
Proof.
  intros Horder Hnd Htokens Hcur. split; [|split].
  - apply (Array_sort_idempotent _ Horder).
  - rewrite <- Htokens in *. apply (Token_sort_names _ Horder), Hnd.
  - unfold Token_sortCurrencies.
    destruct (mapM_entries _ _ _ Hcur) as [-> Hlen]. simpl.
    assert (Hkeys : map fst (combine names currencies) = names).
    { clear - Hlen. revert currencies Hlen.
      induction names as [|n ns IH]; intros [|c cs] Hlen; simpl in *;
        try discriminate; [reflexivity|]. f_equal. apply IH. congruence. }
    rewrite Object_fromEntries_NoDup by (rewrite Hkeys; exact Hnd).
    eexists; split; [reflexivity|].
    unfold Token_sortTokenNames.
    replace (Array_sort sortTokenByName (Object_keys (combine names currencies)))
      with (Array_sort sortTokenByName names)
      by (apply (Array_sort_perm_eq _ Horder); rewrite Object_keys_perm, Hkeys; reflexivity).
    apply values_at_mapM.
    + apply mapM_combine_In. exact Hcur.
    + intros k Hk. rewrite Hkeys.
      eapply Permutation_in; [apply Array_sort_perm|exact Hk].
Qed.

Lemma sorting_consistent_witness :
  let names := [str "SETM"; str "lp://SETM/SERP"; str "10"; str "DNAR"] in
  let tokens := map (fun n => Token_new n None) names in
  let currencies :=
    [CurrencyId_Token (str "SETM");
     CurrencyId_DexShare (CurrencyId_Token (str "SETM")) (CurrencyId_Token (str "SERP"));
     CurrencyId_Token (str "10");
     CurrencyId_Token (str "DNAR")] in
  total_order compare_code_units /\
  NoDup names /\
  map name tokens = names /\
  mapM (fun c => forceToCurrencyName (MC_CurrencyId c)) currencies = Ok names /\
  Token_sortTokenNames compare_code_units (Token_sortTokenNames compare_code_units names)
  = Token_sortTokenNames compare_code_units names
  /\ map name (Token_sort compare_code_units tokens)
     = Token_sortTokenNames compare_code_units names
  /\ exists sorted,
       Token_sortCurrencies compare_code_units currencies = Ok sorted /\
       mapM (fun c => forceToCurrencyName (MC_CurrencyId c)) sorted
       = Ok (Token_sortTokenNames compare_code_units names).
Proof.
  intros names tokens currencies.
  assert (Hnd : NoDup names).
  { repeat constructor; simpl; intuition discriminate. }
  split; [exact compare_code_units_total_order|].
  split; [exact Hnd|]. split; [reflexivity|]. split; [reflexivity|].
  apply (sorting_consistent compare_code_units tokens currencies names
           compare_code_units_total_order Hnd); reflexivity.
Defined.

(** ** The matcher on the examples of the standard *)

(** The example of the standard for the captures of a repeated atom: the
    pattern (z)((a+)?(b+)?(c))* on "zaacbbbcac"; group 4 is undefined. *)
Example RepeatMatcher_clears_captures :
  let plus r := Repeat 1 None r in
  let opt r := Repeat 0 (Some 1%nat) r in
  RegExp_exec
    (Seq (Group 1 (Char (char "z")))
       (Repeat 0 None
          (Group 2
             (Seq (opt (Group 3 (plus (Char (char "a")))))
                (Seq (opt (Group 4 (plus (Char (char "b")))))
                   (Group 5 (Char (char "c"))))))))
    5 (str "zaacbbbcac")
  = Some [Some (str "zaacbbbcac"); Some (str "z"); Some (str "ac"); Some (str "a");
          None; Some (str "c")].
Proof. reflexivity. Qed.

(** An optional group that matched the empty sequence is undefined: a
    starred [a] in a group, the group optional, on "b". *)
Example RepeatMatcher_rejects_empty_iteration :
  RegExp_exec (Repeat 0 (Some 1%nat) (Group 1 (Repeat 0 None (Char (char "a")))))
    1 (str "b")
  = Some [Some (str ""); None].
Proof. reflexivity. Qed.

Example encodeURIComponent_samples :
  encodeURIComponent (str "lp://SETM/SERP") = Ok (str "lp%3A%2F%2FSETM%2FSERP") /\
  encodeURIComponent [0x20AC; 0xD83D; 0xDE00] = Ok (str "%E2%82%AC%F0%9F%98%80") /\
  decodeURIComponent (str "%E2%82%AC%F0%9F%98%80") = Ok [0x20AC; 0xD83D; 0xDE00] /\
  decodeURIComponent (str "%C0%80") = Throw URIError /\
  encodeURIComponent [0xDE00] = Throw URIError.
Proof. repeat split; reflexivity. Qed.

(** ** The matcher stays inside the language of the pattern *)

Section MatcherSound.
Variable input : JSString.

Lemma RepeatMatcher_sound (r : Pattern) (groups : list nat)
    (IHr : forall x c z, matcher input r x c = Some z ->
             exists y, lang input r (endIndex x) (endIndex y) /\ c y = Some z)
    (fuel : nat) :
  forall min max x c z,
    RepeatMatcher (matcher input r) fuel min max groups x c = Some z ->
    exists y, lang input (Repeat min max r) (endIndex x) (endIndex y) /\ c y = Some z.
Proof.
  induction fuel as [|fuel IHf]; intros min max x c z H; simpl in H; [discriminate|].
  assert (Hstop : c x = Some z ->
            exists y, lang input (Repeat min max r) (endIndex x) (endIndex y)
                      /\ c y = Some z).
  { intro Hc. exists x. split; [constructor|exact Hc]. }
  assert (Hstep : forall d,
            d = (fun y : MatchState =>
                   if ((min =? 0) && (endIndex y =? endIndex x))%nat then None
                   else RepeatMatcher (matcher input r) fuel (Nat.pred min)
                          (option_map Nat.pred max) groups y c) ->
            matcher input r (mkState (endIndex x) (clear_captures groups (captures x))) d
            = Some z ->
            exists y, lang input (Repeat min max r) (endIndex x) (endIndex y)
                      /\ c y = Some z).
  { intros d -> Hm. apply IHr in Hm as [y [Hl Hd]]. simpl in Hl.
    destruct ((min =? 0) && (endIndex y =? endIndex x))%nat; [discriminate|].
    apply IHf in Hd as [y' [Hl' Hc]].
    exists y'. split; [|exact Hc]. eapply lang_Repeat_more; eassumption. }
  destruct max as [[|mx]|]; [apply Hstop, H| |].
  - destruct (negb (min =? 0)%nat); [eapply Hstep; [reflexivity|exact H]|].
    match type of H with
    | match ?m with _ => _ end = _ => destruct m as [z'|] eqn:Em
    end; [|apply Hstop, H].
    injection H as ->. eapply Hstep; [reflexivity|exact Em].
  - destruct (negb (min =? 0)%nat); [eapply Hstep; [reflexivity|exact H]|].
    match type of H with
    | match ?m with _ => _ end = _ => destruct m as [z'|] eqn:Em
    end; [|apply Hstop, H].
    injection H as ->. eapply Hstep; [reflexivity|exact Em].
Qed.

Lemma matcher_sound (r : Pattern) :
  forall x c z, matcher input r x c = Some z ->
    exists y, lang input r (endIndex x) (endIndex y) /\ c y = Some z.
Proof.
  induction r as [|ch|cs|r1 IH1 r2 IH2|min max r IH|g r IH| |]; intros x c z H; simpl in H.
  - exists x. split; [constructor|exact H].
  - destruct (nth_error input (endIndex x)) as [u|] eqn:E; [|discriminate].
    destruct (Z.eqb_spec u ch) as [->|]; [|discriminate].
    eexists. split; [|exact H]. simpl. constructor. exact E.
  - destruct (nth_error input (endIndex x)) as [u|] eqn:E; [|discriminate].
    destruct (existsb (Z.eqb u) cs) eqn:Ecs; [discriminate|].
    eexists. split; [|exact H]. simpl. econstructor; eassumption.
  - apply IH1 in H as [y [Hl1 H]]. apply IH2 in H as [y' [Hl2 H]].
    exists y'. split; [|exact H]. econstructor; eassumption.
  - exact (RepeatMatcher_sound r (group_indices r) IH
            (S (min + List.length input)) min max x c z H).
  - apply IH in H as [y [Hl H]].
    eexists. split; [|exact H]. simpl. constructor. exact Hl.
  - destruct (Nat.eqb_spec (endIndex x) 0) as [E|]; [|discriminate].
    exists x. split; [|exact H]. rewrite E. constructor.
  - destruct (Nat.eqb_spec (endIndex x) (List.length input)) as [E|]; [|discriminate].
    exists x. split; [|exact H]. rewrite E. constructor.
Qed.

Lemma exec_from_sound (r : Pattern) (ncap fuel lastIndex : nat)
    (result : list (option JSString)) :
  exec_from input r ncap fuel lastIndex = Some result ->
  exists i j, lang input r i j.
Proof.
  revert lastIndex; induction fuel as [|fuel IH]; intros lastIndex H; simpl in H.
  - destruct (matcher input r _ Some) as [y|] eqn:E; [|discriminate].
    apply matcher_sound in E as [y' [Hl _]]. eauto.
  - destruct (matcher input r _ Some) as [y|] eqn:E.
    + apply matcher_sound in E as [y' [Hl _]]. eauto.
    + eapply IH. exact H.
Qed.
End MatcherSound.

(** ** The language of the dex-share pattern *)

Section DexSharePattern.
Variable input : JSString.

Lemma free_of_refl (c : Z) (i : nat) : free_of c input i i.
Proof. split; [lia|]. intros k Hk. lia. Qed.

Lemma free_of_trans (c : Z) (i j k : nat) :
  free_of c input i j -> free_of c input j k -> free_of c input i k.
Proof.
  intros [H1 H1'] [H2 H2']. split; [lia|].
  intros n Hn. destruct (Nat.lt_ge_cases n j); [apply H1'|apply H2']; lia.
Qed.

Lemma lang_Repeat_closure (P : nat -> nat -> Prop) (r : Pattern) :
  (forall i, P i i) ->
  (forall i j k, P i j -> P j k -> P i k) ->
  (forall i j, lang input r i j -> P i j) ->
  forall min max i j, lang input (Repeat min max r) i j -> P i j.
Proof.
  intros Hrefl Htrans Hr min max i j H.
  remember (Repeat min max r) as p eqn:Ep. revert min max Ep.
  induction H; intros mn mx Ep; try discriminate.
  - apply Hrefl.
  - injection Ep as -> -> ->. eapply Htrans; [apply Hr; eassumption|].
    eapply IHlang2. reflexivity.
Qed.

Lemma lang_NotChars_free (c : Z) (i j : nat) :
  lang input (NotChars [c]) i j -> free_of c input i j.
Proof.
  intro H. inversion H as [| |cs u i' Hn He| | | | | |]; subst.
  split; [lia|]. intros k Hk. assert (k = i) as -> by lia.
  exists u. split; [exact Hn|]. simpl in He.
  destruct (Z.eqb_spec u c); [discriminate|assumption].
Qed.

Lemma lang_star_free (c : Z) (min : nat) (max : option nat) (i j : nat) :
  lang input (Repeat min max (NotChars [c])) i j -> free_of c input i j.
Proof.
  apply lang_Repeat_closure;
    [apply free_of_refl|apply free_of_trans|apply lang_NotChars_free].
Qed.

Lemma lang_literal (s : JSString) (i j : nat) :
  lang input (literal s) i j ->
  j = (i + List.length s)%nat /\ firstn (List.length s) (skipn i input) = s.
Proof.
  revert i; induction s as [|c s IH]; intros i H; simpl in *.
  - inversion H; subst. split; [lia|reflexivity].
  - inversion H as [| | |r1 r2 i' m k H1 H2| | | | |]; subst.
    inversion H1 as [|c' i' Hn| | | | | | |]; subst.
    apply IH in H2 as [-> Hs]. split; [lia|].
    rewrite <- (firstn_skipn_middle i input Hn) at 1.
    rewrite skipn_app, skipn_all2 by (rewrite length_firstn; lia).
    assert (Hlen : (i < List.length input)%nat)
      by (apply nth_error_Some; congruence).
    rewrite length_firstn, Nat.min_l by lia.
    rewrite Nat.sub_diag. simpl. f_equal. exact Hs.
Qed.

Lemma free_of_substring (c : Z) (i j : nat) :
  free_of c input i j -> ~ In c (substring input i j).
Proof.
  intros [Hij H] Hin. unfold substring in Hin.
  apply In_nth_error in Hin as [n Hn].
  rewrite nth_error_firstn in Hn.
  destruct (Nat.ltb_spec n (j - i)); [|discriminate].
  rewrite nth_error_skipn in Hn.
  destruct (H (i + n)%nat) as [u [Hu Hne]]; [lia|]. congruence.
Qed.

Lemma lang_reg_shape (i j : nat) : lang input reg i j -> dex_share_shape input.
Proof.
  unfold reg. intro H.
  inversion H as [| | |? ? ? m1 ? Hstart H1| | | | |]; subst; clear H.
  inversion Hstart; subst; clear Hstart.
  inversion H1 as [| | |? ? ? m2 ? Hlit H2| | | | |]; subst; clear H1.
  apply (lang_literal (str "lp://")) in Hlit as [Hm Hprefix].
  change (m2 = 5%nat) in Hm. change (firstn 5 input = str "lp://") in Hprefix.
  subst m2.
  inversion H2 as [| | |? ? ? m3 ? Hopt H3| | | | |]; subst; clear H2.
  inversion H3 as [| | |? ? ? m4 ? Hslash H4| | | | |]; subst; clear H3.
  inversion H4 as [| | |? ? ? m5 ? Hg2 Hend| | | | |]; subst; clear H4.
  inversion Hend; subst; clear Hend.
  inversion Hslash as [|? ? Hn| | | | | | |]; subst; clear Hslash.
  assert (HA : free_of (char "/") input 5 m3).
  { revert Hopt. apply lang_Repeat_closure;
      [apply free_of_refl|apply free_of_trans|].
    intros a b Hg. inversion Hg; subst. eapply lang_star_free; eassumption. }
  assert (HB : free_of (char "/") input (S m3) (List.length input)).
  { inversion Hg2; subst. eapply lang_star_free; eassumption. }
  exists (substring input 5 m3), (substring input (S m3) (List.length input)).
  split; [apply free_of_substring, HA|].
  split; [apply free_of_substring, HB|].
  destruct HA as [H5 _].
  rewrite <- (firstn_skipn_middle m3 input Hn) at 1.
  rewrite <- (firstn_skipn 5 (firstn m3 input)).
  rewrite firstn_firstn, Nat.min_l, skipn_firstn_comm by lia.
  rewrite Hprefix.
  unfold substring.
  rewrite (firstn_all2 (n := List.length input - S m3))
    by (rewrite length_skipn; lia).
  rewrite <- app_assoc. reflexivity.
Qed.
End DexSharePattern.

Lemma RegExp_exec_reg_shape (name_ : JSString) (result : list (option JSString)) :
  RegExp_exec reg 2 name_ = Some result -> dex_share_shape name_.
Proof.
  unfold RegExp_exec. intro E. apply exec_from_sound in E as [i [j Hl]].
  eapply lang_reg_shape. exact Hl.
Qed.

(** C3.  A string that is not of the shape [lp://A/B], with no slash in [A]
    and none in [B] (it does not start with [lp://], or it has no slash or a
    further slash after the prefix, as in [lp://A/B/C]), makes
    [unzipDexShareName] raise NotDexShareName with that string; no pair is
    returned. *)
Theorem unzipDexShareName_rejects_other_shapes (name_ : JSString) :
  ~ dex_share_shape name_ ->
  unzipDexShareName name_ = Throw (NotDexShareName name_).
Proof.
  intro Hshape. unfold unzipDexShareName.
  destruct (isDexShareName name_); [|reflexivity]. simpl.
  destruct (RegExp_exec reg 2 name_) as [result|] eqn:E; [|reflexivity].
  exfalso. apply Hshape. eapply RegExp_exec_reg_shape. exact E.
Qed.

Lemma span_not_app (c : Z) (A B : JSString) :
  ~ In c A -> span_not c (A ++ c :: B) = (A, c :: B).
Proof.
  induction A as [|u A IH]; simpl; intro H.
  - rewrite Z.eqb_refl. reflexivity.
  - destruct (Z.eqb_spec u c) as [->|]; [exfalso; apply H; left; reflexivity|].
    rewrite IH by (intro; apply H; right; assumption). reflexivity.
Qed.

Lemma existsb_not_In (c : Z) (B : JSString) : ~ In c B -> existsb (Z.eqb c) B = false.
Proof.
  intro H. destruct (existsb (Z.eqb c) B) eqn:E; [|reflexivity].
  apply existsb_exists in E as [u [Hin Hu]]. apply Z.eqb_eq in Hu. subst. contradiction.
Qed.

(** [split_dex_share] finds the legs of every string of the shape. *)
Lemma split_dex_share_complete (A B : JSString) :
  no_slash A -> no_slash B ->
  split_dex_share (str "lp://" ++ A ++ str "/" ++ B) = Some (A, B).
Proof.
  intros HA HB. unfold split_dex_share.
  change (startsWith (str "lp://" ++ A ++ str "/" ++ B) (str "lp://")) with true.
  change (skipn 5 (str "lp://" ++ A ++ str "/" ++ B)) with (A ++ char "/" :: B).
  cbv iota. rewrite (span_not_app _ _ _ HA), (existsb_not_In _ _ HB). reflexivity.
Qed.

Lemma split_dex_share_None (s : JSString) :
  split_dex_share s = None -> ~ dex_share_shape s.
Proof.
  intros H [A [B [HA [HB ->]]]]. rewrite split_dex_share_complete in H by assumption.
  discriminate.
Qed.

Example unzipDexShareName_rejections :
  unzipDexShareName (str "SETM") = Throw (NotDexShareName (str "SETM")) /\
  unzipDexShareName (str "lp://SETM") = Throw (NotDexShareName (str "lp://SETM")) /\
  unzipDexShareName (str "xlp://A/B") = Throw (NotDexShareName (str "xlp://A/B")) /\
  unzipDexShareName (str "lp://A/B") = Ok (str "A", str "B") /\
  unzipDexShareName (str "lp://A%2FB/C") = Ok (str "A/B", str "C") /\
  unzipDexShareName (str "lp://%/B") = Throw URIError.
Proof. repeat split; reflexivity. Qed.

Lemma unzipDexShareName_rejects_extra_slash :
  ~ dex_share_shape (str "lp://A/B/C") /\
  unzipDexShareName (str "lp://A/B/C") = Throw (NotDexShareName (str "lp://A/B/C")).
Proof.
  assert (H : ~ dex_share_shape (str "lp://A/B/C"))
    by (apply split_dex_share_None; reflexivity).
  split; [exact H|]. apply unzipDexShareName_rejects_other_shapes. exact H.
Defined.

(** ** The matcher on a string of the dex-share shape *)

Lemma nth_error_middle {A} (pre : list A) (u : A) (rest : list A) :
  nth_error (pre ++ u :: rest) (List.length pre) = Some u.
Proof. induction pre as [|a pre IH]; simpl; [reflexivity|exact IH]. Qed.

Lemma nth_error_end {A} (pre : list A) : nth_error pre (List.length pre) = None.
Proof. apply nth_error_None. lia. Qed.

Lemma substring_middle (pre run rest : JSString) :
  substring (pre ++ run ++ rest) (List.length pre) (List.length pre + List.length run)
  = run.
Proof.
  unfold substring. rewrite skipn_app, skipn_all, Nat.sub_diag. simpl.
  replace (List.length pre + List.length run - List.length pre)%nat
    with (List.length run + 0)%nat by lia.
  rewrite firstn_app_2. simpl. apply app_nil_r.
Qed.

Section MatcherSteps.
Variable input : JSString.

Lemma matcher_Char (pre rest : JSString) (ch : Z) (cap : list (option JSString))
    (k : MatcherContinuation) :
  input = pre ++ ch :: rest ->
  matcher input (Char ch) (mkState (List.length pre) cap) k
  = k (mkState (S (List.length pre)) cap).
Proof.
  intros ->. simpl. rewrite nth_error_middle, Z.eqb_refl. reflexivity.
Qed.

Lemma matcher_Seq (r1 r2 : Pattern) (x : MatchState) (k : MatcherContinuation) :
  matcher input (Seq r1 r2) x k
  = matcher input r1 x (fun y => matcher input r2 y k).
Proof. reflexivity. Qed.

Lemma matcher_literal (s pre rest : JSString) (cap : list (option JSString))
    (k : MatcherContinuation) :
  input = pre ++ s ++ rest ->
  matcher input (literal s) (mkState (List.length pre) cap) k
  = k (mkState (List.length pre + List.length s) cap).
Proof.
  revert pre; induction s as [|ch s IH]; intros pre E.
  - simpl. rewrite Nat.add_0_r. reflexivity.
  - simpl literal. rewrite matcher_Seq.
    rewrite (matcher_Char pre (s ++ rest)) by exact E.
    replace (S (List.length pre)) with (List.length (pre ++ [ch]))
      by (rewrite length_app; simpl; lia).
    rewrite IH by (rewrite <- app_assoc; exact E).
    rewrite length_app. simpl. f_equal. f_equal. lia.
Qed.

Lemma matcher_NotChars (cs : list Z) (x : MatchState) (k : MatcherContinuation) :
  matcher input (NotChars cs) x k
  = match nth_error input (endIndex x) with
    | Some u =>
        if existsb (Z.eqb u) cs then None
        else k (mkState (S (endIndex x)) (captures x))
    | None => None
    end.
Proof. reflexivity. Qed.

(** One iteration of a star ([min] 0, no [max]) over an atom without groups. *)
Lemma star_step (m : MatchState -> MatcherContinuation -> option MatchState)
    (fuel : nat) (x : MatchState) (k : MatcherContinuation) :
  RepeatMatcher m (S fuel) 0 None [] x k
  = match m (mkState (endIndex x) (captures x))
            (fun y => if (endIndex y =? endIndex x)%nat then None
                      else RepeatMatcher m fuel 0 None [] y k) with
    | Some z => Some z
    | None => k x
    end.
Proof. reflexivity. Qed.

(** The greedy star over units other than [c] runs to the end of the run and
    hands over there, when the continuation accepts at that point. *)
Lemma star_greedy (c : Z) (k : MatcherContinuation) (z : MatchState)
    (cap : list (option JSString)) (rest : JSString) :
  (rest = [] \/ exists rest', rest = c :: rest') ->
  forall run pre fuel,
    input = pre ++ run ++ rest ->
    ~ In c run ->
    (List.length run < fuel)%nat ->
    k (mkState (List.length pre + List.length run) cap) = Some z ->
    RepeatMatcher (matcher input (NotChars [c])) fuel 0 None []
      (mkState (List.length pre) cap) k = Some z.
Proof.
  intros Hrest. induction run as [|u run IH]; intros pre fuel E Hrun Hfuel Hk;
    (destruct fuel as [|fuel]; [simpl in Hfuel; lia|]);
    rewrite star_step, matcher_NotChars; cbn [endIndex captures].
  - simpl in E, Hk. rewrite Nat.add_0_r in Hk.
    destruct Hrest as [-> | [rest' ->]].
    + rewrite app_nil_r in E. rewrite E at 1. rewrite nth_error_end. exact Hk.
    + rewrite E at 1. rewrite nth_error_middle.
      cbn [existsb]. rewrite Z.eqb_refl. cbn [orb]. exact Hk.
  - rewrite E at 1. cbn [app]. rewrite nth_error_middle.
    assert (Hu : existsb (Z.eqb u) [c] = false).
    { cbn [existsb]. destruct (Z.eqb_spec u c) as [->|]; [|reflexivity].
      exfalso. apply Hrun. left. reflexivity. }
    rewrite Hu.
    replace (S (List.length pre) =? List.length pre)%nat with false
      by (symmetry; apply Nat.eqb_neq; lia).
    replace (S (List.length pre)) with (List.length (pre ++ [u]))
      by (rewrite length_app; simpl; lia).
    rewrite (IH (pre ++ [u]) fuel).
    + reflexivity.
    + rewrite <- app_assoc. exact E.
    + intro Hin. apply Hrun. right. exact Hin.
    + simpl in Hfuel. lia.
    + rewrite length_app. cbn [List.length].
      replace (List.length pre + 1 + List.length run)%nat
        with (List.length pre + S (List.length run))%nat by lia.
      exact Hk.
Qed.
End MatcherSteps.

Section MatcherUnfold.
Variable input : JSString.

Lemma matcher_Group (i : nat) (r : Pattern) (x : MatchState) (k : MatcherContinuation) :
  matcher input (Group i r) x k
  = matcher input r x (fun y =>
      k (mkState (endIndex y)
           (update (i - 1) (Some (substring input (endIndex x) (endIndex y)))
              (captures y)))).
Proof. reflexivity. Qed.

Lemma matcher_Repeat (min : nat) (max : option nat) (r : Pattern) (x : MatchState)
    (k : MatcherContinuation) :
  matcher input (Repeat min max r) x k
  = RepeatMatcher (matcher input r) (S (min + List.length input)) min max
      (group_indices r) x k.
Proof. reflexivity. Qed.

(** One iteration of an optional atom ([min] 0, [max] 1). *)
Lemma optional_step (m : MatchState -> MatcherContinuation -> option MatchState)
    (fuel : nat) (groups : list nat) (x : MatchState) (k : MatcherContinuation) :
  RepeatMatcher m (S fuel) 0 (Some 1%nat) groups x k
  = match m (mkState (endIndex x) (clear_captures groups (captures x)))
            (fun y => if (endIndex y =? endIndex x)%nat then None
                      else RepeatMatcher m fuel 0 (Some O) groups y k) with
    | Some z => Some z
    | None => k x
    end.
Proof. reflexivity. Qed.

Lemma repeat_max_zero (m : MatchState -> MatcherContinuation -> option MatchState)
    (fuel min : nat) (groups : list nat) (x : MatchState) (k : MatcherContinuation) :
  RepeatMatcher m (S fuel) min (Some O) groups x k = k x.
Proof. reflexivity. Qed.

Lemma matcher_AssertStart (cap : list (option JSString)) (k : MatcherContinuation) :
  matcher input AssertStart (mkState 0 cap) k = k (mkState 0 cap).
Proof. reflexivity. Qed.

Lemma exec_from_match (r : Pattern) (ncap fuel lastIndex : nat) (y : MatchState) :
  matcher input r (mkState lastIndex (repeat None ncap)) Some = Some y ->
  exec_from input r ncap fuel lastIndex
  = Some (Some (substring input lastIndex (endIndex y)) :: captures y).
Proof. intro H. destruct fuel; simpl; rewrite H; reflexivity. Qed.
End MatcherUnfold.

(** The tail of the pattern, after the optional group. *)
Lemma reg_tail_match (A B : JSString) (cap1 : option JSString) :
  no_slash B ->
  let input := str "lp://" ++ A ++ str "/" ++ B in
  matcher input
    (Seq (Char (char "/"))
       (Seq (Group 2 (Repeat 0 None (NotChars [char "/"]))) AssertEnd))
    (mkState (List.length (str "lp://" ++ A)) [cap1; None]) Some
  = Some (mkState (List.length input) [cap1; Some B]).
Proof.
  intros HB input.
  rewrite matcher_Seq.
  rewrite (matcher_Char input (str "lp://" ++ A) B)
    by (subst input; rewrite <- app_assoc; reflexivity).
  rewrite matcher_Seq, matcher_Group, matcher_Repeat.
  cbn [group_indices endIndex captures].
  replace (S (List.length (str "lp://" ++ A)))
    with (List.length (str "lp://" ++ A ++ str "/"))
    by (rewrite !length_app; simpl; lia).
  apply (star_greedy input (char "/") _ _ _ [] (or_introl eq_refl) B
           (str "lp://" ++ A ++ str "/")).
  - subst input. rewrite app_nil_r, <- !app_assoc. reflexivity.
  - exact HB.
  - subst input. rewrite !length_app. simpl. lia.
  - cbn [endIndex captures matcher].
    assert (Hlen : (List.length (str "lp://" ++ A ++ str "/") + List.length B)%nat
                   = List.length input)
      by (subst input; rewrite !length_app; simpl; lia).
    rewrite Hlen, Nat.eqb_refl. f_equal. f_equal.
    cbn [update Nat.sub]. f_equal. f_equal. rewrite <- Hlen.
    replace input with ((str "lp://" ++ A ++ str "/") ++ B ++ [])
      by (subst input; rewrite app_nil_r, <- !app_assoc; reflexivity).
    f_equal. apply substring_middle.
Qed.

(** The optional group: it takes the whole first leg, and does not take part
    in the match when the leg is empty. *)
Lemma reg_optional_match (A B : JSString) (k : MatcherContinuation) (z : MatchState) :
  no_slash A ->
  let input := str "lp://" ++ A ++ str "/" ++ B in
  k (mkState (List.length (str "lp://" ++ A)) [group_entry A; None]) = Some z ->
  matcher input
    (Repeat 0 (Some 1%nat) (Group 1 (Repeat 0 None (NotChars [char "/"]))))
    (mkState (List.length (str "lp://")) [None; None]) k = Some z.
Proof.
  intros HA input Hk. rewrite matcher_Repeat, optional_step, matcher_Group.
  rewrite matcher_Repeat.
  cbn [group_indices endIndex captures clear_captures fold_right update Nat.sub app].
  assert (Hcase : A = [] \/ (group_entry A = Some A /\ A <> [])).
  { destruct A; [left; reflexivity|right; split; [reflexivity|discriminate]]. }
  destruct Hcase as [EA | [Hg Hne]].
  - subst A. rewrite star_step, matcher_NotChars. cbn [endIndex captures].
    replace (nth_error input (List.length (str "lp://"))) with (Some (char "/"))
      by reflexivity.
    cbn [existsb]. rewrite Z.eqb_refl. cbn [orb].
    rewrite Nat.eqb_refl. exact Hk.
  - rewrite (star_greedy input (char "/") _ z _ (str "/" ++ B)
               ltac:(right; eexists; reflexivity) A (str "lp://"));
      [reflexivity|reflexivity|exact HA|subst input; rewrite !length_app; simpl; lia|].
    cbn [endIndex captures update].
    replace (List.length (str "lp://") + List.length A =? List.length (str "lp://"))%nat
      with false
      by (symmetry; apply Nat.eqb_neq; destruct A; [congruence|simpl; lia]).
    replace (0 + List.length input)%nat with (S (4 + List.length (A ++ str "/" ++ B)))
      by reflexivity.
    rewrite repeat_max_zero.
    replace (substring input (List.length (str "lp://"))
               (List.length (str "lp://") + List.length A)) with A
      by (symmetry; apply (substring_middle (str "lp://") A (str "/" ++ B))).
    rewrite <- Hg, <- length_app. exact Hk.
Qed.

(** What [exec] returns for the dex-share pattern on a string of the shape. *)
Lemma RegExp_exec_reg (A B : JSString) :
  no_slash A -> no_slash B ->
  let input := str "lp://" ++ A ++ str "/" ++ B in
  RegExp_exec reg 2 input = Some [Some input; group_entry A; Some B].
Proof.
  intros HA HB input. unfold RegExp_exec.
  rewrite (exec_from_match input reg 2 _ 0
             (mkState (List.length input) [group_entry A; Some B])).
  - cbn [endIndex captures]. unfold substring. rewrite Nat.sub_0_r. cbn [skipn].
    rewrite firstn_all. reflexivity.
  - unfold reg. rewrite matcher_Seq, matcher_AssertStart. cbn [repeat].
    rewrite matcher_Seq.
    rewrite (matcher_literal input (str "lp://") [] (A ++ str "/" ++ B) _ _ eq_refl).
    cbn [List.length Nat.add]. rewrite matcher_Seq.
    apply (reg_optional_match A B _ _ HA). apply (reg_tail_match A B _ HB).
Qed.

(** ** decodeURIComponent undoes encodeURIComponent *)

Ltac case_cmp :=
  repeat match goal with
  | |- context [?a <=? ?b] => destruct (Z.leb_spec a b); try lia
  | |- context [?a <? ?b] => destruct (Z.ltb_spec a b); try lia
  | |- context [?a =? ?b] => destruct (Z.eqb_spec a b); try lia
  end.

Lemma hexValue_hexDigit (d : Z) : 0 <= d < 16 -> hexValue (hexDigit d) = Some d.
Proof.
  intro H. unfold hexValue, hexDigit, in_range. eval_chars.
  destruct (Z.ltb_spec d 10); case_cmp; cbn [andb]; f_equal; lia.
Qed.

Lemma ParseHexOctet_escape (b : Z) :
  is_octet b -> ParseHexOctet (hexDigit (b / 16)) (hexDigit (b mod 16)) = Some b.
Proof.
  intro H. unfold is_octet in H. unfold ParseHexOctet.
  rewrite !hexValue_hexDigit by (Z.div_mod_to_equations; lia).
  f_equal. Z.div_mod_to_equations. lia.
Qed.

Lemma hexDigit_not_reserved (d : Z) :
  0 <= d < 16 -> hexDigit d <> char "/" /\ hexDigit d <> char "%".
Proof.
  intro H. unfold hexDigit. eval_chars. destruct (Z.ltb_spec d 10); lia.
Qed.

Lemma continuation_octets_escape (bs : list Z) (R : JSString) :
  Forall is_octet bs ->
  continuation_octets (List.length bs) (escape_octets bs ++ R) = Some (bs, R).
Proof.
  induction 1 as [|b bs Hb Hbs IH]; [reflexivity|].
  cbn [List.length escape_octets flat_map escape_octet app continuation_octets].
  rewrite Z.eqb_refl, (ParseHexOctet_escape b Hb).
  change (flat_map escape_octet bs) with (escape_octets bs). rewrite IH. reflexivity.
Qed.

Lemma UTF8_octets_split (cp : Z) :
  cp / 0x1000 = cp / 0x40 / 0x40 /\ cp / 0x40000 = cp / 0x40 / 0x40 / 0x40.
Proof. rewrite !Z.div_div by lia. split; reflexivity. Qed.

Lemma UTF8_octets_are_octets (cp : Z) :
  0 <= cp < 0x110000 -> Forall is_octet (UTF8_octets cp).
Proof.
  intro H. unfold UTF8_octets, is_octet.
  destruct (UTF8_octets_split cp) as [E1 E2]. rewrite E1, E2.
  case_cmp; repeat constructor; Z.div_mod_to_equations; lia.
Qed.

Lemma UTF8_decode_octets (cp : Z) :
  is_scalar cp -> 0x80 <= cp -> UTF8_decode (UTF8_octets cp) = Some cp.
Proof.
  intros [Hr Hs] Hlo. unfold is_surrogate, in_range in Hs.
  assert (Hs' : cp < 0xD800 \/ 0xDFFF < cp).
  { apply andb_false_iff in Hs as [Hs|Hs]; apply Z.leb_gt in Hs; [left|right]; lia. }
  unfold UTF8_octets. destruct (UTF8_octets_split cp) as [E1 E2]. rewrite E1, E2.
  pose proof (Z.div_mod cp 0x40 ltac:(lia)) as D1.
  pose proof (Z.mod_pos_bound cp 0x40 ltac:(lia)) as B1.
  set (q1 := cp / 0x40) in *. set (r1 := cp mod 0x40) in *.
  pose proof (Z.div_mod q1 0x40 ltac:(lia)) as D2.
  pose proof (Z.mod_pos_bound q1 0x40 ltac:(lia)) as B2.
  set (q2 := q1 / 0x40) in *. set (r2 := q1 mod 0x40) in *.
  pose proof (Z.div_mod q2 0x40 ltac:(lia)) as D3.
  pose proof (Z.mod_pos_bound q2 0x40 ltac:(lia)) as B3.
  set (q3 := q2 / 0x40) in *. set (r3 := q2 mod 0x40) in *.
  clearbody q1 r1 q2 r2 q3 r3.
  destruct (Z.ltb_spec cp 0x80); [lia|].
  destruct (Z.ltb_spec cp 0x800); [|destruct (Z.ltb_spec cp 0x10000)];
    unfold UTF8_decode, is_continuation, in_range;
    case_cmp; cbn [andb orb]; f_equal; lia.
Qed.

Lemma UTF8_octets_leading (cp : Z) :
  0x80 <= cp < 0x110000 ->
  exists b bs,
    UTF8_octets cp = b :: bs /\
    Z.to_nat (leading_ones b - 1) = List.length bs /\
    2 <= leading_ones b <= 4.
Proof.
  intro H. unfold UTF8_octets.
  destruct (UTF8_octets_split cp) as [E1 E2]. rewrite E1, E2.
  destruct (Z.ltb_spec cp 0x80); [lia|].
  destruct (Z.ltb_spec cp 0x800); [|destruct (Z.ltb_spec cp 0x10000)];
    eexists; eexists; (split; [reflexivity|]); unfold leading_ones;
    case_cmp; try (split; [reflexivity|lia]);
    exfalso; Z.div_mod_to_equations; lia.
Qed.

Lemma Decode_copy (c : Z) (fuel : nat) (R : JSString) :
  c <> char "%" ->
  Decode (S fuel) (c :: R) = (R' <- Decode fuel R ;; Ok (c :: R')).
Proof.
  intro H. cbn [Decode]. destruct (Z.eqb_spec c (char "%")); [contradiction|reflexivity].
Qed.

Lemma Decode_escape (cp : Z) (fuel : nat) (R : JSString) :
  is_scalar cp ->
  Decode (S fuel) (escape_octets (UTF8_octets cp) ++ R)
  = (R' <- Decode fuel R ;; Ok (UTF16EncodeCodePoint cp ++ R')).
Proof.
  intros Hs. pose proof Hs as [Hr Hsur].
  pose proof (UTF8_octets_are_octets cp Hr) as Hoct.
  destruct (Z.ltb_spec cp 0x80) as [Hlt|Hge].
  - assert (E : UTF8_octets cp = [cp])
      by (unfold UTF8_octets; destruct (Z.ltb_spec cp 0x80); [reflexivity|lia]).
    rewrite E in *. inversion Hoct as [|? ? Hb _]; subst.
    cbn [escape_octets flat_map escape_octet app Decode].
    rewrite Z.eqb_refl. cbn [negb]. rewrite (ParseHexOctet_escape cp Hb).
    unfold leading_ones, UTF16EncodeCodePoint. case_cmp. reflexivity.
  - destruct (UTF8_octets_leading cp) as [b [bs [E [Hn Hlead]]]]; [lia|].
    pose proof (UTF8_decode_octets cp Hs Hge) as Hdec.
    rewrite E in *. inversion Hoct as [|? ? Hb Hbs]; subst.
    cbn [escape_octets flat_map escape_octet app Decode].
    rewrite Z.eqb_refl. cbn [negb]. rewrite (ParseHexOctet_escape b Hb).
    cbv zeta.
    destruct (Z.eqb_spec (leading_ones b) 0); [lia|].
    destruct (Z.eqb_spec (leading_ones b) 1); [lia|].
    destruct (Z.ltb_spec 4 (leading_ones b)); [lia|]. cbn [orb].
    rewrite Hn. change (flat_map escape_octet bs) with (escape_octets bs).
    rewrite continuation_octets_escape by exact Hbs.
    rewrite Hdec. reflexivity.
Qed.

Lemma escape_octets_length (bs : list Z) :
  List.length (escape_octets bs) = (3 * List.length bs)%nat.
Proof.
  induction bs as [|b bs IH]; [reflexivity|].
  cbn [escape_octets flat_map escape_octet app List.length].
  change (flat_map escape_octet bs) with (escape_octets bs). rewrite IH. lia.
Qed.

Lemma escape_octets_no_slash (bs : list Z) :
  Forall is_octet bs -> no_slash (escape_octets bs).
Proof.
  unfold no_slash. induction 1 as [|b bs Hb Hbs IH]; simpl; [tauto|].
  unfold is_octet in Hb.
  destruct (hexDigit_not_reserved (b / 16)) as [H1 _]; [Z.div_mod_to_equations; lia|].
  destruct (hexDigit_not_reserved (b mod 16)) as [H2 _]; [Z.div_mod_to_equations; lia|].
  intros [E|[E|[E|Hin]]]; [discriminate E|congruence|congruence|].
  apply IH. exact Hin.
Qed.

Lemma UTF8_octets_nonempty (cp : Z) : UTF8_octets cp <> [].
Proof. unfold UTF8_octets. case_cmp; discriminate. Qed.

(** The cases of [encodeURIComponent], as an induction principle. *)
Lemma encodeURIComponent_ind (P : JSString -> JSString -> Prop) :
  P [] [] ->
  (forall c rest R,
     uriUnescaped c = true -> encodeURIComponent rest = Ok R -> P rest R ->
     P (c :: rest) (c :: R)) ->
  (forall c rest R,
     uriUnescaped c = false -> is_surrogate c = false ->
     encodeURIComponent rest = Ok R -> P rest R ->
     P (c :: rest) (escape_octets (UTF8_octets c) ++ R)) ->
  (forall c d rest R,
     uriUnescaped c = false -> is_leading_surrogate c = true ->
     is_trailing_surrogate d = true ->
     encodeURIComponent rest = Ok R -> P rest R ->
     P (c :: d :: rest)
       (escape_octets (UTF8_octets (UTF16SurrogatePairToCodePoint c d)) ++ R)) ->
  forall s r, encodeURIComponent s = Ok r -> P s r.
Proof.
  intros Hnil Hun Hesc Hpair s.
  remember (List.length s) as n eqn:Hn. revert s Hn.
  induction n as [n IH] using lt_wf_ind. intros s Hn r H.
  destruct s as [|c rest]; [injection H as <-; exact Hnil|].
  cbn [encodeURIComponent] in H.
  destruct (uriUnescaped c) eqn:Hu.
  - destruct (encodeURIComponent rest) as [R|] eqn:ER; [|discriminate].
    injection H as <-. apply Hun; [exact Hu|exact ER|].
    eapply IH; [|reflexivity|exact ER]. subst; simpl; lia.
  - destruct (is_surrogate c) eqn:Hs; cbn [negb] in H.
    + destruct (is_trailing_surrogate c) eqn:Ht; [discriminate|].
      destruct rest as [|d rest']; [discriminate|].
      destruct (is_trailing_surrogate d) eqn:Hd; [|discriminate].
      destruct (encodeURIComponent rest') as [R|] eqn:ER; [|discriminate].
      injection H as <-. apply Hpair; [exact Hu| |exact Hd|exact ER|].
      * unfold is_surrogate, is_trailing_surrogate, is_leading_surrogate, in_range in *.
        bool_to_prop.
        apply andb_false_iff in Ht. apply andb_true_iff. split; apply Z.leb_le; lia.
      * eapply IH; [|reflexivity|exact ER]. subst; simpl; lia.
    + destruct (encodeURIComponent rest) as [R|] eqn:ER; [|discriminate].
      injection H as <-. apply Hesc; [exact Hu|exact Hs|exact ER|].
      eapply IH; [|reflexivity|exact ER]. subst; simpl; lia.
Qed.

Lemma uriUnescaped_not_reserved (c : Z) :
  uriUnescaped c = true -> c <> char "/" /\ c <> char "%".
Proof. intro H. split; intros ->; vm_compute in H; discriminate. Qed.

Lemma no_slash_app (a b : JSString) : no_slash a -> no_slash b -> no_slash (a ++ b).
Proof. unfold no_slash. intros Ha Hb Hin. apply in_app_or in Hin. tauto. Qed.

Lemma surrogate_pair_scalar (c d : Z) :
  is_leading_surrogate c = true -> is_trailing_surrogate d = true ->
  is_scalar (UTF16SurrogatePairToCodePoint c d) /\
  UTF16EncodeCodePoint (UTF16SurrogatePairToCodePoint c d) = [c; d].
Proof.
  unfold is_leading_surrogate, is_trailing_surrogate, in_range. intros Hc Hd.
  bool_to_prop. unfold is_scalar, is_surrogate, in_range,
    UTF16SurrogatePairToCodePoint, UTF16EncodeCodePoint.
  split; [split; [lia|]|].
  - apply andb_false_iff. right. apply Z.leb_gt. lia.
  - destruct (Z.leb_spec ((c - 0xD800) * 0x400 + (d - 0xDC00) + 0x10000) 0xFFFF); [lia|].
    f_equal; [|f_equal]; Z.div_mod_to_equations; lia.
Qed.

Lemma code_unit_scalar (c : Z) :
  is_code_unit c = true -> is_surrogate c = false ->
  is_scalar c /\ UTF16EncodeCodePoint c = [c].
Proof.
  unfold is_code_unit, is_scalar, UTF16EncodeCodePoint. intros Hc Hs. bool_to_prop.
  split; [split; [lia|exact Hs]|]. destruct (Z.leb_spec c 0xFFFF); [reflexivity|lia].
Qed.

Lemma isWellFormed_cons (c : Z) (rest : JSString) :
  is_surrogate c = false -> isWellFormed (c :: rest) = true ->
  is_code_unit c = true /\ isWellFormed rest = true.
Proof.
  intros Hs H. cbn [isWellFormed] in H. rewrite Hs in H. cbn [negb] in H.
  apply andb_true_iff in H. exact H.
Qed.

Lemma leading_is_surrogate (c : Z) :
  is_leading_surrogate c = true -> is_surrogate c = true.
Proof.
  unfold is_leading_surrogate, is_surrogate, in_range. intro H. bool_to_prop.
  apply andb_true_iff. split; apply Z.leb_le; lia.
Qed.

Lemma isWellFormed_pair (c d : Z) (rest : JSString) :
  is_leading_surrogate c = true -> isWellFormed (c :: d :: rest) = true ->
  isWellFormed rest = true.
Proof.
  intros Hl H. cbn [isWellFormed] in H.
  rewrite (leading_is_surrogate c Hl), Hl in H. cbn [negb] in H.
  apply andb_true_iff in H. apply H.
Qed.

Lemma encodeURIComponent_no_slash (s r : JSString) :
  encodeURIComponent s = Ok r -> isWellFormed s = true ->
  no_slash r /\ (s <> [] -> r <> []).
Proof.
  intro H. revert s r H.
  apply (encodeURIComponent_ind
           (fun s r => isWellFormed s = true -> no_slash r /\ (s <> [] -> r <> []))).
  - intros _. split; [intros []|congruence].
  - intros c rest R Hu _ IH Hwf.
    apply isWellFormed_cons in Hwf as [_ Hwf];
      [|apply uriUnescaped_not_surrogate, Hu].
    destruct (IH Hwf) as [IH1 _]. split; [|discriminate].
    intros [E|Hin]; [|exact (IH1 Hin)].
    apply (proj1 (uriUnescaped_not_reserved c Hu)). exact E.
  - intros c rest R _ Hs _ IH Hwf.
    apply isWellFormed_cons in Hwf as [Hc Hwf]; [|exact Hs].
    destruct (IH Hwf) as [IH1 _].
    destruct (code_unit_scalar c Hc Hs) as [[Hr _] _].
    split.
    + apply no_slash_app; [|exact IH1].
      apply escape_octets_no_slash, UTF8_octets_are_octets, Hr.
    + intros _ E. apply app_eq_nil in E as [E _].
      apply (f_equal (@List.length Z)) in E. rewrite escape_octets_length in E.
      pose proof (UTF8_octets_nonempty c).
      destruct (UTF8_octets c); [congruence|discriminate].
  - intros c d rest R _ Hl Hd _ IH Hwf.
    apply isWellFormed_pair in Hwf; [|exact Hl].
    destruct (IH Hwf) as [IH1 _].
    destruct (surrogate_pair_scalar c d Hl Hd) as [[Hr _] _].
    split.
    + apply no_slash_app; [|exact IH1].
      apply escape_octets_no_slash, UTF8_octets_are_octets, Hr.
    + intros _ E. apply app_eq_nil in E as [E _].
      apply (f_equal (@List.length Z)) in E. rewrite escape_octets_length in E.
      pose proof (UTF8_octets_nonempty (UTF16SurrogatePairToCodePoint c d)).
      destruct (UTF8_octets (UTF16SurrogatePairToCodePoint c d));
        [congruence|discriminate].
Qed.

Lemma Decode_encodeURIComponent (s r : JSString) :
  encodeURIComponent s = Ok r -> isWellFormed s = true ->
  forall fuel, (List.length r <= fuel)%nat -> Decode fuel r = Ok s.
Proof.
  intro H. revert s r H.
  apply (encodeURIComponent_ind
           (fun s r => isWellFormed s = true ->
              forall fuel, (List.length r <= fuel)%nat -> Decode fuel r = Ok s)).
  - intros _ fuel _. destruct fuel; reflexivity.
  - intros c rest R Hu _ IH Hwf fuel Hfuel.
    apply isWellFormed_cons in Hwf as [_ Hwf];
      [|apply uriUnescaped_not_surrogate, Hu].
    destruct fuel as [|fuel]; [simpl in Hfuel; lia|].
    rewrite Decode_copy by (apply uriUnescaped_not_reserved, Hu).
    rewrite (IH Hwf) by (simpl in Hfuel; lia). reflexivity.
  - intros c rest R _ Hs _ IH Hwf fuel Hfuel.
    apply isWellFormed_cons in Hwf as [Hc Hwf]; [|exact Hs].
    destruct (code_unit_scalar c Hc Hs) as [Hsc Hu16].
    destruct fuel as [|fuel];
      [rewrite length_app, escape_octets_length in Hfuel;
       pose proof (UTF8_octets_nonempty c); destruct (UTF8_octets c);
       [congruence|simpl in Hfuel; lia]|].
    rewrite (Decode_escape c fuel R Hsc), Hu16.
    rewrite (IH Hwf); [reflexivity|].
    rewrite length_app, escape_octets_length in Hfuel.
    pose proof (UTF8_octets_nonempty c). destruct (UTF8_octets c);
      [congruence|simpl in Hfuel; lia].
  - intros c d rest R _ Hl Hd _ IH Hwf fuel Hfuel.
    apply isWellFormed_pair in Hwf; [|exact Hl].
    destruct (surrogate_pair_scalar c d Hl Hd) as [Hsc Hu16].
    set (cp := UTF16SurrogatePairToCodePoint c d) in *.
    destruct fuel as [|fuel];
      [rewrite length_app, escape_octets_length in Hfuel;
       pose proof (UTF8_octets_nonempty cp); destruct (UTF8_octets cp);
       [congruence|simpl in Hfuel; lia]|].
    rewrite (Decode_escape cp fuel R Hsc), Hu16.
    rewrite (IH Hwf); [reflexivity|].
    rewrite length_app, escape_octets_length in Hfuel.
    pose proof (UTF8_octets_nonempty cp). destruct (UTF8_octets cp);
      [congruence|simpl in Hfuel; lia].
Qed.

(** Round trip of the two built-ins: on a well-formed string
    [encodeURIComponent] returns a string without a slash, empty only for
    the empty string, that [decodeURIComponent] takes back to the original. *)
Lemma decodeURIComponent_encodeURIComponent (s : JSString) :
  isWellFormed s = true ->
  exists r,
    encodeURIComponent s = Ok r /\ decodeURIComponent r = Ok s /\
    no_slash r /\ (s <> [] -> r <> []).
Proof.
  intro Hwf. destruct (encodeURIComponent_defined s Hwf) as [r Hr].
  exists r. split; [exact Hr|]. split.
  - apply (Decode_encodeURIComponent s r Hr Hwf). lia.
  - apply (encodeURIComponent_no_slash s r Hr Hwf).
Qed.

(** ** createDexShareName and unzipDexShareName *)

Lemma unzipDexShareName_shape (A B : JSString) :
  no_slash A -> no_slash B ->
  unzipDexShareName (str "lp://" ++ A ++ str "/" ++ B)
  = (n0 <- decodeURIComponent (ToString_entry (group_entry A)) ;;
     n1 <- decodeURIComponent B ;;
     Ok (n0, n1)).
Proof.
  intros HA HB. unfold unzipDexShareName.
  change (isDexShareName (str "lp://" ++ A ++ str "/" ++ B)) with true.
  cbn [negb]. rewrite (RegExp_exec_reg A B HA HB). reflexivity.
Qed.

(** C1, as the code has it.  For every pair of well-formed names [(n0, n1)]
    with [n0] not empty, [createDexShareName] returns a name and
    [unzipDexShareName] of that name returns [[n0, n1]]: each leg is
    percent-encoded on its own, no slash or other reserved character of a leg
    stays in the name, and decoding gives the legs back, also when a leg is
    itself a dex-share name. *)
Theorem unzipDexShareName_createDexShareName (n0 n1 : JSString) :
  valid_name n0 -> valid_name n1 -> n0 <> [] ->
  exists n, createDexShareName n0 n1 = Ok n /\ unzipDexShareName n = Ok (n0, n1).
Proof.
  intros H0 H1 Hne.
  destruct (decodeURIComponent_encodeURIComponent n0 H0) as [e0 [E0 [D0 [S0 N0]]]].
  destruct (decodeURIComponent_encodeURIComponent n1 H1) as [e1 [E1 [D1 [S1 _]]]].
  unfold createDexShareName. rewrite E0, E1. cbn [bind].
  eexists. split; [reflexivity|].
  rewrite (unzipDexShareName_shape e0 e1 S0 S1).
  assert (Hg : group_entry e0 = Some e0)
    by (destruct e0; [exfalso; apply (N0 Hne); reflexivity|reflexivity]).
  rewrite Hg. cbn [ToString_entry]. rewrite D0, D1. reflexivity.
Qed.

Lemma unzipDexShareName_createDexShareName_nested :
  let n0 := str "lp://SETM/SERP" in
  let n1 := str "a/b c%" in
  valid_name n0 /\ valid_name n1 /\ n0 <> [] /\
  exists n, createDexShareName n0 n1 = Ok n /\ unzipDexShareName n = Ok (n0, n1).
Proof.
  intros n0 n1. split; [reflexivity|]. split; [reflexivity|]. split; [discriminate|].
  apply (unzipDexShareName_createDexShareName n0 n1);
    [reflexivity|reflexivity|discriminate].
Defined.

(** The empty first leg.  For every name [n1], [createDexShareName("", n1)]
    is [lp:///] followed by the encoded [n1]; on that string group 1 of the
    pattern, being optional around a possibly-empty match, does not take part
    in the match, the entry of the result array is [undefined], and
    [decodeURIComponent(undefined)] is the string "undefined":
    [unzipDexShareName] returns ["undefined", n1] and not ["", n1]. *)
Lemma unzipDexShareName_empty_first_leg (n1 : JSString) :
  valid_name n1 ->
  exists n,
    createDexShareName [] n1 = Ok n /\
    unzipDexShareName n = Ok (str "undefined", n1) /\
    unzipDexShareName n <> Ok ([], n1).
Proof.
  intros H1.
  destruct (decodeURIComponent_encodeURIComponent n1 H1) as [e1 [E1 [D1 [S1 _]]]].
  unfold createDexShareName. cbn [encodeURIComponent bind]. rewrite E1. cbn [bind].
  eexists. split; [reflexivity|].
  assert (Hu : unzipDexShareName (str "lp://" ++ [] ++ str "/" ++ e1)
               = Ok (str "undefined", n1)).
  { rewrite (unzipDexShareName_shape [] e1 (fun H => H) S1).
    cbn [group_entry ToString_entry].
    replace (decodeURIComponent (str "undefined")) with (Ok (str "undefined"))
      by reflexivity.
    cbn [bind]. rewrite D1. reflexivity. }
  split; [exact Hu|]. rewrite Hu. discriminate.
Qed.

Lemma unzipDexShareName_empty_first_leg_SERP :
  valid_name (str "SERP") /\
  exists n,
    createDexShareName (str "") (str "SERP") = Ok n /\
    unzipDexShareName n = Ok (str "undefined", str "SERP") /\
    unzipDexShareName n <> Ok (str "", str "SERP").
Proof.
  split; [reflexivity|].
  apply (unzipDexShareName_empty_first_leg (str "SERP")). reflexivity.
Defined.

(** C1 as stated fails on a name with an unpaired surrogate, which
    [encodeURIComponent] rejects, and on an empty first name, which comes
    back as "undefined". *)
Lemma unzipDexShareName_createDexShareName_fails :
  createDexShareName [0xD800] (str "SERP") = Throw URIError /\
  createDexShareName (str "") (str "SERP") = Ok (str "lp:///SERP") /\
  unzipDexShareName (str "lp:///SERP") = Ok (str "undefined", str "SERP").
Proof. repeat split; reflexivity. Qed.

Example unzipDexShareName_nested :
  createDexShareName (str "lp://SETM/SERP") (str "a/b c")
    = Ok (str "lp://lp%3A%2F%2FSETM%2FSERP/a%2Fb%20c") /\
  unzipDexShareName (str "lp://lp%3A%2F%2FSETM%2FSERP/a%2Fb%20c")
    = Ok (str "lp://SETM/SERP", str "a/b c").
Proof. split; reflexivity. Qed.

(** ** forceToCurrencyName and forceToCurrencyId *)

Lemma try_catch_rethrow {A} (body : Result A) (e0 e : Error) :
  try_catch body (fun _ => Throw e0) = Throw e -> e = e0.
Proof. destruct body; simpl; [discriminate|]. intros [= <-]. reflexivity. Qed.

(** A failure of [forceToCurrencyName] carries the argument of that call. *)
Lemma forceToCurrencyName_error_carries_target (target : MaybeCurrency) (e : Error) :
  forceToCurrencyName target = Throw e -> e = ConvertToCurrencyNameFailed target.
Proof.
  destruct target as [s|n0 n1|t|c]; cbn [forceToCurrencyName];
    try apply try_catch_rethrow.
  destruct c; cbn [forceToCurrencyName_CurrencyId]; apply try_catch_rethrow.
Qed.

(** A failure of [forceToCurrencyId] does not depend on the argument: it
    carries the global [origin], or is a ReferenceError where no such global
    exists. *)
Lemma forceToCurrencyId_error_carries_global (g : GlobalScope) (api : AnyApi)
    (target : MaybeCurrency) (e : Error) :
  forceToCurrencyId g api target = Throw e ->
  e = match global_origin g with
      | Some origin => ConvertToCurrencyIdFailed (MC_string origin)
      | None => ReferenceError (str "origin")
      end.
Proof.
  unfold forceToCurrencyId.
  destruct (name_ <- forceToCurrencyName target ;;
            obj <- getCurrencyObject name_ ;; createType_CurrencyId api obj);
    cbn [try_catch]; [discriminate|].
  destruct (global_origin g); intros [= <-]; reflexivity.
Qed.

(** C4 fails for [forceToCurrencyId].  On the name [lp://SETM], which is no
    dex-share name, the conversion fails whatever the api; in a page of
    origin [https://app.example] the error that is raised carries that
    origin string and not the target, and where there is no global [origin]
    a ReferenceError is raised instead of ConvertToCurrencyIdFailed.
    [forceToCurrencyName] on a pair it cannot encode does carry its target. *)
Theorem forceToCurrencyId_error_loses_target (api : AnyApi) :
  let target := MC_string (str "lp://SETM") in
  let page := mkGlobal (Some (str "https://app.example")) in
  let no_dom := mkGlobal None in
  forceToCurrencyId page api target
    = Throw (ConvertToCurrencyIdFailed (MC_string (str "https://app.example")))
  /\ forceToCurrencyId page api target <> Throw (ConvertToCurrencyIdFailed target)
  /\ forceToCurrencyId no_dom api target = Throw (ReferenceError (str "origin"))
  /\ forceToCurrencyName (MC_pair [0xD800] (str "SERP"))
     = Throw (ConvertToCurrencyNameFailed (MC_pair [0xD800] (str "SERP"))).
Proof.
  intros target page no_dom.
  assert (H : forceToCurrencyId page api target
              = Throw (ConvertToCurrencyIdFailed (MC_string (str "https://app.example"))))
    by reflexivity.
  split; [exact H|]. split; [rewrite H; discriminate|]. split; reflexivity.
Qed.

(** ** FixedPointNumber: the operations are exact *)

Lemma pow10_pos (p : N) : 0 < 10 ^ Z.of_N p.
Proof. apply Z.pow_pos_nonneg; lia. Qed.

Lemma FN_den (a : FixedPointNumber) :
  Z.pos (Z.to_pos (10 ^ Z.of_N (precision a))) = 10 ^ Z.of_N (precision a).
Proof. apply Z2Pos.id, pow10_pos. Qed.







(** ** Streams *)

Lemma until_error_In {A} (s : Stream A) (x : nat * Notification A) :
  In x (until_error s) -> In x s.
Proof.
  induction s as [|[t [a|e]] s IH]; simpl; [tauto| |].
  - intros [H|H]; [left; exact H|right; apply IH, H].
  - intros [H|[]]. left. exact H.
Qed.

Lemma rx_map_In {A B} (project : A -> Result B) (o : Observable A)
    (now t : nat) (b : B) :
  In (t, Next b) (rx_map project o now) ->
  exists a, project a = Ok b /\ In (t, Next a) (o now).
Proof.
  unfold rx_map. intro H. apply until_error_In in H.
  apply in_map_iff in H as [[t' n] [E Hin]]. cbn [fst snd] in E.
  destruct n as [a|e]; [|discriminate].
  destruct (project a) as [b'|e] eqn:Ep; [|discriminate].
  injection E as <- <-. exists a. split; [exact Ep|exact Hin].
Qed.

Lemma switch_streams_In {A B} (project : A -> Observable B) (outer : Stream A)
    (t : nat) (b : B) :
  In (t, Next b) (switch_streams project outer) ->
  exists a t0, In (t0, Next a) outer /\ In (t, Next b) (project a t0).
Proof.
  induction outer as [|[t0 [a|e]] rest IH]; cbn [switch_streams]; [intros []| |].
  - destruct rest as [|[t' n'] rest'].
    + intro H. exists a, t0. split; [left; reflexivity|exact H].
    + intro H. apply in_app_or in H as [H|H].
      * apply filter_In in H as [H _]. exists a, t0. split; [left; reflexivity|exact H].
      * destruct (IH H) as [a' [t1 [H1 H2]]]. exists a', t1.
        split; [right; exact H1|exact H2].
  - intros [H|[]]. discriminate.
Qed.

Lemma switchMap_In {A B} (project : A -> Observable B) (o : Observable A)
    (now t : nat) (b : B) :
  In (t, Next b) (switchMap project o now) ->
  exists a t0, In (t0, Next a) (o now) /\ In (t, Next b) (project a t0).
Proof. unfold switchMap. intro H. apply until_error_In in H. apply switch_streams_In, H. Qed.

(** ** subscribeBalance *)



(** ** subscribePrice *)

(** C8, as the code has it.  When the name of the token resolves and no
    PriceProvider is configured for the price-source type that
    [subscribePrice] resolves (the [type] argument, or else the configured
    source of the chain for the name, or else MARKET), [subscribePrice]
    returns [of(FN.ZERO)], the stream of the one value zero, and raises
    nothing. *)
Theorem subscribePrice_without_provider {PoolDetail} (ext : Collaborators PoolDetail)
    (w : Wallet) (token_ : MaybeCurrency) (type_ : option PriceProviderType)
    (name_ : JSString) :
  forceToCurrencyName token_ = Ok name_ ->
  priceProviders w (resolved_price_type ext w name_ type_) = None ->
  Wallet_subscribePrice ext w token_ type_ = Ok (rx_of FN_ZERO)
  /\ forall now, firstValueFrom (rx_of FN_ZERO) now = Fulfilled FN_ZERO.
Proof.
  intros Hname Hnone. split; [|reflexivity].
  unfold Wallet_subscribePrice, memoize. cbn [subscribePrice_rec].
  rewrite Hname. cbn [bind].
  destruct (resolved_price_type ext w name_ type_); rewrite Hnone; reflexivity.
Qed.

Lemma subscribePrice_without_provider_sample :
  forceToCurrencyName (MC_string (str "lp://SETM/SERP")) = Ok (str "lp://SETM/SERP") /\
  priceProviders sample_wallet
    (resolved_price_type sample_collaborators sample_wallet (str "lp://SETM/SERP") None)
  = None /\
  Wallet_subscribePrice sample_collaborators sample_wallet
    (MC_string (str "lp://SETM/SERP")) None = Ok (rx_of FN_ZERO).
Proof.
  split; [reflexivity|]. split; [reflexivity|].
  apply (subscribePrice_without_provider sample_collaborators sample_wallet
           (MC_string (str "lp://SETM/SERP")) None (str "lp://SETM/SERP"));
    reflexivity.
Defined.

(** C8 as stated fails for a token whose name does not resolve: the name
    is asked for first, and with no provider configured at all
    [subscribePrice] raises ConvertToCurrencyNameFailed instead of returning
    the zero stream. *)
Lemma subscribePrice_unresolved_name_throws :
  let target := MC_pair [0xD800] (str "SERP") in
  priceProviders sample_wallet MARKET = None /\
  priceProviders sample_wallet ORACLE = None /\
  Wallet_subscribePrice sample_collaborators sample_wallet target (Some ORACLE)
  = Throw (ConvertToCurrencyNameFailed target) /\
  Wallet_subscribePrice sample_collaborators sample_wallet target (Some ORACLE)
  <> Ok (rx_of FN_ZERO).
Proof.
  intro target. split; [reflexivity|]. split; [reflexivity|].
  assert (E : Wallet_subscribePrice sample_collaborators sample_wallet target
                (Some ORACLE) = Throw (ConvertToCurrencyNameFailed target))
    by reflexivity.
  split; [exact E|]. rewrite E. discriminate.
Qed.

(** ** The ready gate *)

Lemma no_error_asObservable {A} (s : BehaviorSubject A) (now : nat) :
  no_error (asObservable s now).
Proof.
  intros t e [H|H]; [discriminate|].
  apply in_map_iff in H as [x [E _]]. discriminate.
Qed.

Lemma no_error_until_error {A} (s : Stream A) : no_error s -> no_error (until_error s).
Proof. intros H t e Hin. apply (H t e), until_error_In, Hin. Qed.

Lemma no_error_filter {A} (p : nat * Notification A -> bool) (s : Stream A) :
  no_error s -> no_error (filter p s).
Proof. intros H t e Hin. apply filter_In in Hin as [Hin _]. exact (H t e Hin). Qed.

Lemma no_error_map_total {A B} (f : A -> B) (o : Observable A) (now : nat) :
  no_error (o now) -> no_error (rx_map (fun a => Ok (f a)) o now).
Proof.
  intros H t e Hin. unfold rx_map in Hin. apply until_error_In in Hin.
  apply in_map_iff in Hin as [[t' n] [E Hin]]. cbn [fst snd] in E.
  destruct n as [a|e']; [discriminate|]. injection E as <- <-. exact (H _ _ Hin).
Qed.

Lemma no_error_switch_streams {A B} (project : A -> Observable B) (outer : Stream A) :
  no_error outer -> (forall a t, no_error (project a t)) ->
  no_error (switch_streams project outer).
Proof.
  intros Ho Hp. induction outer as [|[t0 [a|e]] rest IH]; cbn [switch_streams].
  - intros t e [].
  - assert (Hrest : no_error rest) by (intros t e Hin; apply (Ho t e); right; exact Hin).
    destruct rest as [|[t' n'] rest']; [apply Hp|].
    intros t e Hin. apply in_app_or in Hin as [Hin|Hin].
    + apply filter_In in Hin as [Hin _]. exact (Hp _ _ _ _ Hin).
    + exact (IH Hrest _ _ Hin).
  - exfalso. apply (Ho t0 e). left. reflexivity.
Qed.

Lemma no_error_subscribeTokens (w : Wallet) (type_ : option TokenType) (now : nat) :
  no_error (Wallet_subscribeTokens w type_ now).
Proof.
  unfold Wallet_subscribeTokens, memoize, switchMap, shareReplay.
  apply no_error_until_error, no_error_switch_streams.
  - unfold rx_filter. apply no_error_filter, no_error_asObservable.
  - intros _ t. apply no_error_map_total, no_error_asObservable.
Qed.

Lemma firstValueFrom_Rejected {A} (o : Observable A) (now : nat) (e : Error) :
  firstValueFrom o now = Rejected e -> exists t, In (t, Error_ e) (o now).
Proof.
  unfold firstValueFrom. destruct (o now) as [|[t [a|e']] s]; try discriminate.
  intros [= ->]. exists t. left. reflexivity.
Qed.

(** The pushes of [true] that a subscriber at [now] sees. *)
Lemma ready_pushes_false (l : list (nat * bool)) (now : nat) :
  (forall t b, In (t, b) l -> (now < t)%nat -> b = false) ->
  filter (fun n : nat * Notification bool =>
            match snd n with Next a => a | Error_ _ => true end)
    (map (fun e => (fst e, Next (snd e))) (filter (fun e => (now <? fst e)%nat) l))
  = [].
Proof.
  induction l as [|[t b] l IH]; intro H; [reflexivity|].
  cbn [filter fst]. destruct (Nat.ltb_spec now t).
  - cbn [map filter fst snd]. rewrite (H t b) by (try left; auto).
    apply IH. intros; eapply H; [right|]; eassumption.
  - apply IH. intros; eapply H; [right|]; eassumption.
Qed.

Lemma ready_pushes_after (l : list (nat * bool)) (now t : nat) :
  (forall t' b, In (t', b) l -> (t < t')%nat) ->
  Forall (fun n : nat * Notification bool => (t < fst n)%nat)
    (filter (fun n : nat * Notification bool =>
               match snd n with Next a => a | Error_ _ => true end)
       (map (fun e => (fst e, Next (snd e))) (filter (fun e => (now <? fst e)%nat) l))).
Proof.
  intro H. apply Forall_forall. intros [t' n] Hin.
  apply filter_In in Hin as [Hin _]. apply in_map_iff in Hin as [[t'' b] [E Hin]].
  apply filter_In in Hin as [Hin _]. cbn [fst snd] in E. injection E as <- <-.
  cbn [fst]. eapply H. exact Hin.
Qed.

(** The head of [switchMap] on an outer stream whose first value arrives at
    [t] and whose later notifications come after [t]. *)
Lemma switch_streams_head {A B} (project : A -> Observable B) (a : A) (t : nat)
    (rest : Stream A) (b : B) (inner : Stream B) :
  project a t = (t, Next b) :: inner ->
  Forall (fun n => (t < fst n)%nat) rest ->
  exists s, until_error (switch_streams project ((t, Next a) :: rest))
            = (t, Next b) :: s.
Proof.
  intros Hp Hrest. cbn [switch_streams]. rewrite Hp.
  destruct rest as [|[t' n'] rest']; [eexists; reflexivity|].
  inversion Hrest as [|? ? Ht _]; subst. cbn [fst] in Ht.
  cbn [filter fst]. apply Nat.ltb_lt in Ht. rewrite Ht.
  eexists. reflexivity.
Qed.

(** C6, as the code has it.  While [isReady$] holds [false]:
    [getPresetTokens] raises SDKNotReady('wallet'); [getTokens], a
    [firstValueFrom] of the continuous form, is never rejected: its promise
    is pending (and the continuous form emits nothing) as long as no [true]
    is pushed to [isReady$], and it is fulfilled with the token list of that
    instant when [true] is pushed.  [getToken] and [getBalance], on a target
    whose name resolves, are pending as well as long as no [true] is
    pushed. *)
Theorem snapshot_before_ready (w : Wallet) (type_ : option TokenType) (now : nat) :
  Subject_value (isReady_ w) now = false ->
  Wallet_getPresetTokens w now = Throw (SDKNotReady (str "wallet"))
  /\ (forall e, Wallet_getTokens w type_ now <> Rejected e)
  /\ ((forall t b, In (t, b) (pushed (isReady_ w)) -> (now < t)%nat -> b = false) ->
      Wallet_subscribeTokens w type_ now = [] /\
      Wallet_getTokens w type_ now = Pending)
  /\ (forall before after t,
        pushed (isReady_ w) = before ++ (t, true) :: after ->
        (forall t' b, In (t', b) before -> (now < t')%nat -> b = false) ->
        (now < t)%nat ->
        (forall t' b, In (t', b) after -> (t < t')%nat) ->
        Wallet_getTokens w type_ now
        = Fulfilled (filter_tokens type_ (Subject_value (tokens_ w) t)))
  /\ ((forall t b, In (t, b) (pushed (isReady_ w)) -> (now < t)%nat -> b = false) ->
      forall target name_,
        forceToCurrencyName target = Ok name_ ->
        Wallet_getToken w target now = Pending /\
        forall PoolDetail (ext : Collaborators PoolDetail) address,
          Wallet_getBalance ext w target address now = Pending).
Proof.
  intro Hready. split; [|split; [|split; [|split]]].
  - unfold Wallet_getPresetTokens. rewrite Hready. reflexivity.
  - intros e H. apply firstValueFrom_Rejected in H as [t H].
    exact (no_error_subscribeTokens w type_ now t e H).
  - intro Hfalse.
    assert (E : Wallet_subscribeTokens w type_ now = []).
    { unfold Wallet_subscribeTokens, memoize, switchMap, rx_filter, asObservable.
      cbn [filter snd]. rewrite Hready, (ready_pushes_false _ _ Hfalse). reflexivity. }
    split; [exact E|]. unfold Wallet_getTokens, firstValueFrom. rewrite E. reflexivity.
  - intros before after t Hpushed Hbefore Hnow Hafter.
    unfold Wallet_getTokens, firstValueFrom.
    assert (E : exists s, Wallet_subscribeTokens w type_ now
                          = (t, Next (filter_tokens type_ (Subject_value (tokens_ w) t))) :: s).
    { unfold Wallet_subscribeTokens, memoize, switchMap, rx_filter.
      unfold asObservable at 2. cbn [filter snd]. rewrite Hready, Hpushed.
      rewrite filter_app, map_app, filter_app, (ready_pushes_false _ _ Hbefore).
      cbn [filter fst app]. apply Nat.ltb_lt in Hnow. rewrite Hnow.
      cbn [map filter fst snd].
      eapply switch_streams_head.
      - unfold shareReplay, rx_map, asObservable. cbn [map until_error fst snd].
        reflexivity.
      - apply ready_pushes_after. exact Hafter. }
    destruct E as [s ->]. reflexivity.
  - intros Hfalse target name_ Hname.
    assert (E : Wallet_subscribeTokens w None now = []).
    { unfold Wallet_subscribeTokens, memoize, switchMap, rx_filter, asObservable.
      cbn [filter snd]. rewrite Hready, (ready_pushes_false _ _ Hfalse). reflexivity. }
    split.
    + unfold Wallet_getToken, Wallet_subscribeToken, memoize, async.
      rewrite Hname. cbn [bind]. unfold firstValueFrom, rx_map. rewrite E. reflexivity.
    + intros PoolDetail ext address.
      unfold Wallet_getBalance, Wallet_subscribeBalance, Wallet_subscribeToken,
        memoize, async.
      rewrite Hname. cbn [bind]. unfold firstValueFrom, switchMap, rx_map.
      rewrite E. reflexivity.
Qed.

Lemma snapshot_before_ready_started_wallet :
  Subject_value (isReady_ started_wallet) 1 = false /\
  Wallet_getPresetTokens started_wallet 1 = Throw (SDKNotReady (str "wallet")) /\
  Wallet_getTokens started_wallet None 1 = Fulfilled sample_tokens /\
  Wallet_getTokens fresh_wallet None 1 = Pending /\
  forceToCurrencyName (MC_string (str "SETM")) = Ok (str "SETM") /\
  Wallet_getToken fresh_wallet (MC_string (str "SETM")) 1 = Pending /\
  Wallet_getBalance sample_collaborators fresh_wallet (MC_string (str "SETM"))
    (str "5Grw") 1 = Pending.
Proof.
  split; [reflexivity|].
  destruct (snapshot_before_ready started_wallet None 1 eq_refl) as [H1 [_ [_ [H4 _]]]].
  split; [exact H1|]. split.
  - apply (H4 [] [] 4%nat); [reflexivity|intros ? ? []|repeat constructor|intros ? ? []].
  - destruct (snapshot_before_ready fresh_wallet None 1 eq_refl) as [_ [_ [H3 [_ H5]]]].
    split; [apply H3; intros ? ? []|]. split; [reflexivity|].
    destruct (H5 (fun t b (H : In (t, b) []) => match H with end)
                (MC_string (str "SETM")) (str "SETM") eq_refl) as [Htoken Hbalance].
    split; [exact Htoken|apply Hbalance].
Defined.

(** C6 as stated fails for [getTokens]: called on a wallet that is not ready
    it returns a pending promise, not a rejection with SDKNotReady. *)
Lemma getTokens_before_ready_is_pending :
  Subject_value (isReady_ fresh_wallet) 0 = false /\
  Wallet_getTokens fresh_wallet None 0 = Pending /\
  (forall n, Wallet_getTokens fresh_wallet None 0 <> Rejected (SDKNotReady n)).
Proof.
  split; [reflexivity|]. split; [reflexivity|]. intros n H. discriminate H.
Qed.

(** ** The recursions over nested names end *)

Lemma continuation_octets_length (j : nat) (s : JSString) (bs : list Z) (r : JSString) :
  continuation_octets j s = Some (bs, r) -> (List.length r <= List.length s)%nat.
Proof.
  revert s bs r; induction j as [|j IH]; intros s bs r H; cbn [continuation_octets] in H.
  - injection H as _ <-. lia.
  - destruct s as [|p [|h1 [|h2 rest]]]; try discriminate.
    destruct (p =? char "%"); [|discriminate].
    destruct (ParseHexOctet h1 h2); [|discriminate].
    destruct (continuation_octets j rest) as [[bs' r']|] eqn:E; [|discriminate].
    injection H as _ <-. apply IH in E. simpl. lia.
Qed.

Lemma UTF16EncodeCodePoint_length (cp : Z) :
  (List.length (UTF16EncodeCodePoint cp) <= 2)%nat.
Proof. unfold UTF16EncodeCodePoint. destruct (cp <=? 0xFFFF); simpl; lia. Qed.

(** Decoding never lengthens a string. *)
Lemma Decode_length (fuel : nat) (s r : JSString) :
  Decode fuel s = Ok r -> (List.length r <= List.length s)%nat.
Proof.
  revert s r; induction fuel as [|fuel IH]; intros s r H;
    destruct s as [|c rest]; cbn [Decode] in H;
    try (injection H as <-; simpl; lia); try discriminate.
  destruct (negb (c =? char "%")).
  - destruct (Decode fuel rest) as [R|] eqn:E; [|discriminate].
    injection H as <-. apply IH in E. simpl. lia.
  - destruct rest as [|h1 [|h2 rest2]]; try discriminate.
    destruct (ParseHexOctet h1 h2) as [B|]; [|discriminate]. cbv zeta in H.
    destruct (leading_ones B =? 0).
    + destruct (Decode fuel rest2) as [R|] eqn:E; [|discriminate].
      injection H as <-. apply IH in E. simpl. lia.
    + destruct ((leading_ones B =? 1) || (4 <? leading_ones B)); [discriminate|].
      destruct (continuation_octets _ rest2) as [[bs rest3]|] eqn:Ec; [|discriminate].
      destruct (UTF8_decode (B :: bs)) as [V|]; [|discriminate].
      destruct (Decode fuel rest3) as [R|] eqn:E; [|discriminate].
      injection H as <-. apply IH in E. apply continuation_octets_length in Ec.
      pose proof (UTF16EncodeCodePoint_length V).
      rewrite length_app. simpl. lia.
Qed.

(** A leg that is again a dex-share name is shorter than the name it was
    taken from. *)
Lemma unzipDexShareName_legs_shorter (name_ a b : JSString) :
  unzipDexShareName name_ = Ok (a, b) ->
  (isDexShareName a = true -> (List.length a < List.length name_)%nat) /\
  (isDexShareName b = true -> (List.length b < List.length name_)%nat).
Proof.
  intro H. assert (Hshape : dex_share_shape name_).
  { unfold unzipDexShareName in H. destruct (negb (isDexShareName name_)); [discriminate|].
    destruct (RegExp_exec reg 2 name_) as [result|] eqn:E; [|discriminate].
    eapply RegExp_exec_reg_shape. exact E. }
  destruct Hshape as [A [B [HA [HB ->]]]].
  rewrite (unzipDexShareName_shape A B HA HB) in H.
  destruct (decodeURIComponent (ToString_entry (group_entry A))) as [a'|] eqn:Ea;
    [|discriminate].
  destruct (decodeURIComponent B) as [b'|] eqn:Eb; [|discriminate].
  cbn [bind] in H. injection H as -> ->.
  rewrite !length_app. split; intro Hd.
  - destruct A as [|u A'].
    + cbn in Ea. injection Ea as <-. discriminate Hd.
    + cbn [group_entry ToString_entry] in Ea. apply Decode_length in Ea. simpl in *. lia.
  - apply Decode_length in Eb. simpl. lia.
Qed.

Lemma getDexShareCurrencyObject_inner_basic (fuel : nat) (name_ : JSString) :
  isDexShareName name_ = false ->
  getDexShareCurrencyObject_inner fuel name_ = Ok (getBasicCurrencyObject name_).
Proof. intro H. destruct fuel; cbn [getDexShareCurrencyObject_inner]; rewrite H; reflexivity. Qed.

(** The calls that [getDexShareCurrencyObject] allows for are enough: with
    more of them the result is the same. *)
Lemma getDexShareCurrencyObject_inner_fuel (n : nat) :
  forall name_ fuel1 fuel2,
    (List.length name_ <= n)%nat -> (n <= fuel1)%nat -> (n <= fuel2)%nat ->
    getDexShareCurrencyObject_inner fuel1 name_
    = getDexShareCurrencyObject_inner fuel2 name_.
Proof.
  induction n as [|n IH]; intros name_ fuel1 fuel2 Hlen H1 H2.
  - destruct name_; [|simpl in Hlen; lia].
    rewrite !getDexShareCurrencyObject_inner_basic by reflexivity. reflexivity.
  - destruct (isDexShareName name_) eqn:Hd;
      [|rewrite !getDexShareCurrencyObject_inner_basic by exact Hd; reflexivity].
    destruct fuel1 as [|fuel1]; [lia|]. destruct fuel2 as [|fuel2]; [lia|].
    cbn [getDexShareCurrencyObject_inner]. rewrite Hd.
    destruct (unzipDexShareName name_) as [[a b]|] eqn:Eu; [|reflexivity].
    cbn [bind fst snd].
    destruct (unzipDexShareName_legs_shorter _ _ _ Eu) as [Ha Hb].
    assert (Ea : getDexShareCurrencyObject_inner fuel1 a
                 = getDexShareCurrencyObject_inner fuel2 a).
    { destruct (isDexShareName a) eqn:Hda;
        [apply IH; try lia; specialize (Ha eq_refl); lia|].
      rewrite !getDexShareCurrencyObject_inner_basic by exact Hda. reflexivity. }
    assert (Eb : getDexShareCurrencyObject_inner fuel1 b
                 = getDexShareCurrencyObject_inner fuel2 b).
    { destruct (isDexShareName b) eqn:Hdb;
        [apply IH; try lia; specialize (Hb eq_refl); lia|].
      rewrite !getDexShareCurrencyObject_inner_basic by exact Hdb. reflexivity. }
    rewrite Ea, Eb. reflexivity.
Qed.

Lemma getDexShareCurrencyObject_fuel (name_ : JSString) (fuel : nat) :
  (List.length name_ <= fuel)%nat ->
  getDexShareCurrencyObject_inner fuel name_ = getDexShareCurrencyObject name_.
Proof.
  intro H. unfold getDexShareCurrencyObject.
  apply (getDexShareCurrencyObject_inner_fuel (List.length name_)); lia.
Qed.

Lemma subscribePrice_rec_not_dex_share {PoolDetail} (ext : Collaborators PoolDetail)
    (w : Wallet) (token_ : MaybeCurrency) (type_ : option PriceProviderType)
    (fuel1 fuel2 : nat) :
  (forall name_, forceToCurrencyName token_ = Ok name_ -> isDexShareName name_ = false) ->
  subscribePrice_rec fuel1 ext w token_ type_ = subscribePrice_rec fuel2 ext w token_ type_.
Proof.
  intro H. destruct fuel1, fuel2; cbn [subscribePrice_rec];
    destruct (forceToCurrencyName token_) as [name_|e]; try reflexivity;
    cbn [bind]; rewrite (H name_ eq_refl); reflexivity.
Qed.

(** The nested calls that [subscribePrice] allows for are enough: with more
    of them the result is the same. *)
Lemma subscribePrice_rec_fuel {PoolDetail} (ext : Collaborators PoolDetail)
    (w : Wallet) (n : nat) :
  forall token_ type_ fuel1 fuel2,
    (name_length token_ <= n)%nat -> (n < fuel1)%nat -> (n < fuel2)%nat ->
    subscribePrice_rec fuel1 ext w token_ type_
    = subscribePrice_rec fuel2 ext w token_ type_.
Proof.
  induction n as [|n IH]; intros token_ type_ fuel1 fuel2 Hlen H1 H2.
  - apply subscribePrice_rec_not_dex_share. intros name_ E.
    unfold name_length in Hlen. rewrite E in Hlen.
    destruct name_; [reflexivity|simpl in Hlen; lia].
  - destruct (forceToCurrencyName token_) as [name_|e] eqn:E;
      [|apply subscribePrice_rec_not_dex_share; intros ? E'; congruence].
    destruct (isDexShareName name_) eqn:Hd;
      [|apply subscribePrice_rec_not_dex_share; intros ? E'; congruence].
    unfold name_length in Hlen. rewrite E in Hlen.
    destruct fuel1 as [|fuel1]; [lia|]. destruct fuel2 as [|fuel2]; [lia|].
    cbn [subscribePrice_rec]. rewrite E. cbn [bind]. rewrite Hd.
    destruct (match resolved_price_type ext w name_ type_ with
              | MARKET => priceProviders w MARKET
              | ORACLE => priceProviders w ORACLE
              end); [|reflexivity].
    destruct (unzipDexShareName name_) as [[a b]|] eqn:Eu; [|reflexivity].
    cbn [bind fst snd].
    destruct (unzipDexShareName_legs_shorter _ _ _ Eu) as [Ha Hb].
    assert (Eleg : forall leg,
              (isDexShareName leg = true -> (List.length leg < List.length name_)%nat) ->
              subscribePrice_rec fuel1 ext w (MC_string leg) None
              = subscribePrice_rec fuel2 ext w (MC_string leg) None).
    { intros leg Hleg. destruct (isDexShareName leg) eqn:Hdl.
      - apply IH; [|lia|lia]. specialize (Hleg eq_refl).
        unfold name_length. simpl. lia.
      - apply subscribePrice_rec_not_dex_share. intros ? [= <-]. exact Hdl. }
    rewrite (Eleg a Ha), (Eleg b Hb). reflexivity.
Qed.

Lemma Wallet_subscribePrice_fuel {PoolDetail} (ext : Collaborators PoolDetail)
    (w : Wallet) (token_ : MaybeCurrency) (type_ : option PriceProviderType)
    (fuel : nat) :
  (name_length token_ < fuel)%nat ->
  subscribePrice_rec fuel ext w token_ type_ = Wallet_subscribePrice ext w token_ type_.
Proof.
  intro H. unfold Wallet_subscribePrice, memoize.
  apply (subscribePrice_rec_fuel ext w (name_length token_)); lia.
Qed.

(** The steps that [decodeURIComponent] allows for are enough: with more of
    them the result is the same. *)
Lemma Decode_fuel (n : nat) :
  forall s fuel1 fuel2,
    (List.length s <= n)%nat -> (n <= fuel1)%nat -> (n <= fuel2)%nat ->
    Decode fuel1 s = Decode fuel2 s.
Proof.
  induction n as [|n IH]; intros s fuel1 fuel2 Hlen H1 H2.
  - destruct s; [|simpl in Hlen; lia]. destruct fuel1, fuel2; reflexivity.
  - destruct s as [|c rest]; [destruct fuel1, fuel2; reflexivity|].
    destruct fuel1 as [|fuel1]; [lia|]. destruct fuel2 as [|fuel2]; [lia|].
    cbn [Decode]. simpl in Hlen.
    destruct (negb (c =? char "%")).
    + rewrite (IH rest fuel1 fuel2) by lia. reflexivity.
    + destruct rest as [|h1 [|h2 rest2]]; try reflexivity.
      destruct (ParseHexOctet h1 h2) as [B|]; [|reflexivity]. cbv zeta.
      simpl in Hlen.
      destruct (leading_ones B =? 0).
      * rewrite (IH rest2 fuel1 fuel2) by lia. reflexivity.
      * destruct ((leading_ones B =? 1) || (4 <? leading_ones B)); [reflexivity|].
        destruct (continuation_octets _ rest2) as [[bs rest3]|] eqn:Ec; [|reflexivity].
        destruct (UTF8_decode (B :: bs)); [|reflexivity].
        apply continuation_octets_length in Ec.
        rewrite (IH rest3 fuel1 fuel2) by lia. reflexivity.
Qed.

Lemma decodeURIComponent_fuel (s : JSString) (fuel : nat) :
  (List.length s <= fuel)%nat -> Decode fuel s = decodeURIComponent s.
Proof. intro H. unfold decodeURIComponent. apply (Decode_fuel (List.length s)); lia. Qed.

(** ** The iterations that a quantifier allows for are enough *)

Section MatcherFuel.
Variable input : JSString.

Lemma RepeatMatcher_local (m : MatchState -> MatcherContinuation -> option MatchState)
    (Hm : forall x c1 c2, (endIndex x <= List.length input)%nat ->
            agree_from input (endIndex x) c1 c2 -> m x c1 = m x c2)
    (groups : list nat) (fuel1 : nat) :
  forall fuel2 min max x c1 c2,
    (endIndex x <= List.length input)%nat ->
    (min + (List.length input - endIndex x) < fuel1)%nat ->
    (min + (List.length input - endIndex x) < fuel2)%nat ->
    agree_from input (endIndex x) c1 c2 ->
    RepeatMatcher m fuel1 min max groups x c1 = RepeatMatcher m fuel2 min max groups x c2.
Proof.
  induction fuel1 as [|fuel1 IH]; intros fuel2 min max x c1 c2 Hx H1 H2 Hc; [lia|].
  destruct fuel2 as [|fuel2]; [lia|]. cbn [RepeatMatcher].
  assert (Hcx : c1 x = c2 x) by (apply Hc; lia).
  assert (Hd : m (mkState (endIndex x) (clear_captures groups (captures x)))
                 (fun y => if ((min =? 0) && (endIndex y =? endIndex x))%nat then None
                           else RepeatMatcher m fuel1 (Nat.pred min)
                                  (option_map Nat.pred max) groups y c1)
               = m (mkState (endIndex x) (clear_captures groups (captures x)))
                   (fun y => if ((min =? 0) && (endIndex y =? endIndex x))%nat then None
                             else RepeatMatcher m fuel2 (Nat.pred min)
                                    (option_map Nat.pred max) groups y c2)).
  { apply Hm; [exact Hx|]. intros y Hy. cbn [endIndex] in Hy.
    destruct (Nat.eqb_spec min 0) as [Emin|Emin];
      destruct (Nat.eqb_spec (endIndex y) (endIndex x)) as [Ey|Ey]; cbn [andb];
      try reflexivity;
      (apply IH; [lia|lia|lia|intros z Hz; apply Hc; lia]). }
  destruct max as [[|mx]|]; [exact Hcx| |];
    (destruct (negb (min =? 0)%nat); [exact Hd|rewrite Hd, Hcx; reflexivity]).
Qed.

Lemma matcher_local (r : Pattern) :
  forall x c1 c2, (endIndex x <= List.length input)%nat ->
    agree_from input (endIndex x) c1 c2 ->
    matcher input r x c1 = matcher input r x c2.
Proof.
  induction r as [|ch|cs|r1 IH1 r2 IH2|min max r IH|g r IH| |]; intros x c1 c2 Hx Hc;
    cbn [matcher].
  - apply Hc. lia.
  - destruct (nth_error input (endIndex x)) as [u|] eqn:E; [|reflexivity].
    destruct (u =? ch); [|reflexivity]. apply Hc. cbn [endIndex].
    assert ((endIndex x < List.length input)%nat) by (apply nth_error_Some; congruence).
    lia.
  - destruct (nth_error input (endIndex x)) as [u|] eqn:E; [|reflexivity].
    destruct (existsb (Z.eqb u) cs); [reflexivity|]. apply Hc. cbn [endIndex].
    assert ((endIndex x < List.length input)%nat) by (apply nth_error_Some; congruence).
    lia.
  - apply IH1; [exact Hx|]. intros y Hy. apply IH2; [lia|].
    intros z Hz. apply Hc. lia.
  - apply RepeatMatcher_local; [exact IH|exact Hx|lia|lia|exact Hc].
  - apply IH; [exact Hx|]. intros y Hy. apply Hc. cbn [endIndex]. exact Hy.
  - destruct (endIndex x =? 0)%nat; [apply Hc; lia|reflexivity].
  - destruct (endIndex x =? List.length input)%nat; [apply Hc; lia|reflexivity].
Qed.

(** More iterations than the matcher allows for give the same result. *)
Lemma RepeatMatcher_fuel (r : Pattern) (fuel min : nat) (max : option nat)
    (x : MatchState) (c : MatcherContinuation) :
  (endIndex x <= List.length input)%nat ->
  (min + List.length input < fuel)%nat ->
  RepeatMatcher (matcher input r) fuel min max (group_indices r) x c
  = matcher input (Repeat min max r) x c.
Proof.
  intros Hx Hfuel. cbn [matcher].
  apply RepeatMatcher_local; [apply matcher_local|exact Hx|lia|lia|].
  intros y _. reflexivity.
Qed.
End MatcherFuel.

(** ** The sample wallet *)

Example getPresetTokens_when_ready :
  Wallet_getPresetTokens sample_wallet 0
  = Ok (mkPreset
          (Own (Token_new (str "SETM")
                  (Some (mkConfigs None (Some 12%N) None None None None None None))))
          Undefined).
Proof. reflexivity. Qed.

Example getTokens_by_type :
  Wallet_getTokens sample_wallet None 0 = Fulfilled sample_tokens /\
  Wallet_getTokens sample_wallet (Some DEX_SHARE) 0 = Fulfilled [].
Proof. split; reflexivity. Qed.

Example subscribeToken_unknown_name :
  match Wallet_subscribeToken sample_wallet (MC_string (str "DNAR")) with
  | Ok token_ => firstValueFrom token_ 0 = Rejected (CurrencyNotFound (str "DNAR"))
  | Throw _ => False
  end.
Proof. reflexivity. Qed.

Example subscribeBalance_non_native :
  match Wallet_subscribeBalance sample_collaborators sample_wallet
          (MC_string (str "SERP")) (str "5Grw") with
  | Ok balance_ =>
      firstValueFrom balance_ 0
      = Fulfilled (handleNonNative (mkOrml 9 0 2) (Token_new (str "SERP") None))
  | Throw _ => False
  end.
Proof. reflexivity. Qed.

(* ================================================================== *)
(** * Part II, continued: properties of the rest of the code *)
(* ================================================================== *)

(** ** isBasicToken *)

Lemma startsWith_prefix (s prefix : JSString) :
  startsWith s prefix = true <-> exists rest, s = prefix ++ rest.
Proof.
  revert s; induction prefix as [|p prefix IH]; intro s; simpl.
  - split; [intros _; exists s; reflexivity|reflexivity].
  - destruct s as [|c s].
    + split; [discriminate|intros [rest H]; discriminate].
    + rewrite andb_true_iff, Z.eqb_eq, IH. split.
      * intros [-> [rest ->]]. exists rest. reflexivity.
      * intros [rest [= -> ->]]. split; [reflexivity|exists rest; reflexivity].
Qed.

Lemma search_from_found (input : JSString) (r : Pattern) (ncap fuel : nat) :
  forall lastIndex index,
    search_from input r ncap fuel lastIndex = Some index ->
    matcher input r (mkState index (repeat None ncap)) Some <> None.
Proof.
  induction fuel as [|fuel IH]; intros lastIndex index; simpl;
    destruct (matcher input r (mkState lastIndex (repeat None ncap)) Some) eqn:E;
    try discriminate.
  - intros [= <-]. rewrite E. discriminate.
  - intros [= <-]. rewrite E. discriminate.
  - apply IH.
Qed.

Lemma search_from_complete (input : JSString) (r : Pattern) (ncap fuel : nat) :
  forall lastIndex index,
    (lastIndex <= index <= lastIndex + fuel)%nat ->
    matcher input r (mkState index (repeat None ncap)) Some <> None ->
    search_from input r ncap fuel lastIndex <> None.
Proof.
  induction fuel as [|fuel IH]; intros lastIndex index Hi Hm; simpl;
    destruct (matcher input r (mkState lastIndex (repeat None ncap)) Some) eqn:E;
    try discriminate.
  - assert (index = lastIndex) by lia. subst. contradiction.
  - destruct (Nat.eq_dec index lastIndex) as [->|Hne]; [contradiction|].
    apply (IH (S lastIndex) index); [lia|exact Hm].
Qed.

Lemma isBasicToken_false (name_ : JSString) :
  isBasicToken name_ = false <-> has_double_slash name_.
Proof.
  unfold isBasicToken, String_search. split.
  - destruct (search_from name_ (literal (str "//")) 0 (List.length name_) 0)
      as [index|] eqn:E; [intros _|discriminate].
    apply search_from_found in E.
    destruct (matcher name_ (literal (str "//")) (mkState index (repeat None 0)) Some)
      as [z|] eqn:Em; [|contradiction].
    apply matcher_sound in Em as [y [Hl _]]. cbn [endIndex] in Hl.
    apply lang_literal in Hl as [_ Hs].
    exists (firstn index name_), (skipn 2 (skipn index name_)).
    change (List.length (str "//")) with 2%nat in Hs.
    rewrite <- Hs, firstn_skipn, firstn_skipn. reflexivity.
  - intros [pre [post ->]].
    destruct (search_from (pre ++ str "//" ++ post) (literal (str "//")) 0
                (List.length (pre ++ str "//" ++ post)) 0) as [index|] eqn:E.
    + apply Z.ltb_ge. lia.
    + exfalso. revert E.
      apply (search_from_complete _ _ _ _ 0%nat (List.length pre)).
      * rewrite length_app. lia.
      * rewrite (matcher_literal _ (str "//") pre post _ _ eq_refl). discriminate.
Qed.

(** X1.  [isBasicToken(name)] is false exactly when [name] has two slashes
    in a row somewhere, and true otherwise: the search is for the text [//]
    at any index, not for a scheme prefix. *)
Theorem isBasicToken_double_slash (name_ : JSString) :
  (isBasicToken name_ = false <-> has_double_slash name_) /\
  (isBasicToken name_ = true <-> ~ has_double_slash name_).
Proof.
  split; [apply isBasicToken_false|]. split.
  - intros H Hd. apply isBasicToken_false in Hd. congruence.
  - intro H. destruct (isBasicToken name_) eqn:E; [reflexivity|].
    exfalso. apply H, isBasicToken_false, E.
Qed.

(** X2.  A dex-share name is never a basic token name; so the name that
    [createDexShareName] returns is none. *)
Theorem isDexShareName_not_basic (name_ : JSString) :
  isDexShareName name_ = true -> isBasicToken name_ = false.
Proof.
  intro H. apply isBasicToken_false.
  apply startsWith_prefix in H as [rest ->].
  exists (str "lp:"), rest. reflexivity.
Qed.

Lemma isDexShareName_not_basic_created :
  isDexShareName (str "lp://SETM/SERP") = true /\
  createDexShareName (str "SETM") (str "SERP") = Ok (str "lp://SETM/SERP") /\
  isBasicToken (str "lp://SETM/SERP") = false /\
  isBasicToken (str "SETM") = true.
Proof.
  split; [reflexivity|]. split; [reflexivity|]. split; [|reflexivity].
  apply (isDexShareName_not_basic (str "lp://SETM/SERP")). reflexivity.
Defined.

(** ** The names that createDexShareName returns *)

Lemma all_ascii_isWellFormed (s : JSString) : all_ascii s -> isWellFormed s = true.
Proof.
  induction 1 as [|c s Hc Hs IH]; [reflexivity|].
  cbn [isWellFormed].
  assert (E : is_surrogate c = false)
    by (unfold is_surrogate, in_range; apply andb_false_iff; left; apply Z.leb_gt; lia).
  rewrite E. cbn [negb]. rewrite IH, andb_true_r.
  unfold is_code_unit. apply andb_true_iff. split; [apply Z.leb_le|apply Z.ltb_lt]; lia.
Qed.

Lemma hexDigit_ascii (d : Z) : 0 <= d < 16 -> 0 <= hexDigit d < 128.
Proof. intro H. unfold hexDigit. eval_chars. destruct (Z.ltb_spec d 10); lia. Qed.

Lemma escape_octets_ascii (bs : list Z) : Forall is_octet bs -> all_ascii (escape_octets bs).
Proof.
  unfold all_ascii. induction 1 as [|b bs Hb Hbs IH]; [constructor|].
  unfold is_octet in Hb.
  cbn [escape_octets flat_map escape_octet app].
  constructor; [vm_compute; split; congruence|].
  constructor; [apply hexDigit_ascii; Z.div_mod_to_equations; lia|].
  constructor; [apply hexDigit_ascii; Z.div_mod_to_equations; lia|].
  exact IH.
Qed.

Lemma encodeURIComponent_ascii (s r : JSString) :
  encodeURIComponent s = Ok r -> isWellFormed s = true -> all_ascii r.
Proof.
  intro H. revert s r H.
  apply (encodeURIComponent_ind (fun s r => isWellFormed s = true -> all_ascii r)).
  - intros _. constructor.
  - intros c rest R Hu _ IH Hwf.
    apply isWellFormed_cons in Hwf as [_ Hwf];
      [|apply uriUnescaped_not_surrogate, Hu].
    constructor; [apply uriUnescaped_ascii, Hu|apply IH, Hwf].
  - intros c rest R _ Hs _ IH Hwf.
    apply isWellFormed_cons in Hwf as [Hc Hwf]; [|exact Hs].
    destruct (code_unit_scalar c Hc Hs) as [[Hr _] _].
    apply Forall_app. split; [|apply IH, Hwf].
    apply escape_octets_ascii, UTF8_octets_are_octets, Hr.
  - intros c d rest R _ Hl Hd _ IH Hwf.
    apply isWellFormed_pair in Hwf; [|exact Hl].
    destruct (surrogate_pair_scalar c d Hl Hd) as [[Hr _] _].
    apply Forall_app. split; [|apply IH, Hwf].
    apply escape_octets_ascii, UTF8_octets_are_octets, Hr.
Qed.

(** The name of a pair of well-formed names: its two encoded legs, and the
    way back. *)
Lemma createDexShareName_legs (n0 n1 : JSString) :
  valid_name n0 -> valid_name n1 ->
  exists e0 e1,
    encodeURIComponent n0 = Ok e0 /\ encodeURIComponent n1 = Ok e1 /\
    createDexShareName n0 n1 = Ok (str "lp://" ++ e0 ++ str "/" ++ e1) /\
    no_slash e0 /\ no_slash e1 /\ all_ascii e0 /\ all_ascii e1 /\
    (n0 <> [] -> e0 <> []) /\
    decodeURIComponent e0 = Ok n0 /\ decodeURIComponent e1 = Ok n1.
Proof.
  intros H0 H1.
  destruct (decodeURIComponent_encodeURIComponent n0 H0) as [e0 [E0 [D0 [S0 N0]]]].
  destruct (decodeURIComponent_encodeURIComponent n1 H1) as [e1 [E1 [D1 [S1 _]]]].
  exists e0, e1. unfold createDexShareName. rewrite E0, E1.
  repeat split; try assumption; try reflexivity.
  - apply (encodeURIComponent_ascii n0 e0 E0 H0).
  - apply (encodeURIComponent_ascii n1 e1 E1 H1).
Qed.

Lemma createDexShareName_unzip (n0 n1 n : JSString) :
  valid_name n0 -> valid_name n1 -> n0 <> [] ->
  createDexShareName n0 n1 = Ok n -> unzipDexShareName n = Ok (n0, n1).
Proof.
  intros H0 H1 Hne Hn.
  destruct (createDexShareName_legs n0 n1 H0 H1)
    as [e0 [e1 [_ [_ [E [S0 [S1 [_ [_ [N0 [D0 D1]]]]]]]]]]].
  assert (n = str "lp://" ++ e0 ++ str "/" ++ e1) as -> by congruence.
  rewrite (unzipDexShareName_shape e0 e1 S0 S1).
  assert (Hg : group_entry e0 = Some e0)
    by (destruct e0; [exfalso; apply (N0 Hne); reflexivity|reflexivity]).
  rewrite Hg. cbn [ToString_entry]. rewrite D0, D1. reflexivity.
Qed.

Lemma createDexShareName_valid (n0 n1 n : JSString) :
  valid_name n0 -> valid_name n1 -> createDexShareName n0 n1 = Ok n ->
  valid_name n /\ isDexShareName n = true /\ n <> [].
Proof.
  intros H0 H1 Hn.
  destruct (createDexShareName_legs n0 n1 H0 H1)
    as [e0 [e1 [_ [_ [E [_ [_ [A0 [A1 _]]]]]]]]].
  assert (n = str "lp://" ++ e0 ++ str "/" ++ e1) as -> by congruence.
  split; [|split; [reflexivity|discriminate]].
  apply all_ascii_isWellFormed. unfold all_ascii in *.
  apply Forall_app. split;
    [repeat (apply Forall_cons; [vm_compute; split; congruence|]); apply Forall_nil|].
  apply Forall_app. split; [exact A0|].
  apply Forall_cons; [vm_compute; split; congruence|exact A1].
Qed.

(** X3.  [createDexShareName] gives different names to different pairs of
    well-formed names: from the name, both legs are determined (also when a
    leg is empty). *)
Theorem createDexShareName_injective (a b a' b' n : JSString) :
  valid_name a -> valid_name b -> valid_name a' -> valid_name b' ->
  createDexShareName a b = Ok n -> createDexShareName a' b' = Ok n ->
  a = a' /\ b = b'.
Proof.
  intros Ha Hb Ha' Hb' Hn Hn'.
  destruct (createDexShareName_legs a b Ha Hb)
    as [e0 [e1 [_ [_ [E [S0 [_ [_ [_ [_ [D0 D1]]]]]]]]]]].
  destruct (createDexShareName_legs a' b' Ha' Hb')
    as [e0' [e1' [_ [_ [E' [S0' [_ [_ [_ [_ [D0' D1']]]]]]]]]]].
  assert (Heq : str "lp://" ++ e0' ++ str "/" ++ e1' = str "lp://" ++ e0 ++ str "/" ++ e1)
    by congruence.
  apply app_inv_head in Heq.
  assert (Hs : span_not (char "/") (e0' ++ char "/" :: e1')
               = span_not (char "/") (e0 ++ char "/" :: e1))
    by (f_equal; exact Heq).
  rewrite (span_not_app _ _ _ S0), (span_not_app _ _ _ S0') in Hs.
  injection Hs as -> ->. split; congruence.
Qed.

Lemma createDexShareName_injective_SETM_SERP :
  let n := str "lp://lp%3A%2F%2FSETM%2FSERP/" in
  valid_name (str "lp://SETM/SERP") /\ valid_name (str "") /\
  createDexShareName (str "lp://SETM/SERP") (str "") = Ok n /\
  (str "lp://SETM/SERP" = str "lp://SETM/SERP" /\ str "" = str "").
Proof.
  intro n. split; [reflexivity|]. split; [reflexivity|]. split; [reflexivity|].
  apply (createDexShareName_injective (str "lp://SETM/SERP") (str "")
           (str "lp://SETM/SERP") (str "") n); reflexivity.
Defined.

(** ** getCurrencyObject *)

Lemma getCurrencyObject_inner (fuel : nat) (name_ : JSString) :
  (isDexShareName name_ = true -> (List.length name_ <= fuel)%nat) ->
  getDexShareCurrencyObject_inner fuel name_ = getCurrencyObject name_.
Proof.
  intro H. unfold getCurrencyObject. destruct (isDexShareName name_) eqn:Hd.
  - apply getDexShareCurrencyObject_fuel, H. reflexivity.
  - apply getDexShareCurrencyObject_inner_basic, Hd.
Qed.

(** A dex-share name that can be unzipped has the object of its legs. *)
Lemma getCurrencyObject_unzip (name_ a b : JSString) :
  isDexShareName name_ = true -> unzipDexShareName name_ = Ok (a, b) ->
  getCurrencyObject name_
  = (oa <- getCurrencyObject a ;; ob <- getCurrencyObject b ;; Ok (CO_DexShare oa ob)).
Proof.
  intros Hd Hu. unfold getCurrencyObject at 1. rewrite Hd.
  unfold getDexShareCurrencyObject.
  destruct (List.length name_) as [|fuel] eqn:Hlen;
    [destruct name_; [discriminate Hd|discriminate Hlen]|].
  cbn [getDexShareCurrencyObject_inner]. rewrite Hd, Hu. cbn [bind fst snd].
  destruct (unzipDexShareName_legs_shorter _ _ _ Hu) as [Ha Hb].
  rewrite !getCurrencyObject_inner; [reflexivity| |];
    intro Hleg; [specialize (Hb Hleg)|specialize (Ha Hleg)]; lia.
Qed.

(** X4.  The currency object of a composed name is the DexShare of the
    objects of its legs: for well-formed names [n0] (not empty) and [n1],
    [getCurrencyObject] of [createDexShareName(n0, n1)] is
    [{ DexShare: [getCurrencyObject(n0), getCurrencyObject(n1)] }], and it
    fails when the object of a leg fails. *)
Theorem getCurrencyObject_createDexShareName (n0 n1 : JSString) :
  valid_name n0 -> valid_name n1 -> n0 <> [] ->
  exists n,
    createDexShareName n0 n1 = Ok n /\
    getCurrencyObject n
    = (a <- getCurrencyObject n0 ;; b <- getCurrencyObject n1 ;; Ok (CO_DexShare a b)).
Proof.
  intros H0 H1 Hne.
  destruct (createDexShareName_defined n0 n1 H0 H1) as [n Hn].
  exists n. split; [exact Hn|].
  apply getCurrencyObject_unzip.
  - apply (createDexShareName_valid n0 n1 n H0 H1 Hn).
  - apply (createDexShareName_unzip n0 n1 n H0 H1 Hne Hn).
Qed.

Lemma getCurrencyObject_createDexShareName_nested :
  valid_name (str "lp://SETM/SERP") /\ valid_name (str "DNAR") /\
  str "lp://SETM/SERP" <> [] /\
  createDexShareName (str "lp://SETM/SERP") (str "DNAR")
  = Ok (str "lp://lp%3A%2F%2FSETM%2FSERP/DNAR") /\
  getCurrencyObject (str "lp://lp%3A%2F%2FSETM%2FSERP/DNAR")
  = Ok (CO_DexShare (CO_DexShare (CO_Token (str "SETM")) (CO_Token (str "SERP")))
          (CO_Token (str "DNAR"))).
Proof.
  split; [reflexivity|]. split; [reflexivity|]. split; [discriminate|].
  destruct (getCurrencyObject_createDexShareName (str "lp://SETM/SERP") (str "DNAR"))
    as [n [Hn Ho]]; [reflexivity|reflexivity|discriminate|].
  assert (E : n = str "lp://lp%3A%2F%2FSETM%2FSERP/DNAR")
    by (vm_compute in Hn; injection Hn as <-; reflexivity).
  subst n. split; [exact Hn|]. rewrite Ho. reflexivity.
Defined.

(** The name and the object of a CurrencyId of token symbols and dex shares. *)
Lemma plain_currency_name (c : CurrencyId) :
  plain_currency c ->
  exists n,
    forceToCurrencyName (MC_CurrencyId c) = Ok n /\
    valid_name n /\ n <> [] /\
    getCurrencyObject n = Ok (object_of c).
Proof.
  induction 1 as [s Hv Hne Hd|c0 c1 _ [n0 [E0 [V0 [N0 O0]]]] _ [n1 [E1 [V1 [N1 O1]]]]].
  - exists s. split; [reflexivity|]. split; [exact Hv|]. split; [exact Hne|].
    unfold getCurrencyObject. rewrite Hd. reflexivity.
  - destruct (createDexShareName_defined n0 n1 V0 V1) as [n Hn].
    exists n. cbn [forceToCurrencyName] in *.
    cbn [forceToCurrencyName_CurrencyId]. rewrite E0, E1. cbn [bind].
    rewrite Hn. cbn [try_catch].
    destruct (createDexShareName_valid n0 n1 n V0 V1 Hn) as [Vn [Dn Nn]].
    split; [reflexivity|]. split; [exact Vn|]. split; [exact Nn|].
    rewrite (getCurrencyObject_unzip n n0 n1 Dn
               (createDexShareName_unzip n0 n1 n V0 V1 N0 Hn)).
    rewrite O0, O1. reflexivity.
Qed.

(** X5.  Round trip from a CurrencyId to its name and on to a currency
    object: for a CurrencyId made of token symbols and dex shares, nested to
    any depth, [getCurrencyObject(forceToCurrencyName(id))] is the object
    with the structure of [id]. *)
Theorem getCurrencyObject_forceToCurrencyName (c : CurrencyId) :
  plain_currency c ->
  exists n,
    forceToCurrencyName (MC_CurrencyId c) = Ok n /\
    getCurrencyObject n = Ok (object_of c).
Proof.
  intro H. destruct (plain_currency_name c H) as [n [E [_ [_ O]]]].
  exists n. split; assumption.
Qed.

Lemma getCurrencyObject_forceToCurrencyName_nested :
  let SETM := CurrencyId_Token (str "SETM") in
  let SERP := CurrencyId_Token (str "SERP") in
  let DNAR := CurrencyId_Token (str "DNAR") in
  let c := CurrencyId_DexShare (CurrencyId_DexShare SETM SERP) DNAR in
  plain_currency c /\
  forceToCurrencyName (MC_CurrencyId c) = Ok (str "lp://lp%3A%2F%2FSETM%2FSERP/DNAR") /\
  getCurrencyObject (str "lp://lp%3A%2F%2FSETM%2FSERP/DNAR") = Ok (object_of c).
Proof.
  intros SETM SERP DNAR c.
  assert (Hp : plain_currency c)
    by (repeat constructor; try reflexivity; discriminate).
  split; [exact Hp|].
  destruct (getCurrencyObject_forceToCurrencyName c Hp) as [n [E O]].
  assert (En : n = str "lp://lp%3A%2F%2FSETM%2FSERP/DNAR")
    by (vm_compute in E; injection E as <-; reflexivity).
  subst n. split; [exact E|exact O].
Defined.

(** X6.  [forceToCurrencyId] on a CurrencyId of token symbols and dex shares
    hands to [api.createType] the object with the structure of that id and
    returns what [createType] returns; with an api that builds ids from
    their objects, the id comes back unchanged. *)
Theorem forceToCurrencyId_plain_currency (g : GlobalScope) (api : AnyApi)
    (c id : CurrencyId) :
  plain_currency c ->
  createType_CurrencyId api (object_of c) = Ok id ->
  forceToCurrencyId g api (MC_CurrencyId c) = Ok id.
Proof.
  intros Hp Hapi. destruct (plain_currency_name c Hp) as [n [E [_ [_ O]]]].
  unfold forceToCurrencyId. rewrite E. cbn [bind]. rewrite O. cbn [bind].
  rewrite Hapi. reflexivity.
Qed.

Lemma forceToCurrencyId_plain_currency_round_trip :
  let api := mkApi (fun o => Ok (currency_of o)) in
  let c := CurrencyId_DexShare
             (CurrencyId_DexShare (CurrencyId_Token (str "SETM"))
                (CurrencyId_Token (str "SERP")))
             (CurrencyId_Token (str "a/b")) in
  plain_currency c /\
  createType_CurrencyId api (object_of c) = Ok c /\
  forceToCurrencyId (mkGlobal None) api (MC_CurrencyId c) = Ok c.
Proof.
  intros api c.
  assert (Hp : plain_currency c)
    by (repeat constructor; try reflexivity; discriminate).
  split; [exact Hp|]. split; [reflexivity|].
  apply (forceToCurrencyId_plain_currency (mkGlobal None) api c c Hp). reflexivity.
Defined.

(** ** What the codec raises *)

Lemma encodeURIComponent_raises (s : JSString) (e : Error) :
  encodeURIComponent s = Throw e -> e = URIError.
Proof.
  remember (List.length s) as n eqn:Hn.
  revert s Hn. induction n as [n IH] using lt_wf_ind. intros s Hn.
  destruct s as [|c rest]; [discriminate|]. cbn [encodeURIComponent].
  assert (Hrest : forall rest' (k : JSString -> Result JSString),
            (List.length rest' < n)%nat -> (forall R, k R <> Throw e) ->
            (R <- encodeURIComponent rest' ;; k R) = Throw e -> e = URIError).
  { intros rest' k Hlt Hk H.
    destruct (encodeURIComponent rest') as [R|e'] eqn:E; cbn [bind] in H.
    - exfalso. exact (Hk R H).
    - injection H as <-. apply (IH (List.length rest') Hlt rest' eq_refl E). }
  destruct (uriUnescaped c).
  - apply Hrest; [subst; simpl; lia|discriminate].
  - destruct (negb (is_surrogate c)).
    + apply Hrest; [subst; simpl; lia|discriminate].
    + destruct (is_trailing_surrogate c); [congruence|].
      destruct rest as [|d rest']; [congruence|].
      destruct (is_trailing_surrogate d); [|congruence].
      apply Hrest; [subst; simpl; lia|discriminate].
Qed.

Lemma createDexShareName_raises (n0 n1 : JSString) (e : Error) :
  createDexShareName n0 n1 = Throw e -> e = URIError.
Proof.
  unfold createDexShareName.
  destruct (encodeURIComponent n0) as [e0|x] eqn:E0; cbn [bind];
    [|intros [= <-]; apply (encodeURIComponent_raises _ _ E0)].
  destruct (encodeURIComponent n1) as [e1|x] eqn:E1; cbn [bind];
    [discriminate|intros [= <-]; apply (encodeURIComponent_raises _ _ E1)].
Qed.

Lemma Decode_raises (fuel : nat) :
  forall s e, Decode fuel s = Throw e -> e = URIError.
Proof.
  induction fuel as [|fuel IH]; intros s e; destruct s as [|c rest];
    cbn [Decode]; try discriminate; [congruence|].
  assert (Hrest : forall rest' (k : JSString -> Result JSString),
            (forall R, k R <> Throw e) ->
            (R <- Decode fuel rest' ;; k R) = Throw e -> e = URIError).
  { intros rest' k Hk H.
    destruct (Decode fuel rest') as [R|e'] eqn:E; cbn [bind] in H.
    - exfalso. exact (Hk R H).
    - injection H as <-. apply (IH _ _ E). }
  destruct (negb (c =? char "%")); [apply Hrest; discriminate|].
  destruct rest as [|h1 [|h2 rest2]]; try congruence.
  destruct (ParseHexOctet h1 h2) as [B|]; [|congruence].
  cbv zeta.
  destruct (leading_ones B =? 0); [apply Hrest; discriminate|].
  destruct ((leading_ones B =? 1) || (4 <? leading_ones B)); [congruence|].
  destruct (continuation_octets (Z.to_nat (leading_ones B - 1)) rest2) as [[bs rest3]|];
    [|congruence].
  destruct (UTF8_decode (B :: bs)); [apply Hrest; discriminate|congruence].
Qed.

Lemma dex_share_shape_matches (name_ : JSString) :
  dex_share_shape name_ ->
  isDexShareName name_ = true /\ RegExp_exec reg 2 name_ <> None.
Proof.
  intros [A [B [HA [HB ->]]]]. split; [reflexivity|].
  pose proof (RegExp_exec_reg A B HA HB) as E. cbv zeta in E. rewrite E. discriminate.
Qed.

Lemma unzipDexShareName_raises (name_ : JSString) (e : Error) :
  unzipDexShareName name_ = Throw e ->
  (e = URIError /\ dex_share_shape name_)
  \/ (e = NotDexShareName name_ /\ ~ dex_share_shape name_).
Proof.
  intro H. pose proof H as H'. unfold unzipDexShareName in H.
  destruct (isDexShareName name_) eqn:Hd; cbn [negb] in H.
  - destruct (RegExp_exec reg 2 name_) as [result|] eqn:Er.
    + left. pose proof (RegExp_exec_reg_shape _ _ Er) as Hshape.
      split; [|exact Hshape]. clear H Er.
      destruct Hshape as [A [B [HA [HB ->]]]].
      rewrite (unzipDexShareName_shape A B HA HB) in H'.
      unfold decodeURIComponent in H'.
      destruct (Decode _ (ToString_entry (group_entry A))) as [a|x] eqn:Ea;
        cbn [bind] in H'; [|injection H' as <-; apply (Decode_raises _ _ _ Ea)].
      destruct (Decode _ B) as [b|x] eqn:Eb; cbn [bind] in H';
        [discriminate|injection H' as <-; apply (Decode_raises _ _ _ Eb)].
    + right. split; [congruence|]. intro Hs.
      apply dex_share_shape_matches in Hs as [_ Hs]. contradiction.
  - right. split; [congruence|]. intro Hs.
    apply dex_share_shape_matches in Hs as [Hs _]. congruence.
Qed.

(** X7.  [unzipDexShareName] raises NotDexShareName only on strings that are
    not of the shape [lp://A/B]: on a string of the shape it returns a pair,
    or raises URIError when a leg is no valid percent-encoding. *)
Theorem unzipDexShareName_accepts_shape (name_ : JSString) :
  dex_share_shape name_ ->
  (exists a b, unzipDexShareName name_ = Ok (a, b))
  \/ unzipDexShareName name_ = Throw URIError.
Proof.
  intro Hshape. destruct (unzipDexShareName name_) as [[a b]|e] eqn:E.
  - left. exists a, b. reflexivity.
  - right. apply unzipDexShareName_raises in E as [[-> _]|[_ Hn]];
      [reflexivity|contradiction].
Qed.

Lemma unzipDexShareName_accepts_shape_bad_escape :
  dex_share_shape (str "lp://%E0%80/SERP") /\
  unzipDexShareName (str "lp://%E0%80/SERP") = Throw URIError /\
  dex_share_shape (str "lp:///") /\
  unzipDexShareName (str "lp:///") = Ok (str "undefined", str "").
Proof.
  assert (H1 : dex_share_shape (str "lp://%E0%80/SERP")).
  { exists (str "%E0%80"), (str "SERP").
    split; [|split; [|reflexivity]]; intro H; vm_compute in H; intuition discriminate. }
  assert (H2 : dex_share_shape (str "lp:///")).
  { exists (str ""), (str "").
    split; [|split; [|reflexivity]]; intros []. }
  split; [exact H1|]. split.
  - destruct (unzipDexShareName_accepts_shape _ H1) as [[a [b E]]|E];
      [vm_compute in E; discriminate E|exact E].
  - split; [exact H2|].
    destruct (unzipDexShareName_accepts_shape _ H2) as [[a [b E]]|E];
      [|vm_compute in E; discriminate E].
    rewrite E. vm_compute in E. injection E as <- <-. reflexivity.
Defined.

Lemma isDexShareName_length (name_ : JSString) :
  isDexShareName name_ = true -> (5 <= List.length name_)%nat.
Proof.
  intro H. apply startsWith_prefix in H as [rest ->]. rewrite length_app. simpl. lia.
Qed.

Lemma getDexShareCurrencyObject_inner_raises (e : Error) (fuel : nat) :
  forall name_,
    (isDexShareName name_ = true -> (List.length name_ <= fuel)%nat) ->
    getDexShareCurrencyObject_inner fuel name_ = Throw e ->
    e = URIError \/ exists leg, e = NotDexShareName leg.
Proof.
  induction fuel as [|fuel IH]; intros name_ Hlen H.
  - destruct (isDexShareName name_) eqn:Hd.
    + pose proof (isDexShareName_length _ Hd). specialize (Hlen eq_refl). lia.
    + rewrite getDexShareCurrencyObject_inner_basic in H by exact Hd. discriminate.
  - cbn [getDexShareCurrencyObject_inner] in H.
    destruct (isDexShareName name_) eqn:Hd; [|discriminate].
    destruct (unzipDexShareName name_) as [[a b]|x] eqn:Eu; cbn [bind fst snd] in H.
    + destruct (unzipDexShareName_legs_shorter _ _ _ Eu) as [Ha Hb].
      specialize (Hlen eq_refl).
      destruct (getDexShareCurrencyObject_inner fuel a) as [oa|x] eqn:Ea;
        cbn [bind] in H.
      * destruct (getDexShareCurrencyObject_inner fuel b) as [ob|x] eqn:Eb;
          cbn [bind] in H; [discriminate|]. injection H as <-.
        apply (IH b); [intro Hl; specialize (Hb Hl); lia|exact Eb].
      * injection H as <-.
        apply (IH a); [intro Hl; specialize (Ha Hl); lia|exact Ea].
    + injection H as <-.
      apply unzipDexShareName_raises in Eu as [[-> _]|[-> _]];
        [left; reflexivity|right; eexists; reflexivity].
Qed.

(** X8.  [getCurrencyObject] returns [{ Token: name }] for every name that
    does not start with [lp://]; on a name that does, it fails only with
    URIError or with NotDexShareName (of the name or of a nested leg). *)
Theorem getCurrencyObject_raises (name_ : JSString) :
  (isDexShareName name_ = false -> getCurrencyObject name_ = Ok (CO_Token name_)) /\
  (forall e, getCurrencyObject name_ = Throw e ->
     isDexShareName name_ = true /\
     (e = URIError \/ exists leg, e = NotDexShareName leg)).
Proof.
  split.
  - intro Hd. unfold getCurrencyObject. rewrite Hd. reflexivity.
  - intros e H. unfold getCurrencyObject in H.
    destruct (isDexShareName name_) eqn:Hd; [|discriminate].
    split; [reflexivity|].
    apply (getDexShareCurrencyObject_inner_raises e (List.length name_) name_);
      [intros _; lia|exact H].
Qed.

Lemma getCurrencyObject_raises_nested_leg :
  let name_ := str "lp://lp%3A%2F%2FSETM/SERP" in
  isDexShareName (str "SETM") = false /\
  getCurrencyObject (str "SETM") = Ok (CO_Token (str "SETM")) /\
  getCurrencyObject name_ = Throw (NotDexShareName (str "lp://SETM")) /\
  isDexShareName name_ = true.
Proof.
  intro name_.
  destruct (getCurrencyObject_raises (str "SETM")) as [H1 _].
  destruct (getCurrencyObject_raises name_) as [_ H2].
  split; [reflexivity|]. split; [apply H1; reflexivity|].
  assert (E : getCurrencyObject name_ = Throw (NotDexShareName (str "lp://SETM")))
    by reflexivity.
  split; [exact E|]. apply (H2 _ E).
Defined.

(** ** forceToDexShareCurrencyId *)

(** X9.  On a pair of names [forceToDexShareCurrencyId] does what
    [forceToCurrencyId] does when the pair can be encoded; when it cannot,
    the URIError of [encodeURIComponent] leaves the function as it is, while
    [forceToCurrencyId] raises its own error. *)
Theorem forceToDexShareCurrencyId_pair (g : GlobalScope) (api : AnyApi)
    (n0 n1 : JSString) :
  (forall n, createDexShareName n0 n1 = Ok n ->
     forceToDexShareCurrencyId g api (inl (n0, n1))
     = forceToCurrencyId g api (MC_pair n0 n1)) /\
  (forall e, createDexShareName n0 n1 = Throw e ->
     forceToDexShareCurrencyId g api (inl (n0, n1)) = Throw URIError /\
     forceToCurrencyId g api (MC_pair n0 n1) <> Throw URIError).
Proof.
  split.
  - intros n Hn. unfold forceToDexShareCurrencyId, forceToCurrencyId.
    rewrite Hn. cbn [bind forceToCurrencyName try_catch]. rewrite Hn. reflexivity.
  - intros e He. pose proof (createDexShareName_raises _ _ _ He) as ->. split.
    + unfold forceToDexShareCurrencyId. rewrite He. reflexivity.
    + intro H. apply forceToCurrencyId_error_carries_global in H.
      destruct (global_origin g); discriminate H.
Qed.

Lemma forceToDexShareCurrencyId_pair_samples :
  let api := mkApi (fun o => Ok (currency_of o)) in
  let g := mkGlobal None in
  createDexShareName (str "SETM") (str "SERP") = Ok (str "lp://SETM/SERP") /\
  forceToDexShareCurrencyId g api (inl (str "SETM", str "SERP"))
  = Ok (CurrencyId_DexShare (CurrencyId_Token (str "SETM"))
          (CurrencyId_Token (str "SERP"))) /\
  createDexShareName [0xD800] (str "SERP") = Throw URIError /\
  forceToDexShareCurrencyId g api (inl ([0xD800], str "SERP")) = Throw URIError /\
  forceToCurrencyId g api (MC_pair [0xD800] (str "SERP"))
  = Throw (ReferenceError (str "origin")).
Proof.
  intros api g.
  destruct (forceToDexShareCurrencyId_pair g api (str "SETM") (str "SERP")) as [H1 _].
  destruct (forceToDexShareCurrencyId_pair g api [0xD800] (str "SERP")) as [_ H2].
  split; [reflexivity|]. split; [rewrite (H1 _ eq_refl); reflexivity|].
  split; [reflexivity|]. split; [apply (H2 URIError eq_refl)|reflexivity].
Defined.

(** ** The constructor, clone and fromCurrencyName *)

Lemma or_string_idem (a : option JSString) (b : JSString) :
  or_string (Some (or_string a b)) b = or_string a b.
Proof.
  destruct a as [[|c s]|]; cbn [or_string]; try reflexivity; destruct b; reflexivity.
Qed.

Lemma or_type_idem (a : option TokenType) :
  or_type (Some (or_type a BASIC)) BASIC = or_type a BASIC.
Proof. destruct a as [[| |]|]; reflexivity. Qed.

(** X10.  [clone] returns a token with the fields of the original, for
    every token that the constructor can build: the defaults that the
    constructor applies a second time (decimals 0, empty symbol, empty
    display, type BASIC) change nothing, because the constructor has
    already replaced those values. *)
Theorem Token_clone_constructed (n : JSString) (configs : option Configs) :
  Token_clone (Token_new n configs) = Token_new n configs.
Proof.
  unfold Token_clone, Token_spread.
  pose proof (Token_new_decimals_nonzero n configs) as Hd.
  unfold Token_new in *. cbn [name display decimals decimal type chain symbol ed optional] in *.
  cbn [cfg_display cfg_decimals cfg_decimal cfg_type cfg_chain cfg_symbol cfg_ed or_object].
  rewrite !or_string_idem, or_type_idem.
  rewrite !(or_number_self _ _ Hd). reflexivity.
Qed.

(** X11.  [Token.fromCurrencyName] builds the token that the constructor
    builds from the same name and configs, except for the type: the type is
    DEX_SHARE when the name starts with [lp://] and BASIC otherwise,
    whatever type the configs hold; it is never ERC20. *)
Theorem Token_fromCurrencyName_type (n : JSString) (configs : option Configs) :
  let t0 := Token_new n configs in
  Token_fromCurrencyName n configs
  = mkToken n (symbol t0) (decimals t0) (decimal t0) (ed t0) (chain t0)
      (if isDexShareName n then DEX_SHARE else BASIC) (display t0)
  /\ Token_isDexShare (Token_fromCurrencyName n configs) = isDexShareName n
  /\ Token_isERC20 (Token_fromCurrencyName n configs) = false.
Proof.
  unfold Token_fromCurrencyName, getCurrencyTypeByName, Token_isDexShare, Token_isERC20.
  destruct configs as [c|]; destruct (isDexShareName n);
    repeat split; reflexivity.
Qed.

(** ** Objects: set and get *)

Lemma Object_get_set {V} (k k' : JSString) (v : V) (o : JSObject V) :
  Object_get (Object_set k v o) k'
  = if string_eqb k k' then Some v else Object_get o k'.
Proof.
  induction o as [|[k0 v0] o IH]; cbn [Object_set Object_get].
  - destruct (string_eqb k k'); reflexivity.
  - destruct (string_eqb k0 k) eqn:E0.
    + apply string_eqb_eq in E0. subst k0. cbn [Object_get].
      destruct (string_eqb k k'); reflexivity.
    + cbn [Object_get]. destruct (string_eqb k0 k') eqn:E1.
      * apply string_eqb_eq in E1. subst k0.
        destruct (string_eqb k k') eqn:E2; [|reflexivity].
        apply string_eqb_eq in E2. subst k'. rewrite string_eqb_refl in E0. discriminate.
      * exact IH.
Qed.

Lemma Object_set_keys {V} (k : JSString) (v : V) (o : JSObject V) :
  NoDup (map fst o) ->
  NoDup (map fst (Object_set k v o)) /\
  (forall k', In k' (map fst (Object_set k v o)) <-> k' = k \/ In k' (map fst o)).
Proof.
  induction o as [|[k0 v0] o IH]; cbn [Object_set map fst]; intro Hnd.
  - split; [constructor; [intros []|constructor]|]. intro k'. simpl. intuition.
  - inversion Hnd as [|? ? Hk0 Hnd']; subst.
    destruct (IH Hnd') as [IH1 IH2].
    destruct (string_eqb k0 k) eqn:E0.
    + apply string_eqb_eq in E0. subst k0. cbn [map fst].
      split; [exact Hnd|]. intro k'. simpl. intuition.
    + cbn [map fst]. split.
      * constructor; [|exact IH1]. intro Hin. apply IH2 in Hin as [->|Hin];
          [rewrite string_eqb_refl in E0; discriminate|contradiction].
      * intro k'. simpl. rewrite IH2. intuition.
Qed.

Lemma Object_fold_keys {V} (es o : JSObject V) :
  NoDup (map fst o) ->
  NoDup (map fst (fold_left (fun o e => Object_set (fst e) (snd e) o) es o)) /\
  (forall k, In k (map fst (fold_left (fun o e => Object_set (fst e) (snd e) o) es o))
             <-> In k (map fst es) \/ In k (map fst o)).
Proof.
  revert o; induction es as [|[k v] es IH]; intros o Hnd; cbn [fold_left map fst snd].
  - split; [exact Hnd|]. intro k. simpl. intuition.
  - destruct (Object_set_keys k v o Hnd) as [H1 H2].
    destruct (IH _ H1) as [IH1 IH2]. split; [exact IH1|].
    intro k'. rewrite IH2, H2. simpl. intuition.
Qed.

Lemma Object_fromEntries_keys {V} (es : JSObject V) :
  NoDup (map fst (Object_fromEntries es)) /\
  (forall k, In k (map fst (Object_fromEntries es)) <-> In k (map fst es)).
Proof.
  destruct (Object_fold_keys es [] (NoDup_nil _)) as [H1 H2].
  split; [exact H1|]. intro k. unfold Object_fromEntries. rewrite H2. simpl. intuition.
Qed.

Lemma find_append {A} (p : A -> bool) (l1 l2 : list A) :
  find p (l1 ++ l2) = match find p l1 with Some x => Some x | None => find p l2 end.
Proof.
  induction l1 as [|a l1 IH]; cbn [app find]; [reflexivity|].
  destruct (p a); [reflexivity|exact IH].
Qed.

(** The value of a key after [Object.fromEntries]: that of the last entry
    with the key. *)
Lemma Object_fold_get {V} (es o : JSObject V) (k : JSString) :
  Object_get (fold_left (fun o e => Object_set (fst e) (snd e) o) es o) k
  = match find (fun e => string_eqb (fst e) k) (rev es) with
    | Some e => Some (snd e)
    | None => Object_get o k
    end.
Proof.
  revert o; induction es as [|[k0 v0] es IH]; intro o; cbn [fold_left rev fst snd].
  - reflexivity.
  - rewrite IH, find_append.
    destruct (find (fun e => string_eqb (fst e) k) (rev es)); [reflexivity|].
    cbn [find fst snd]. rewrite Object_get_set. destruct (string_eqb k0 k); reflexivity.
Qed.

Lemma Object_fromEntries_get {V} (es : JSObject V) (k : JSString) :
  Object_get (Object_fromEntries es) k
  = option_map snd (find (fun e => string_eqb (fst e) k) (rev es)).
Proof.
  unfold Object_fromEntries. rewrite Object_fold_get.
  destruct (find (fun e => string_eqb (fst e) k) (rev es)); reflexivity.
Qed.

Lemma values_at_In {V} (o : JSObject V) (ks : list JSString) (v : V) :
  In v (values_at o ks) <-> exists k, In k ks /\ Object_get o k = Some v.
Proof.
  unfold values_at. rewrite in_flat_map. split.
  - intros [k [Hk Hv]]. exists k. split; [exact Hk|].
    destruct (Object_get o k) as [v'|]; [|contradiction].
    destruct Hv as [->|[]]. reflexivity.
  - intros [k [Hk E]]. exists k. split; [exact Hk|]. rewrite E. left. reflexivity.
Qed.

(** ** Array.prototype.sort under a total order *)

Lemma Array_sort_sorted (sortTokenByName : Comparator) (l : list JSString) :
  total_order sortTokenByName ->
  StronglySorted (fun a b => sortTokenByName a b <= 0) (Array_sort sortTokenByName l).
Proof.
  intro Horder. unfold Array_sort.
  pose proof (sort_sorted (fun a b => sortTokenByName a b <=? 0)
                (cmp_le_total _ Horder) (cmp_le_trans _ Horder) l) as Hs.
  induction Hs as [|a l' _ IH Hall]; constructor; [exact IH|].
  eapply Forall_impl; [|exact Hall]. intros b Hb. apply Z.leb_le. exact Hb.
Qed.

(** ** Token.sort on any list of tokens *)

Lemma last_named_name (tokens : list Token) (n : JSString) (t : Token) :
  last_named tokens n = Some t -> name t = n /\ In t tokens.
Proof.
  unfold last_named. intro H. apply find_some in H as [Hin E].
  apply string_eqb_eq in E. split; [exact E|]. apply in_rev. exact Hin.
Qed.

Lemma name_entries_get (tokens : list Token) (n : JSString) :
  Object_get (Object_fromEntries (name_entries tokens)) n = last_named tokens n.
Proof.
  rewrite Object_fromEntries_get. unfold last_named, name_entries.
  rewrite <- map_rev. induction (rev tokens) as [|t l IH]; [reflexivity|].
  cbn [map find fst]. destruct (string_eqb (name t) n); [reflexivity|exact IH].
Qed.

(** X12.  [Token.sort] on any list of tokens, under a total order on names:
    the result has one token for each name of the list, the one given last
    under that name, and the tokens stand in the order of their names. *)
Theorem Token_sort_deduplicates (sortTokenByName : Comparator) (tokens : list Token) :
  total_order sortTokenByName ->
  let sorted := Token_sort sortTokenByName tokens in
  NoDup (map name sorted) /\
  StronglySorted (fun a b => sortTokenByName a b <= 0) (map name sorted) /\
  (forall n, In n (map name sorted) <-> In n (map name tokens)) /\
  (forall t, In t sorted -> last_named tokens (name t) = Some t).
Proof.
  intros Horder sorted. subst sorted. unfold Token_sort. fold (name_entries tokens).
  set (nameMap := Object_fromEntries (name_entries tokens)).
  set (keys := Array_sort sortTokenByName (Object_keys nameMap)).
  destruct (Object_fromEntries_keys (name_entries tokens)) as [Hnd Hkeys].
  fold nameMap in Hnd, Hkeys. rewrite name_entries_keys in Hkeys.
  assert (Hperm : Permutation keys (map fst nameMap)).
  { unfold keys. rewrite Array_sort_perm. apply Object_keys_perm. }
  assert (Hnames : map name (values_at nameMap keys) = keys).
  { rewrite (values_at_keys name (fun k => k)); [apply map_id| |].
    - intros k v Hin. apply (Object_get_In _ _ _ Hnd) in Hin.
      unfold nameMap in Hin. rewrite name_entries_get in Hin.
      apply last_named_name in Hin. apply Hin.
    - intros k Hk. eapply Permutation_in; [exact Hperm|exact Hk]. }
  rewrite Hnames. split; [|split; [|split]].
  - eapply Permutation_NoDup; [symmetry; exact Hperm|exact Hnd].
  - unfold keys. apply Array_sort_sorted, Horder.
  - intro n. rewrite <- Hkeys. split; intro H.
    + eapply Permutation_in; [exact Hperm|exact H].
    + eapply Permutation_in; [symmetry; exact Hperm|exact H].
  - intros t Hin. apply values_at_In in Hin as [k [_ E]].
    unfold nameMap in E. rewrite name_entries_get in E.
    destruct (last_named_name _ _ _ E) as [-> _]. exact E.
Qed.

Lemma Token_sort_deduplicates_last_wins :
  let old := Token_new (str "SETM")
               (Some (mkConfigs None (Some 12%N) None None None None None None)) in
  let SERP := Token_new (str "SERP") None in
  let new := Token_new (str "SETM") None in
  total_order compare_code_units /\
  Token_sort compare_code_units [old; SERP; new] = [SERP; new] /\
  last_named [old; SERP; new] (str "SETM") = Some new.
Proof.
  intros old SERP new. split; [exact compare_code_units_total_order|].
  assert (E : Token_sort compare_code_units [old; SERP; new] = [SERP; new])
    by reflexivity.
  split; [exact E|].
  destruct (Token_sort_deduplicates compare_code_units [old; SERP; new]
              compare_code_units_total_order) as [_ [_ [_ H]]].
  apply (H new). rewrite E. right. left. reflexivity.
Defined.

(** ** Token.fromTokens and Token.fromCurrencies *)

Lemma Token_sort_two_swap (sortTokenByName : Comparator) (token1 token2 : Token) :
  total_order sortTokenByName -> name token1 <> name token2 ->
  Token_sort sortTokenByName [token1; token2]
  = Token_sort sortTokenByName [token2; token1].
Proof.
  intros Horder Hne.
  rewrite !(Token_sort_two _ Horder) by congruence.
  destruct (Z.leb_spec (sortTokenByName (name token1) (name token2)) 0) as [H1|H1];
    destruct (Z.leb_spec (sortTokenByName (name token2) (name token1)) 0) as [H2|H2];
    try reflexivity.
  - exfalso. apply Hne. apply (order_antisym _ Horder); assumption.
  - exfalso. destruct (order_total _ Horder (name token1) (name token2)); lia.
Qed.

(** X13.  Under a total order on names [Token.fromTokens] does not depend
    on the order of its two arguments: both orders give the same token, or
    both fail. *)
Theorem Token_fromTokens_symmetric (sortTokenByName : Comparator)
    (token1 token2 : Token) :
  total_order sortTokenByName ->
  Token_fromTokens sortTokenByName token1 token2
  = Token_fromTokens sortTokenByName token2 token1.
Proof.
  intro Horder. unfold Token_fromTokens.
  destruct (string_eqb (name token1) (name token2)) eqn:E.
  - apply string_eqb_eq in E.
    rewrite (Token_sort_same_name _ token1 token2 E).
    rewrite (Token_sort_same_name _ token2 token1 (eq_sym E)). reflexivity.
  - assert (Hne : name token1 <> name token2)
      by (intro H; apply string_eqb_eq in H; congruence).
    rewrite (Token_sort_two_swap _ _ _ Horder Hne). reflexivity.
Qed.

Lemma Token_fromTokens_symmetric_SETM_SERP :
  let SETM := Token_new (str "SETM") None in
  let SERP := Token_new (str "SERP")
                (Some (mkConfigs None (Some 12%N) None None None None None None)) in
  let lp := str "lp://SERP/SETM" in
  total_order compare_code_units /\
  Token_fromTokens compare_code_units SETM SERP
  = Ok (mkToken lp lp 12 12 FN_ZERO None DEX_SHARE lp) /\
  Token_fromTokens compare_code_units SERP SETM
  = Ok (mkToken lp lp 12 12 FN_ZERO None DEX_SHARE lp).
Proof.
  intros SETM SERP lp. split; [exact compare_code_units_total_order|].
  split; [reflexivity|].
  rewrite (Token_fromTokens_symmetric compare_code_units SERP SETM
             compare_code_units_total_order).
  reflexivity.
Defined.

Lemma object_of_injective (c1 : CurrencyId) :
  plain_currency c1 -> forall c2, plain_currency c2 ->
  object_of c1 = object_of c2 -> c1 = c2.
Proof.
  induction 1 as [s _ _ _|a b _ IHa _ IHb]; intros c2 H2 E;
    destruct H2 as [s' _ _ _|a' b' Ha' Hb']; cbn [object_of] in E; try discriminate.
  - congruence.
  - injection E as Ea Eb. rewrite (IHa a' Ha' Ea), (IHb b' Hb' Eb). reflexivity.
Qed.

(** X14.  [Token.fromCurrencies] on two different CurrencyIds of token
    symbols and dex shares returns a DEX_SHARE token whose chain data is the
    DexShare of the objects of the two ids, the id whose name comes first in
    the order standing first. *)
Theorem Token_fromCurrencies_chain_data (sortTokenByName : Comparator)
    (c1 c2 : CurrencyId) (decimals_ : option DecimalsArg) :
  total_order sortTokenByName ->
  plain_currency c1 -> plain_currency c2 -> c1 <> c2 ->
  exists n1 n2 t,
    forceToCurrencyName (MC_CurrencyId c1) = Ok n1 /\
    forceToCurrencyName (MC_CurrencyId c2) = Ok n2 /\
    Token_fromCurrencies sortTokenByName c1 c2 decimals_ = Ok t /\
    type t = DEX_SHARE /\
    Token_toChainData t
    = Ok (if sortTokenByName n1 n2 <=? 0
          then CO_DexShare (object_of c1) (object_of c2)
          else CO_DexShare (object_of c2) (object_of c1)).
Proof.
  intros Horder Hp1 Hp2 Hc.
  destruct (plain_currency_name c1 Hp1) as [n1 [E1 [V1 [N1 O1]]]].
  destruct (plain_currency_name c2 Hp2) as [n2 [E2 [V2 [N2 O2]]]].
  assert (Hne : n1 <> n2).
  { intros ->. apply Hc. apply (object_of_injective c1 Hp1 c2 Hp2). congruence. }
  exists n1, n2.
  unfold Token_fromCurrencies, Token_fromCurrencyId. rewrite E1, E2. cbn [bind].
  set (t1 := Token_fromCurrencyName n1 _). set (t2 := Token_fromCurrencyName n2 _).
  assert (Hn1 : name t1 = n1) by reflexivity.
  assert (Hn2 : name t2 = n2) by reflexivity.
  unfold Token_fromTokens.
  rewrite (Token_sort_two _ Horder) by congruence. rewrite Hn1, Hn2.
  destruct (sortTokenByName n1 n2 <=? 0).
  - rewrite Hn1, Hn2.
    destruct (createDexShareName_defined n1 n2 V1 V2) as [n Hn]. rewrite Hn. cbn [bind].
    eexists. split; [reflexivity|]. split; [reflexivity|]. split; [reflexivity|].
    split; [reflexivity|]. unfold Token_toChainData. cbn [Token_new name].
    destruct (createDexShareName_valid n1 n2 n V1 V2 Hn) as [_ [Dn _]].
    rewrite (getCurrencyObject_unzip n n1 n2 Dn
               (createDexShareName_unzip n1 n2 n V1 V2 N1 Hn)).
    rewrite O1, O2. reflexivity.
  - rewrite Hn1, Hn2.
    destruct (createDexShareName_defined n2 n1 V2 V1) as [n Hn]. rewrite Hn. cbn [bind].
    eexists. split; [reflexivity|]. split; [reflexivity|]. split; [reflexivity|].
    split; [reflexivity|]. unfold Token_toChainData. cbn [Token_new name].
    destruct (createDexShareName_valid n2 n1 n V2 V1 Hn) as [_ [Dn _]].
    rewrite (getCurrencyObject_unzip n n2 n1 Dn
               (createDexShareName_unzip n2 n1 n V2 V1 N2 Hn)).
    rewrite O2, O1. reflexivity.
Qed.

Lemma Token_fromCurrencies_chain_data_nested :
  let SETM := CurrencyId_Token (str "SETM") in
  let SERP := CurrencyId_Token (str "SERP") in
  let DNAR := CurrencyId_Token (str "DNAR") in
  let pair := CurrencyId_DexShare SETM SERP in
  total_order compare_code_units /\ plain_currency pair /\ plain_currency DNAR /\
  pair <> DNAR /\
  exists t,
    Token_fromCurrencies compare_code_units pair DNAR (Some (Decimals_pair 12 10)) = Ok t /\
    name t = str "lp://DNAR/lp%3A%2F%2FSETM%2FSERP" /\ decimals t = 10%N /\
    Token_toChainData t = Ok (CO_DexShare (object_of DNAR) (object_of pair)).
Proof.
  intros SETM SERP DNAR pair.
  assert (Hp : plain_currency pair)
    by (repeat constructor; try reflexivity; discriminate).
  assert (Hd : plain_currency DNAR)
    by (repeat constructor; try reflexivity; discriminate).
  split; [exact compare_code_units_total_order|]. split; [exact Hp|].
  split; [exact Hd|]. split; [discriminate|].
  destruct (Token_fromCurrencies_chain_data compare_code_units pair DNAR
              (Some (Decimals_pair 12 10)) compare_code_units_total_order Hp Hd)
    as [n1 [n2 [t [E1 [E2 [Et [_ Hc]]]]]]]; [discriminate|].
  exists t. split; [exact Et|].
  vm_compute in E1. injection E1 as <-. vm_compute in E2. injection E2 as <-.
  vm_compute in Et. injection Et as <-.
  split; [reflexivity|]. split; [reflexivity|]. exact Hc.
Defined.

(** ** The conversions of a Token to chain types *)

(** X15.  [toCurrencyId] returns what [api.createType] returns for the chain
    data of the token.  When [createType] raises, the Error that leaves the
    method has the one message "can't convert [object Object] to Currency
    Id", which names neither the token nor the cause; when the chain data
    itself cannot be computed, the exception of [toChainData] leaves the
    method (raised again inside the [catch] block). *)
Theorem Token_toCurrencyId_outcome {Codec} (api : TypeRegistry Codec) (t : Token) :
  Token_toCurrencyId api t
  = match Token_toChainData t with
    | Throw e => Throws (Raised e)
    | Ok data =>
        match createType api (str "SetheumPrimitivesCurrencyCombinedCurrencyId")
                (Arg_object data) with
        | Ok c => Returns c
        | Throw _ =>
            Throws (PlainError (str "can't convert [object Object] to Currency Id"))
        end
    end.
Proof.
  unfold Token_toCurrencyId, cannot_convert.
  destruct (Token_toChainData t) as [data|e]; cbn [bind]; [|reflexivity].
  destruct (createType api _ (Arg_object data)); reflexivity.
Qed.

(** X16.  [toTradingPair] on a token that is not of type DEX_SHARE raises
    the Error of the assertion and does not call the api.  On a DEX_SHARE
    token whose name is [createDexShareName(n0, n1)] it hands to
    [api.createType] the array of the currency objects of [n0] and [n1], in
    that order, and returns the result. *)
Theorem Token_toTradingPair_legs {Codec} (api : TypeRegistry Codec) (t : Token)
    (n0 n1 : JSString) (o0 o1 : CurrencyObject) (pair : Codec) :
  (type t <> DEX_SHARE ->
   Token_toTradingPair api t
   = Throws (PlainError (str "the currency is not a dex share"))) /\
  (type t = DEX_SHARE ->
   valid_name n0 -> valid_name n1 -> n0 <> [] ->
   createDexShareName n0 n1 = Ok (name t) ->
   getCurrencyObject n0 = Ok o0 -> getCurrencyObject n1 = Ok o1 ->
   createType api (str "SetheumPrimitivesTradingPair") (Arg_array [o0; o1]) = Ok pair ->
   Token_toTradingPair api t = Returns pair).
Proof.
  unfold Token_toTradingPair, Token_isDexShare. split.
  - intro Hty. destruct (type t); try reflexivity. contradiction.
  - intros Hty H0 H1 Hne Hn Ho0 Ho1 Hapi. rewrite Hty. cbn [TokenType_eqb negb].
    rewrite (createDexShareName_unzip n0 n1 (name t) H0 H1 Hne Hn).
    cbn [bind fst snd mapM]. rewrite Ho0, Ho1. cbn [bind]. rewrite Hapi. reflexivity.
Qed.

Lemma Token_toTradingPair_legs_SERP_SETM :
  let api := mkRegistry (list CurrencyObject)
               (fun _ v => match v with
                           | Arg_array l => Ok l
                           | _ => Throw CreateTypeError
                           end) in
  let SETM := Token_new (str "SETM") None in
  let SERP := Token_new (str "SERP") None in
  exists t,
    Token_fromTokens compare_code_units SETM SERP = Ok t /\
    type t = DEX_SHARE /\ createDexShareName (str "SERP") (str "SETM") = Ok (name t) /\
    Token_toTradingPair api t = Returns [CO_Token (str "SERP"); CO_Token (str "SETM")] /\
    Token_toTradingPair api SETM
    = Throws (PlainError (str "the currency is not a dex share")).
Proof.
  intros api SETM SERP. eexists. split; [reflexivity|].
  split; [reflexivity|]. split; [reflexivity|]. split.
  - eapply (Token_toTradingPair_legs api _ (str "SERP") (str "SETM"));
      try reflexivity; discriminate.
  - apply (Token_toTradingPair_legs api SETM [] [] (CO_Token []) (CO_Token []) []).
    discriminate.
Defined.

(** X17.  [toDexShare] on a token that is not of type DEX_SHARE, and
    [toTokenSymbol] on a token that is not of type BASIC, do not call the
    api, and the message of the failed assertion is not what the caller
    sees: the Error raised is the "can't convert [object Object]" one of
    the [catch] block, or the exception of [toChainData] when the name of
    the token has no chain data. *)
Theorem Token_toDexShare_wrong_type {Codec} (api : TypeRegistry Codec) (t : Token) :
  (type t <> DEX_SHARE ->
   Token_toDexShare api t
   = Throws match getCurrencyObject (name t) with
            | Ok _ => PlainError (str "can't convert [object Object] to DexShare")
            | Throw e => Raised e
            end) /\
  (type t <> BASIC ->
   Token_toTokenSymbol api t
   = Throws match getCurrencyObject (name t) with
            | Ok _ => PlainError (str "can't convert [object Object] to Token Symbol")
            | Throw e => Raised e
            end).
Proof.
  unfold Token_toDexShare, Token_toTokenSymbol, Token_isDexShare, Token_isTokenSymbol,
    cannot_convert, Token_toChainData.
  split; intro Hty; destruct (type t); try contradiction; reflexivity.
Qed.

Lemma Token_toDexShare_wrong_type_samples :
  let api := mkRegistry CreateArg (fun _ v => Ok v) in
  let SETM := Token_new (str "SETM") None in
  let broken := Token_new (str "lp://SETM")
                  (Some (mkConfigs None None None (Some ERC20) None None None None)) in
  type SETM <> DEX_SHARE /\ type broken <> BASIC /\
  Token_toDexShare api SETM
  = Throws (PlainError (str "can't convert [object Object] to DexShare")) /\
  Token_toTokenSymbol api broken
  = Throws (Raised (NotDexShareName (str "lp://SETM"))) /\
  Token_toTokenSymbol api SETM = Returns (Arg_string (str "SETM")).
Proof.
  intros api SETM broken.
  destruct (Token_toDexShare_wrong_type api SETM) as [H1 _].
  destruct (Token_toDexShare_wrong_type api broken) as [_ H2].
  split; [discriminate|]. split; [discriminate|].
  split; [rewrite H1 by discriminate; reflexivity|].
  split; [rewrite H2 by discriminate; reflexivity|reflexivity].
Defined.

(** ** The Wallet: isReady *)

Lemma ready_pushes_true (l : list (nat * bool)) (x : nat * Notification bool) :
  In x (filter (fun n : nat * Notification bool =>
                  match snd n with Next a => a | Error_ _ => true end)
          (map (fun e => (fst e, Next (snd e))) l)) ->
  snd x = Next true.
Proof.
  intro H. apply filter_In in H as [Hin Hp].
  apply in_map_iff in Hin as [[t b] [<- _]]. cbn [fst snd] in *. rewrite Hp. reflexivity.
Qed.

(** X18.  The promise [isReady] is never rejected and never fulfilled with
    [false]: it is fulfilled with [true] at once when [isReady$] holds
    [true], and it is pending as long as no [true] is pushed. *)
Theorem Wallet_isReady_settles (w : Wallet) (now : nat) :
  (forall e, Wallet_isReady w now <> Rejected e) /\
  Wallet_isReady w now <> Fulfilled false /\
  (Subject_value (isReady_ w) now = true -> Wallet_isReady w now = Fulfilled true) /\
  (Subject_value (isReady_ w) now = false ->
   (forall t b, In (t, b) (pushed (isReady_ w)) -> (now < t)%nat -> b = false) ->
   Wallet_isReady w now = Pending).
Proof.
  unfold Wallet_isReady, firstValueFrom, rx_filter, asObservable. cbn [filter snd].
  destruct (Subject_value (isReady_ w) now) eqn:Hready.
  - repeat split; try discriminate.
  - set (later := filter _ (map _ (filter _ (pushed (isReady_ w))))).
    assert (Htrue : forall x, In x later -> snd x = Next true)
      by (intro x; apply ready_pushes_true).
    split; [|split; [|split]].
    + intros e. destruct later as [|[t [a|e']] s]; try discriminate.
      specialize (Htrue _ (or_introl eq_refl)). discriminate Htrue.
    + destruct later as [|[t [a|e']] s]; try discriminate.
      specialize (Htrue _ (or_introl eq_refl)). cbn [snd] in Htrue.
      injection Htrue as ->. discriminate.
    + discriminate.
    + intros _ Hfalse. subst later. rewrite (ready_pushes_false _ _ Hfalse). reflexivity.
Qed.

Lemma Wallet_isReady_settles_samples :
  Subject_value (isReady_ sample_wallet) 0 = true /\
  Wallet_isReady sample_wallet 0 = Fulfilled true /\
  Subject_value (isReady_ fresh_wallet) 0 = false /\
  Wallet_isReady fresh_wallet 0 = Pending /\
  Wallet_isReady started_wallet 0 = Fulfilled true.
Proof.
  destruct (Wallet_isReady_settles sample_wallet 0) as [_ [_ [H1 _]]].
  destruct (Wallet_isReady_settles fresh_wallet 0) as [_ [_ [_ H2]]].
  split; [reflexivity|]. split; [apply H1; reflexivity|]. split; [reflexivity|].
  split; [apply H2; [reflexivity|intros ? ? []]|reflexivity].
Defined.

(** ** The Wallet: the token list *)

Lemma Subject_value_cases {A} (s : BehaviorSubject A) (t : nat) :
  Subject_value s t = initial s \/ exists t', In (t', Subject_value s t) (pushed s).
Proof.
  unfold Subject_value. generalize (initial s) as v.
  induction (pushed s) as [|[t' a] l IH]; intro v; cbn [fold_left fst snd].
  - left. reflexivity.
  - destruct (IH (if (t' <=? t)%nat then a else v)) as [H|[t'' H]].
    + destruct (t' <=? t)%nat.
      * right. exists t'. left. rewrite H. reflexivity.
      * left. exact H.
    + right. exists t''. right. exact H.
Qed.

Lemma asObservable_values {A} (s : BehaviorSubject A) (now t : nat) (a : A) :
  In (t, Next a) (asObservable s now) ->
  a = initial s \/ exists t', In (t', a) (pushed s).
Proof.
  unfold asObservable. intros [H|H].
  - injection H as _ <-. apply Subject_value_cases.
  - apply in_map_iff in H as [[t' a'] [E Hin]]. cbn [fst snd] in E. injection E as _ <-.
    apply filter_In in Hin as [Hin _]. right. exists t'. exact Hin.
Qed.

Lemma Object_get_key {V} (o : JSObject V) (k : JSString) (v : V) :
  Object_get o k = Some v -> In k (Object_keys o).
Proof.
  intro H. apply Object_get_Some in H.
  eapply Permutation_in; [symmetry; apply Object_keys_perm|].
  apply (in_map fst) in H. exact H.
Qed.

Lemma Object_entries_In {V} (o : JSObject V) (k : JSString) (v : V) :
  In (k, v) (Object_entries o) <-> Object_get o k = Some v.
Proof.
  unfold Object_entries. rewrite in_flat_map. split.
  - intros [k' [_ H]]. destruct (Object_get o k') as [v'|] eqn:E; [|contradiction].
    destruct H as [[= <- <-]|[]]. exact E.
  - intro E. exists k. split; [apply (Object_get_key o k v E)|].
    rewrite E. left. reflexivity.
Qed.

(** The list that [subscribeTokens] hands on for a type other than BASIC:
    the tokens of that type, under their keys. *)
Lemma filter_tokens_get (ty : TokenType) (data : TokenRecord) (k : JSString) :
  ty <> BASIC ->
  Object_get (filter_tokens (Some ty) data) k
  = match Object_get data k with
    | Some v => if TokenType_eqb (type v) ty then Some v else None
    | None => None
    end.
Proof.
  intro Hty.
  assert (E : filter_tokens (Some ty) data
              = Object_fromEntries
                  (filter (fun e => TokenType_eqb (type (snd e)) ty) (Object_entries data)))
    by (destruct ty; [contradiction|reflexivity|reflexivity]).
  rewrite E, Object_fromEntries_get. clear E.
  set (p := fun e : JSString * Token => TokenType_eqb (type (snd e)) ty).
  destruct (find (fun e => string_eqb (fst e) k) (rev (filter p (Object_entries data))))
    as [[k' v']|] eqn:Ef; cbn [option_map snd].
  - apply find_some in Ef as [Hin Hk]. cbn [fst] in Hk. apply string_eqb_eq in Hk. subst k'.
    apply in_rev, filter_In in Hin as [Hin Hp]. apply Object_entries_In in Hin.
    rewrite Hin. unfold p in Hp. cbn [snd] in Hp. rewrite Hp. reflexivity.
  - destruct (Object_get data k) as [v|] eqn:Eg; [|reflexivity].
    destruct (TokenType_eqb (type v) ty) eqn:Et; [|reflexivity].
    assert (Hin : In (k, v) (rev (filter p (Object_entries data)))).
    { apply -> in_rev. apply filter_In. split; [apply Object_entries_In, Eg|exact Et]. }
    pose proof (find_none _ _ Ef (k, v) Hin) as Hf. cbn [fst] in Hf.
    rewrite string_eqb_refl in Hf. discriminate Hf.
Qed.

(** X19.  A token list that [subscribeTokens(type)] delivers for DEX_SHARE
    or ERC20 is a list that [tokens$] held, reduced to the tokens of that
    type: a key has the token it had when that token is of the type, and no
    property otherwise. *)
Theorem subscribeTokens_by_type (w : Wallet) (ty : TokenType) (now t : nat)
    (record : TokenRecord) :
  ty <> BASIC ->
  In (t, Next record) (Wallet_subscribeTokens w (Some ty) now) ->
  exists data,
    (data = initial (tokens_ w) \/ exists t', In (t', data) (pushed (tokens_ w))) /\
    (forall k, Object_get record k
               = match Object_get data k with
                 | Some v => if TokenType_eqb (type v) ty then Some v else None
                 | None => None
                 end) /\
    (forall k v, Object_get record k = Some v -> type v = ty).
Proof.
  intros Hty Hin. unfold Wallet_subscribeTokens, memoize, shareReplay in Hin.
  apply switchMap_In in Hin as [ready [t0 [_ Hin]]].
  apply rx_map_In in Hin as [data [E Hin]].
  assert (record = filter_tokens (Some ty) data) as -> by congruence. clear E.
  exists data. split; [apply (asObservable_values _ _ _ _ Hin)|].
  split; [intro k; apply filter_tokens_get, Hty|].
  intros k v Hk. rewrite (filter_tokens_get ty data k Hty) in Hk.
  destruct (Object_get data k) as [v'|]; [|discriminate].
  destruct (TokenType_eqb (type v') ty) eqn:Et; [|discriminate].
  injection Hk as <-. destruct (type v'), ty; try discriminate; reflexivity.
Qed.

Lemma subscribeTokens_by_type_sample :
  let lp := Token_new (str "lp://SETM/SERP")
              (Some (mkConfigs None None None (Some DEX_SHARE) None None None None)) in
  let w := mkWallet None (fun _ => None)
             (mkSubject ((str "lp://SETM/SERP", lp) :: sample_tokens) []) None
             (mkSubject true []) (mkConsts (str "Setheum") (str "SETM")) in
  DEX_SHARE <> BASIC /\
  In (O, Next [(str "lp://SETM/SERP", lp)]) (Wallet_subscribeTokens w (Some DEX_SHARE) O) /\
  type lp = DEX_SHARE.
Proof.
  intros lp w. split; [discriminate|].
  assert (Hin : In (O, Next [(str "lp://SETM/SERP", lp)])
                  (Wallet_subscribeTokens w (Some DEX_SHARE) O))
    by (left; reflexivity).
  split; [exact Hin|].
  destruct (subscribeTokens_by_type w DEX_SHARE O O _ ltac:(discriminate) Hin)
    as [data [_ [_ H]]].
  apply (H (str "lp://SETM/SERP") lp). reflexivity.
Defined.

(** ** The Wallet: one token *)

Lemma later_pushes_after (l : list (nat * bool)) (now : nat) :
  Forall (fun n : nat * Notification bool => (now < fst n)%nat)
    (filter (fun n : nat * Notification bool =>
               match snd n with Next a => a | Error_ _ => true end)
       (map (fun e => (fst e, Next (snd e))) (filter (fun e => (now <? fst e)%nat) l))).
Proof.
  apply Forall_forall. intros [t n] Hin.
  apply filter_In in Hin as [Hin _]. apply in_map_iff in Hin as [[t' b] [E Hin]].
  apply filter_In in Hin as [_ Hlt]. cbn [fst snd] in *. injection E as <- _.
  apply Nat.ltb_lt. exact Hlt.
Qed.

(** A subscriber of [subscribeTokens] on a ready wallet receives the current
    list at once. *)
Lemma subscribeTokens_ready (w : Wallet) (type_ : option TokenType) (now : nat) :
  Subject_value (isReady_ w) now = true ->
  exists s, Wallet_subscribeTokens w type_ now
            = (now, Next (filter_tokens type_ (Subject_value (tokens_ w) now))) :: s.
Proof.
  intro Hready. unfold Wallet_subscribeTokens, memoize, switchMap, rx_filter.
  unfold asObservable at 2. cbn [filter snd]. rewrite Hready.
  eapply switch_streams_head; [|apply later_pushes_after].
  unfold shareReplay, rx_map, asObservable. cbn [map until_error fst snd]. reflexivity.
Qed.

Lemma subscribeToken_delivers (w : Wallet) (target : MaybeCurrency) (n : JSString)
    (token_ : Observable Token) (now t : nat) (tk : Token) :
  forceToCurrencyName target = Ok n ->
  Wallet_subscribeToken w target = Ok token_ ->
  In (t, Next tk) (token_ now) -> name tk = n.
Proof.
  intros Hn Hsub Hin. unfold Wallet_subscribeToken, memoize in Hsub.
  rewrite Hn in Hsub. cbn [bind] in Hsub. injection Hsub as <-.
  apply rx_map_In in Hin as [all [E _]].
  destruct (find _ (Object_values all)) as [result|] eqn:Ef; [|discriminate].
  injection E as <-. apply find_some in Ef as [_ Ef]. apply string_eqb_eq, Ef.
Qed.

(** X20.  Every token that [subscribeToken(target)] delivers has the name
    of the target, and the only error of the stream is CurrencyNotFound with
    that name. *)
Theorem subscribeToken_name (w : Wallet) (target : MaybeCurrency) (n : JSString)
    (token_ : Observable Token) (now : nat) :
  forceToCurrencyName target = Ok n ->
  Wallet_subscribeToken w target = Ok token_ ->
  (forall t tk, In (t, Next tk) (token_ now) -> name tk = n) /\
  (forall t e, In (t, Error_ e) (token_ now) -> e = CurrencyNotFound n).
Proof.
  intros Hn Hsub. split.
  - intros t tk. apply (subscribeToken_delivers w target n token_ now t tk Hn Hsub).
  - unfold Wallet_subscribeToken, memoize in Hsub.
    rewrite Hn in Hsub. cbn [bind] in Hsub. injection Hsub as <-.
    intros t e Hin. unfold rx_map in Hin. apply until_error_In in Hin.
    apply in_map_iff in Hin as [[t' x] [E Hin]]. cbn [fst snd] in E.
    destruct x as [all|e'].
    + destruct (find _ (Object_values all)); [discriminate|]. congruence.
    + exfalso. exact (no_error_subscribeTokens w None now t' e' Hin).
Qed.

Lemma subscribeToken_name_sample :
  exists token_,
    forceToCurrencyName (MC_Token (Token_new (str "SERP") None)) = Ok (str "SERP") /\
    Wallet_subscribeToken sample_wallet (MC_Token (Token_new (str "SERP") None))
    = Ok token_ /\
    In (O, Next (Token_new (str "SERP") None)) (token_ O) /\
    name (Token_new (str "SERP") None) = str "SERP".
Proof.
  eexists. split; [reflexivity|]. split; [reflexivity|].
  assert (Hin : In (O, Next (Token_new (str "SERP") None))
                  (rx_map
                     (fun all =>
                        match find (fun item => string_eqb (name item) (str "SERP"))
                                (Object_values all) with
                        | Some result => Ok result
                        | None => Throw (CurrencyNotFound (str "SERP"))
                        end)
                     (Wallet_subscribeTokens sample_wallet None) O))
    by (left; reflexivity).
  split; [exact Hin|].
  destruct (subscribeToken_name sample_wallet
              (MC_Token (Token_new (str "SERP") None)) (str "SERP") _ O
              eq_refl eq_refl) as [H _].
  apply (H O _ Hin).
Defined.

(** X21.  On a ready wallet [getToken(target)] is settled at once: it is
    fulfilled with the first token of the current list whose name is the
    name of the target, whatever key the token stands under, and rejected
    with CurrencyNotFound when the list has no such token. *)
Theorem Wallet_getToken_ready (w : Wallet) (target : MaybeCurrency) (n : JSString)
    (now : nat) :
  Subject_value (isReady_ w) now = true ->
  forceToCurrencyName target = Ok n ->
  Wallet_getToken w target now
  = match find (fun item => string_eqb (name item) n)
            (Object_values (Subject_value (tokens_ w) now)) with
    | Some result => Fulfilled result
    | None => Rejected (CurrencyNotFound n)
    end.
Proof.
  intros Hready Hn. unfold Wallet_getToken, Wallet_subscribeToken, memoize, async.
  rewrite Hn. cbn [bind]. unfold firstValueFrom, rx_map.
  destruct (subscribeTokens_ready w None now Hready) as [s ->].
  cbn [map fst snd filter_tokens].
  destruct (find _ (Object_values (Subject_value (tokens_ w) now))); reflexivity.
Qed.

Lemma Wallet_getToken_ready_samples :
  Subject_value (isReady_ sample_wallet) 0 = true /\
  forceToCurrencyName (MC_string (str "SERP")) = Ok (str "SERP") /\
  Wallet_getToken sample_wallet (MC_string (str "SERP")) 0
  = Fulfilled (Token_new (str "SERP") None) /\
  Wallet_getToken sample_wallet (MC_pair (str "SETM") (str "SERP")) 0
  = Rejected (CurrencyNotFound (str "lp://SETM/SERP")).
Proof.
  split; [reflexivity|]. split; [reflexivity|]. split.
  - rewrite (Wallet_getToken_ready sample_wallet (MC_string (str "SERP")) (str "SERP") 0);
      reflexivity.
  - rewrite (Wallet_getToken_ready sample_wallet (MC_pair (str "SETM") (str "SERP"))
               (str "lp://SETM/SERP") 0); reflexivity.
Defined.

(** ** The Wallet: balances *)

(** X22.  Every BalanceData that [subscribeBalance(target, address)]
    delivers is about a token with the name of the target; it is computed
    from the account information of the system pallet when that name is the
    native currency, and from the account data of the tokens pallet
    otherwise. *)
Theorem subscribeBalance_source {PoolDetail} (ext : Collaborators PoolDetail)
    (w : Wallet) (target : MaybeCurrency) (n address : JSString)
    (balance_ : Observable BalanceData) (now t : nat) (b : BalanceData) :
  forceToCurrencyName target = Ok n ->
  Wallet_subscribeBalance ext w target address = Ok balance_ ->
  In (t, Next b) (balance_ now) ->
  name (token b) = n /\
  if string_eqb (nativeCurrency (consts w)) n
  then exists data t0,
         In (t, Next data) (nativeBalance ext address t0) /\
         b = handleNative data (token b)
  else exists data t0,
         In (t, Next data) (nonNativeBalance ext (token b) address t0) /\
         b = handleNonNative data (token b).
Proof.
  intros Hn Hsub Hin. unfold Wallet_subscribeBalance, memoize in Hsub.
  destruct (Wallet_subscribeToken w target) as [token_|e] eqn:Etoken; [|discriminate].
  cbn [bind] in Hsub. injection Hsub as <-.
  apply switchMap_In in Hin as [tk [t0 [Htk Hin]]].
  pose proof (subscribeToken_delivers w target n token_ now _ _ Hn Etoken Htk) as Hname.
  rewrite <- Hname.
  destruct (string_eqb (nativeCurrency (consts w)) (name tk)) eqn:Enative;
    apply rx_map_In in Hin as [data [E Hdata]]; injection E as <-.
  - cbn [handleNative token].
    split; [reflexivity|]. exists data, t0. split; [exact Hdata|reflexivity].
  - cbn [handleNonNative token].
    split; [reflexivity|]. exists data, t0. split; [exact Hdata|reflexivity].
Qed.

Lemma subscribeBalance_source_non_native :
  let b := handleNonNative (mkOrml 9 0 2) (Token_new (str "SERP") None) in
  exists balance_,
    forceToCurrencyName (MC_string (str "SERP")) = Ok (str "SERP") /\
    Wallet_subscribeBalance sample_collaborators sample_wallet
      (MC_string (str "SERP")) (str "5Grw") = Ok balance_ /\
    In (O, Next b) (balance_ O) /\
    name (token b) = str "SERP" /\
    exists data t0,
      In (O, Next data) (nonNativeBalance sample_collaborators (token b) (str "5Grw") t0) /\
      b = handleNonNative data (token b).
Proof.
  intro b. eexists. split; [reflexivity|]. split; [reflexivity|].
  match goal with
  | |- In ?x ?l /\ _ => assert (Hin : In x l) by (left; reflexivity)
  end.
  split; [exact Hin|].
  exact (subscribeBalance_source sample_collaborators sample_wallet
           (MC_string (str "SERP")) (str "SERP") (str "5Grw") _ O O b
           eq_refl eq_refl Hin).
Defined.

(** ** The Wallet: preset tokens *)

Lemma preset_step_named (w : Wallet) (tokens : TokenRecord) (c : ApiConsts)
    (st : SerpTreasuryConsts) (field : SerpTreasuryConsts -> option CurrencyId)
    (data : PresetTokens) :
  api_consts w = Some c -> serpTreasury c = Some st ->
  (forall id, field st = Some id ->
     exists n, forceToCurrencyName (MC_CurrencyId id) = Ok n) ->
  preset_step w tokens field data
  = Ok match field st with
       | Some id =>
           mkPreset (nativeToken data)
             match forceToCurrencyName (MC_CurrencyId id) with
             | Ok n => Object_lookup tokens n
             | Throw _ => Undefined
             end
       | None => data
       end.
Proof.
  intros Hc Hst Hname. unfold preset_step, preset_lookup. rewrite Hc, Hst.
  destruct (field st) as [id|]; [|reflexivity].
  destruct (Hname id eq_refl) as [n ->]. reflexivity.
Qed.

(** X23.  On a ready wallet whose api has the constants of [serpTreasury],
    [getPresetTokens] returns as [nativeToken] what the token list has under
    the name of the native currency, and as [stableToken] what it has under
    the name of one constant only: the five statements write the same field,
    so SetUSD counts when it is present, and else the Setter, HELP, Dinar
    and Serp constants in that order.  What the list has under a name is the
    token listed under it, else the built-in of [Object.prototype] of that
    name, else [undefined]. *)
Theorem Wallet_getPresetTokens_stable (w : Wallet) (c : ApiConsts)
    (st : SerpTreasuryConsts) (now : nat) :
  Subject_value (isReady_ w) now = true ->
  api_consts w = Some c -> serpTreasury c = Some st ->
  (forall id,
     In (Some id) [getSerpCurrencyId st; getDinarCurrencyId st; getHelpCurrencyId st;
                   setterCurrencyId st; getSetUSDId st] ->
     exists n, forceToCurrencyName (MC_CurrencyId id) = Ok n) ->
  let tokens := Subject_value (tokens_ w) now in
  Wallet_getPresetTokens w now
  = Ok (mkPreset (Object_lookup tokens (nativeCurrency (consts w)))
          match last_stable_constant st with
          | Some id =>
              match forceToCurrencyName (MC_CurrencyId id) with
              | Ok n => Object_lookup tokens n
              | Throw _ => Undefined
              end
          | None => Undefined
          end).
Proof.
  intros Hready Hc Hst Hnames tokens. unfold Wallet_getPresetTokens.
  rewrite Hready. cbn [Bool.eqb]. fold tokens.
  unfold preset_lookup at 1. cbn [forceToCurrencyName try_catch bind].
  do 5 (rewrite (preset_step_named w tokens c st _ _ Hc Hst)
          by (intros id Hid; apply Hnames; rewrite <- Hid; simpl; tauto);
        cbn [bind]).
  unfold last_stable_constant.
  destruct (getSetUSDId st), (setterCurrencyId st), (getHelpCurrencyId st),
    (getDinarCurrencyId st), (getSerpCurrencyId st); reflexivity.
Qed.

Lemma Wallet_getPresetTokens_stable_sample :
  let SETM := Token_new (str "SETM")
                (Some (mkConfigs None (Some 12%N) None None None None None None)) in
  let wallet_of st :=
    mkWallet (Some (mkApiConsts (Some st))) (fun _ => None) (mkSubject sample_tokens [])
      None (mkSubject true []) (mkConsts (str "Setheum") (str "SETM")) in
  let st := mkSerpTreasury (Some (CurrencyId_Token (str "SERP")))
              (Some (CurrencyId_Token (str "DNAR"))) None
              (Some (CurrencyId_Token (str "SETM"))) None in
  let st' := mkSerpTreasury (Some (CurrencyId_Token (str "SERP"))) None None None
               (Some (CurrencyId_Token (str "toString"))) in
  Subject_value (isReady_ (wallet_of st)) 0 = true /\
  Wallet_getPresetTokens (wallet_of st) 0 = Ok (mkPreset (Own SETM) (Own SETM)) /\
  Wallet_getPresetTokens (wallet_of st') 0
  = Ok (mkPreset (Own SETM) (Inherited (str "toString"))).
Proof.
  intros SETM wallet_of st st'. split; [reflexivity|].
  assert (Hnames : forall s id,
            In (Some id) [getSerpCurrencyId s; getDinarCurrencyId s; getHelpCurrencyId s;
                          setterCurrencyId s; getSetUSDId s] ->
            s = st \/ s = st' ->
            exists n, forceToCurrencyName (MC_CurrencyId id) = Ok n).
  { intros s id Hid [E | E]; subst s; simpl in Hid;
      destruct Hid as [H|[H|[H|[H|[H|[]]]]]]; try discriminate H;
      injection H as <-; eexists; reflexivity. }
  split.
  - rewrite (Wallet_getPresetTokens_stable (wallet_of st) (mkApiConsts (Some st)) st 0);
      try reflexivity.
    intros id Hid. apply (Hnames st id Hid). left. reflexivity.
  - rewrite (Wallet_getPresetTokens_stable (wallet_of st') (mkApiConsts (Some st')) st' 0);
      try reflexivity.
    intros id Hid. apply (Hnames st' id Hid). right. reflexivity.
Defined.

(** ** The Wallet: prices *)

(** X24.  Asking [subscribePrice] for the MARKET source is the same as
    naming no source: MARKET is the number 0, which the [||] chain passes
    over, so the source configured for the token counts.  When that source
    is ORACLE, a request for the MARKET price of a token (not a dex share)
    subscribes to the oracle provider. *)
Theorem Wallet_subscribePrice_market {PoolDetail} (ext : Collaborators PoolDetail)
    (w : Wallet) (token_ : MaybeCurrency) :
  Wallet_subscribePrice ext w token_ (Some MARKET)
  = Wallet_subscribePrice ext w token_ None
  /\ forall n oracle tokens_of,
       forceToCurrencyName token_ = Ok n -> isDexShareName n = false ->
       resolved_price_type ext w n None = ORACLE ->
       priceProviders w ORACLE = Some oracle ->
       Wallet_subscribeToken w token_ = Ok tokens_of ->
       Wallet_subscribePrice ext w token_ (Some MARKET)
       = Ok (switchMap (fun token => subscribe oracle (name token)) tokens_of).
Proof.
  split.
  - unfold Wallet_subscribePrice, memoize. cbn [subscribePrice_rec].
    destruct (forceToCurrencyName token_) as [n|e]; reflexivity.
  - intros n oracle tokens_of Hn Hd Hsrc Horacle Htokens.
    unfold Wallet_subscribePrice, memoize. cbn [subscribePrice_rec].
    rewrite Hn. cbn [bind].
    assert (E : resolved_price_type ext w n (Some MARKET) = ORACLE) by exact Hsrc.
    rewrite E, Horacle, Hd, Htokens. reflexivity.
Qed.

Lemma Wallet_subscribePrice_market_oracle_sample :
  let oracle := mkProvider (fun _ => rx_of (FN_fromInner 25 1)) in
  let w := mkWallet None (fun ty => match ty with ORACLE => Some oracle | MARKET => None end)
             (mkSubject sample_tokens [])
             (Some (fun _ => Some (fun _ => Some ORACLE)))
             (mkSubject true []) (mkConsts (str "Setheum") (str "SETM")) in
  exists price_,
    Wallet_subscribePrice sample_collaborators w (MC_string (str "SERP")) (Some MARKET)
    = Ok price_ /\
    firstValueFrom price_ O = Fulfilled (FN_fromInner 25 1).
Proof.
  intros oracle w.
  destruct (Wallet_subscribePrice_market sample_collaborators w (MC_string (str "SERP")))
    as [_ H].
  eexists. split.
  - apply (H (str "SERP") oracle); reflexivity.
  - reflexivity.
Defined.

Lemma unzipDexShareName_not_shape (name_ : JSString) :
  ~ dex_share_shape name_ -> unzipDexShareName name_ = Throw (NotDexShareName name_).
Proof.
  intro Hn. destruct (unzipDexShareName name_) as [[a b]|e] eqn:E.
  - exfalso. apply Hn. unfold unzipDexShareName in E.
    destruct (negb (isDexShareName name_)); [discriminate|].
    destruct (RegExp_exec reg 2 name_) as [result|] eqn:Er; [|discriminate].
    exact (RegExp_exec_reg_shape _ _ Er).
  - apply unzipDexShareName_raises in E as [[_ Hs]|[-> _]]; [contradiction|reflexivity].
Qed.

(** X25.  With a provider configured for the resolved source,
    [subscribePrice] on a name that starts with [lp://] without being of the
    shape [lp://A/B] raises NotDexShareName with that name, and so does
    [getPrice]: the exception leaves the call, no observable and no promise
    is returned. *)
Theorem Wallet_subscribePrice_not_dex_share {PoolDetail} (ext : Collaborators PoolDetail)
    (w : Wallet) (token_ : MaybeCurrency) (type_ : option PriceProviderType)
    (n : JSString) (provider : PriceProvider) (now : nat) :
  forceToCurrencyName token_ = Ok n ->
  priceProviders w (resolved_price_type ext w n type_) = Some provider ->
  isDexShareName n = true -> ~ dex_share_shape n ->
  Wallet_subscribePrice ext w token_ type_ = Throw (NotDexShareName n) /\
  Wallet_getPrice ext w token_ type_ now = Throw (NotDexShareName n).
Proof.
  intros Hn Hp Hd Hshape.
  assert (E : Wallet_subscribePrice ext w token_ type_ = Throw (NotDexShareName n)).
  { unfold Wallet_subscribePrice, memoize. cbn [subscribePrice_rec].
    rewrite Hn. cbn [bind]. rewrite Hd.
    destruct (resolved_price_type ext w n type_); rewrite Hp;
      rewrite (unzipDexShareName_not_shape n Hshape); reflexivity. }
  split; [exact E|]. unfold Wallet_getPrice. rewrite E. reflexivity.
Qed.

Lemma Wallet_subscribePrice_not_dex_share_sample :
  let market := mkProvider (fun _ => rx_of (FN_fromInner 25 1)) in
  let w := mkWallet None (fun _ => Some market) (mkSubject sample_tokens []) None
             (mkSubject true []) (mkConsts (str "Setheum") (str "SETM")) in
  isDexShareName (str "lp://SETM") = true /\ ~ dex_share_shape (str "lp://SETM") /\
  Wallet_getPrice sample_collaborators w (MC_string (str "lp://SETM")) None 0
  = Throw (NotDexShareName (str "lp://SETM")).
Proof.
  intros market w.
  assert (Hs : ~ dex_share_shape (str "lp://SETM"))
    by (apply split_dex_share_None; reflexivity).
  split; [reflexivity|]. split; [exact Hs|].
  apply (Wallet_subscribePrice_not_dex_share sample_collaborators w
           (MC_string (str "lp://SETM")) None (str "lp://SETM") market 0);
    try reflexivity. exact Hs.
Defined.

(** ** The Wallet: targets without a name *)

(** X26.  When the target cannot be turned into a name, the [async] getters
    [getToken], [getBalance] and [getIssuance] return a promise rejected
    with ConvertToCurrencyNameFailed of the target, while [getPrice], which
    is not [async], raises that exception itself. *)
Theorem Wallet_getters_without_name {PoolDetail} (ext : Collaborators PoolDetail)
    (issuance : Token -> Observable Z) (w : Wallet) (target : MaybeCurrency)
    (address : JSString) (type_ : option PriceProviderType) (now : nat) (e : Error) :
  forceToCurrencyName target = Throw e ->
  e = ConvertToCurrencyNameFailed target /\
  Wallet_getToken w target now = Rejected e /\
  Wallet_getBalance ext w target address now = Rejected e /\
  Wallet_getIssuance issuance w target now = Rejected e /\
  Wallet_getPrice ext w target type_ now = Throw e.
Proof.
  intro H. split; [apply forceToCurrencyName_error_carries_target, H|].
  unfold Wallet_getToken, Wallet_getBalance, Wallet_getIssuance, Wallet_getPrice,
    Wallet_subscribeBalance, Wallet_subscribeIssuance, Wallet_subscribePrice,
    Wallet_subscribeToken, memoize.
  cbn [subscribePrice_rec]. rewrite H. repeat split; reflexivity.
Qed.

Lemma Wallet_getters_without_name_sample :
  let target := MC_pair (str "SETM") [0xDC00] in
  forceToCurrencyName target = Throw (ConvertToCurrencyNameFailed target) /\
  Wallet_getToken sample_wallet target 0 = Rejected (ConvertToCurrencyNameFailed target) /\
  Wallet_getPrice sample_collaborators sample_wallet target None 0
  = Throw (ConvertToCurrencyNameFailed target).
Proof.
  intro target. split; [reflexivity|].
  destruct (Wallet_getters_without_name sample_collaborators (fun _ => rx_of 0)
              sample_wallet target (str "5Grw") None 0
              (ConvertToCurrencyNameFailed target) eq_refl)
    as [_ [H1 [_ [_ H2]]]].
  split; [exact H1|exact H2].
Defined.

Lemma subscribePrice_rec_leg {PoolDetail} (ext : Collaborators PoolDetail)
    (w : Wallet) (leg : JSString) (type_ : option PriceProviderType) (fuel : nat) :
  (isDexShareName leg = true -> (List.length leg < fuel)%nat) ->
  subscribePrice_rec fuel ext w (MC_string leg) type_
  = Wallet_subscribePrice ext w (MC_string leg) type_.
Proof.
  intro H. destruct (isDexShareName leg) eqn:Hd.
  - apply Wallet_subscribePrice_fuel. unfold name_length. simpl. apply H. reflexivity.
  - unfold Wallet_subscribePrice, memoize.
    apply subscribePrice_rec_not_dex_share. intros ? [= <-]. exact Hd.
Qed.

(** X27.  The price of a dex-share token: with a provider configured for
    the resolved source, [subscribePrice] on a dex-share name is
    [subscribeDexShareTokenPrice] of the prices of its two legs and of the
    pool detail of the name; each leg is priced by [subscribePrice] with no
    source named, so under the source configured for the leg, and a failure
    of a leg is the failure of the whole. *)
Theorem Wallet_subscribePrice_dex_share {PoolDetail} (ext : Collaborators PoolDetail)
    (w : Wallet) (token_ : MaybeCurrency) (type_ : option PriceProviderType)
    (n leg0 leg1 : JSString) (provider : PriceProvider) :
  forceToCurrencyName token_ = Ok n ->
  priceProviders w (resolved_price_type ext w n type_) = Some provider ->
  isDexShareName n = true ->
  unzipDexShareName n = Ok (leg0, leg1) ->
  Wallet_subscribePrice ext w token_ type_
  = (price0 <- Wallet_subscribePrice ext w (MC_string leg0) None ;;
     price1 <- Wallet_subscribePrice ext w (MC_string leg1) None ;;
     Ok (subscribeDexShareTokenPrice ext price0 price1 (subscribePoolDetail ext n))).
Proof.
  intros Hn Hp Hd Hu. unfold Wallet_subscribePrice at 1. unfold memoize.
  assert (Hlen : name_length token_ = List.length n)
    by (unfold name_length; rewrite Hn; reflexivity).
  rewrite Hlen. cbn [subscribePrice_rec]. rewrite Hn. cbn [bind]. rewrite Hd.
  destruct (unzipDexShareName_legs_shorter _ _ _ Hu) as [H0 H1].
  destruct (resolved_price_type ext w n type_); rewrite Hp, Hu; cbn [bind fst snd];
    rewrite (subscribePrice_rec_leg ext w leg0 None _ H0),
            (subscribePrice_rec_leg ext w leg1 None _ H1); reflexivity.
Qed.

Lemma Wallet_subscribePrice_dex_share_sample :
  let market := mkProvider (fun n => rx_of (FN_fromInner (Z.of_nat (List.length n)) 0)) in
  let w := mkWallet None (fun _ => Some market) (mkSubject sample_tokens []) None
             (mkSubject true []) (mkConsts (str "Setheum") (str "SETM")) in
  let ext := mkCollaborators unit
               (fun _ => rx_of (mkAccountInfo 1 0 (mkAccountData 5 0 7 3)))
               (fun _ _ => rx_of (mkOrml 9 0 2))
               (fun _ => Some SETHEUM)
               (fun price0 price1 _ => fun t =>
                  match firstValueFrom price0 t, firstValueFrom price1 t with
                  | Fulfilled a, Fulfilled b => [(t, Next (FN_sub a b))]
                  | _, _ => []
                  end)
               (fun _ => rx_of tt) in
  unzipDexShareName (str "lp://SETM/SERP") = Ok (str "SETM", str "SERP") /\
  exists price_,
    Wallet_subscribePrice ext w (MC_string (str "lp://SETM/SERP")) None = Ok price_ /\
    firstValueFrom price_ O = Fulfilled (FN_fromInner 0 0).
Proof.
  intros market w ext. split; [reflexivity|].
  rewrite (Wallet_subscribePrice_dex_share ext w (MC_string (str "lp://SETM/SERP")) None
             (str "lp://SETM/SERP") (str "SETM") (str "SERP") market);
    try reflexivity.
  eexists. split; reflexivity.
Defined.

(** ** Token.sortTokenNames *)

(** X28.  Under a total order on names [Token.sortTokenNames] returns the
    names it was given, each as often as it was given, in ascending order;
    unlike [Token.sort] it keeps names that occur twice.  The result does
    not depend on the order in which the names are given. *)
Theorem Token_sortTokenNames_sorted (sortTokenByName : Comparator)
    (names : list JSString) :
  total_order sortTokenByName ->
  Permutation (Token_sortTokenNames sortTokenByName names) names /\
  StronglySorted (fun a b => sortTokenByName a b <= 0)
    (Token_sortTokenNames sortTokenByName names) /\
  (forall names', Permutation names names' ->
     Token_sortTokenNames sortTokenByName names
     = Token_sortTokenNames sortTokenByName names').
Proof.
  intro Horder. unfold Token_sortTokenNames. split; [|split].
  - apply Array_sort_perm.
  - apply Array_sort_sorted, Horder.
  - intros names' Hp. apply (Array_sort_perm_eq _ Horder), Hp.
Qed.

Lemma Token_sortTokenNames_sorted_duplicates :
  total_order compare_code_units /\
  Token_sortTokenNames compare_code_units [str "SETM"; str "DNAR"; str "SETM"]
  = [str "DNAR"; str "SETM"; str "SETM"] /\
  Permutation [str "DNAR"; str "SETM"; str "SETM"] [str "SETM"; str "DNAR"; str "SETM"].
Proof.
  split; [exact compare_code_units_total_order|]. split; [reflexivity|].
  destruct (Token_sortTokenNames_sorted compare_code_units
              [str "SETM"; str "DNAR"; str "SETM"] compare_code_units_total_order)
    as [H _].
  exact H.
Defined.

(** ** The Wallet: the token list of a ready wallet *)

(** X29.  On a ready wallet [getTokens()], with no type given, is fulfilled
    at once with the whole list that [tokens$] holds at that instant, and
    [getTokens(type)] for DEX_SHARE or ERC20 with the tokens of that list
    that have the type, each under its key. *)
Theorem Wallet_getTokens_ready (w : Wallet) (ty : TokenType) (now : nat) :
  Subject_value (isReady_ w) now = true ->
  let data := Subject_value (tokens_ w) now in
  Wallet_getTokens w None now = Fulfilled data /\
  (ty <> BASIC ->
   exists record,
     Wallet_getTokens w (Some ty) now = Fulfilled record /\
     forall k, Object_get record k
               = match Object_get data k with
                 | Some v => if TokenType_eqb (type v) ty then Some v else None
                 | None => None
                 end).
Proof.
  intros Hready data. unfold Wallet_getTokens, firstValueFrom. split.
  - destruct (subscribeTokens_ready w None now Hready) as [s ->]. reflexivity.
  - intro Hty. destruct (subscribeTokens_ready w (Some ty) now Hready) as [s ->].
    eexists. split; [reflexivity|]. intro k. apply filter_tokens_get, Hty.
Qed.

Lemma Wallet_getTokens_ready_after_start :
  let lp := Token_new (str "lp://SETM/SERP")
              (Some (mkConfigs None None None (Some DEX_SHARE) None None None None)) in
  let w := mkWallet None (fun _ => None)
             (mkSubject [] [(3%nat, (str "lp://SETM/SERP", lp) :: sample_tokens)]) None
             (mkSubject false [(4%nat, true)]) (mkConsts (str "Setheum") (str "SETM")) in
  Subject_value (isReady_ w) 5 = true /\ DEX_SHARE <> BASIC /\
  Wallet_getTokens w None 5 = Fulfilled ((str "lp://SETM/SERP", lp) :: sample_tokens) /\
  Wallet_getTokens w (Some DEX_SHARE) 5 = Fulfilled [(str "lp://SETM/SERP", lp)].
Proof.
  intros lp w. split; [reflexivity|]. split; [discriminate|].
  destruct (Wallet_getTokens_ready w DEX_SHARE 5 eq_refl) as [H1 H2].
  split; [exact H1|].
  destruct H2 as [record [E _]]; [discriminate|].
  rewrite E. vm_compute in E. injection E as <-. reflexivity.
Defined.
